(** * Image-Stegano: the LSB codec and the steganalysis heuristics

    A shallow embedding of the Python sources
      - [src/bravo_module.py]                 (module [Bravo])
      - [src/Image Steganography/Bravo.py]    (module [BravoLegacy])
      - [src/lemma_module.py]                 (module [Lemma])
      - [src/sierra_module.py]                (module [Sierra])
    together with the properties of the byte codec, the pixel codec and
    the two detectors. *)

From Stdlib Require Import String Ascii QArith Qabs ZArith Bool Lia List Sorted.
From Stdlib.Strings Require Import Byte.
Import ListNotations.
Open Scope Z_scope.

(* ===================================================================== *)
(** * The fragment of the Python runtime the sources rely on             *)
(* ===================================================================== *)

Module Py.

(** Exceptions carry the message the source gives them. *)
Inductive exn : Type :=
| TypeError (msg : string)
| ValueError (msg : string)
| IndexError (msg : string)
| RuntimeError (msg : string).

Inductive result (A : Type) : Type :=
| Ok (a : A)
| Raise (e : exn).
Arguments Ok {A} a.
Arguments Raise {A} e.

Definition bind {A B} (c : result A) (k : A -> result B) : result B :=
  match c with
  | Ok a => k a
  | Raise e => Raise e
  end.

Definition is_ok {A} (c : result A) : bool :=
  match c with Ok _ => true | Raise _ => false end.

(** A Python [str] is the list of its characters; [list(s)] and
    [''.join(chars)] are then the identity on the representation. *)
Definition str := list ascii.

Definition len {A} (l : list A) : Z := Z.of_nat (length l).

(** [range(n)], [range(a, b)] and [range(a, b, step)] with [step > 0]. *)
Definition range2 (a b : Z) : list Z :=
  map (fun k => a + Z.of_nat k) (seq 0 (Z.to_nat (b - a))).
Definition range (n : Z) : list Z := range2 0 n.
Definition range3 (a b step : Z) : list Z :=
  map (fun k => a + step * Z.of_nat k)
      (seq 0 (Z.to_nat ((b - a + step - 1) / step))).

(** Index normalisation: a negative index counts from the end. *)
Definition norm_index {A} (l : list A) (i : Z) : Z :=
  if i <? 0 then i + len l else i.

(** [l[i]] *)
Definition getitem {A} (l : list A) (i : Z) : result A :=
  let k := norm_index l i in
  if (k <? 0) || (len l <=? k) then Raise (IndexError "index out of range")
  else match nth_error l (Z.to_nat k) with
       | Some a => Ok a
       | None => Raise (IndexError "index out of range")
       end.

Fixpoint update {A} (l : list A) (k : nat) (a : A) : list A :=
  match l, k with
  | [], _ => []
  | _ :: t, O => a :: t
  | h :: t, S k' => h :: update t k' a
  end.

(** [l[i] = a] *)
Definition setitem {A} (l : list A) (i : Z) (a : A) : result (list A) :=
  let k := norm_index l i in
  if (k <? 0) || (len l <=? k)
  then Raise (IndexError "assignment index out of range")
  else Ok (update l (Z.to_nat k) a).

(** Slice bounds are clamped to [0, len]; a negative bound counts from
    the end. *)
Definition clamp {A} (l : list A) (i : Z) : nat :=
  Z.to_nat (if i <? 0 then Z.max 0 (i + len l) else Z.min i (len l)).

(** [l[a:b]], [l[:b]] and [l[a:]] *)
Definition slice {A} (l : list A) (a b : Z) : list A :=
  firstn (clamp l b - clamp l a) (skipn (clamp l a) l).
Definition slice_to {A} (l : list A) (b : Z) : list A :=
  firstn (clamp l b) l.
Definition slice_from {A} (l : list A) (a : Z) : list A :=
  skipn (clamp l a) l.

(** Binary digits of a positive number, most significant first. *)
Fixpoint pos_digits (p : positive) : str :=
  match p with
  | xH => ["1"%char]
  | xO p' => pos_digits p' ++ ["0"%char]
  | xI p' => pos_digits p' ++ ["1"%char]
  end.

Definition zfill (width : nat) (s : str) : str :=
  repeat "0"%char (width - length s) ++ s.

(** [format(v, '0{width}b')]: at least [width] characters, zero padded
    after the sign. *)
Definition format_b (width : nat) (v : Z) : str :=
  match v with
  | Z0 => zfill width ["0"%char]
  | Zpos p => zfill width (pos_digits p)
  | Zneg p => "-"%char :: zfill (width - 1) (pos_digits p)
  end.

(** [int(s, 2)] on strings of binary digits; the empty string and any
    other character are a [ValueError].  (Signs, blanks, underscores
    and a [0b] prefix, which [int] also accepts, never occur in the
    strings the sources build.) *)
Fixpoint int2_digits (acc : Z) (s : str) : option Z :=
  match s with
  | [] => Some acc
  | c :: s' =>
      if Ascii.eqb c "0" then int2_digits (2 * acc) s'
      else if Ascii.eqb c "1" then int2_digits (2 * acc + 1) s'
      else None
  end.

Definition int2 (s : str) : result Z :=
  match s with
  | [] => Raise (ValueError "invalid literal for int() with base 2")
  | _ => match int2_digits 0 s with
         | Some v => Ok v
         | None => Raise (ValueError "invalid literal for int() with base 2")
         end
  end.

(** Sequencing a list of computations, left to right
    (a generator consumed by a constructor). *)
Fixpoint mapM {A B} (f : A -> result B) (l : list A) : result (list B) :=
  match l with
  | [] => Ok []
  | a :: t =>
      bind (f a) (fun b => bind (mapM f t) (fun bs => Ok (b :: bs)))
  end.

(** [1 << n] *)
Definition lshift1 (n : Z) : result Z :=
  if n <? 0 then Raise (ValueError "negative shift count")
  else Ok (Z.shiftl 1 n).

Definition byte_val (b : byte) : Z := Z.of_N (Byte.to_N b).

(** [bytes(ints)]: every item must be in [range(0, 256)]. *)
Definition byte_of_int (v : Z) : result byte :=
  if (v <? 0) then Raise (ValueError "bytes must be in range(0, 256)")
  else match Byte.of_N (Z.to_N v) with
       | Some b => Ok b
       | None => Raise (ValueError "bytes must be in range(0, 256)")
       end.

(** [c.lower()] for a character below U+0100: the letters [A-Z] and the
    capital letters of Latin-1 move up by 32. *)
Definition lower_char (c : ascii) : ascii :=
  let n := N_of_ascii c in
  if ((65 <=? n) && (n <=? 90))%N
     || ((192 <=? n) && (n <=? 222) && negb (n =? 215))%N
  then ascii_of_N (n + 32) else c.

(** [s.lower()] *)
Definition lower (s : str) : str := map lower_char s.

(** [s.endswith(suffix)] *)
Definition endswith (s suffix : str) : bool :=
  (length suffix <=? length s)%nat
  && if list_eq_dec ascii_dec (skipn (length s - length suffix) s) suffix
     then true else false.

End Py.

Import Py.

Declare Scope py_scope.
Notation "x <- c ;; k" := (Py.bind c (fun x => k))
  (at level 61, c at next level, right associativity) : py_scope.
Notation "' pat <- c ;; k" := (Py.bind c (fun x => match x with pat => k end))
  (at level 61, pat pattern, c at next level, right associativity) : py_scope.
Open Scope py_scope.

(* ===================================================================== *)
(** * src/bravo_module.py                                                *)
(* ===================================================================== *)

Module Bravo.

(** What a caller may pass where the source expects a byte stream. *)
Inductive arg : Type :=
| Bytes (bs : list byte)
| Str (s : str).

Definition isinstance_bytes (a : arg) : bool :=
  match a with Bytes _ => true | Str _ => false end.

Definition arg_len (a : arg) : Z :=
  match a with Bytes bs => len bs | Str s => len s end.

(** [f'{byte:08b}'] *)
Definition format_08b (b : byte) : str := format_b 8 (byte_val b).

(** [f'{byte:08b}' for byte in a]: format code [b] is not defined on
    the one-character strings a [str] iterates over. *)
Definition bit_strings (a : arg) : result (list str) :=
  match a with
  | Bytes bs => Ok (map format_08b bs)
  | Str [] => Ok []
  | Str (_ :: _) =>
      Raise (ValueError "Unknown format code 'b' for object of type 'str'")
  end.

Definition validate_inputs (carrier payload : arg) (num_lsb byte_depth : Z)
  : result unit :=
  if negb (isinstance_bytes carrier)
  then Raise (TypeError "Carrier must be a byte stream.")
  else if negb (isinstance_bytes payload)
  then Raise (TypeError "Payload must be a byte stream.")
  else if (num_lsb <? 1) || (7 <? num_lsb)
  then Raise (ValueError "num_lsb must be between 1 and 7.")
  else if arg_len carrier * num_lsb * byte_depth <? arg_len payload * 8
  then Raise (ValueError "Payload is too large to be hidden in the carrier.")
  else Ok tt.

(** The body of [for j in range(num_lsb)] (lines 37-40), threading
    [carrier_byte] and [payload_index]. *)
Fixpoint inner_loop (payload_bits : str) (payload_len : Z) (js : list Z)
         (carrier_byte : list ascii) (payload_index : Z)
  : result (list ascii * Z) :=
  match js with
  | [] => Ok (carrier_byte, payload_index)
  | j :: js' =>
      if payload_index <? payload_len then
        c <- getitem payload_bits payload_index ;;
        carrier_byte' <- setitem carrier_byte (-1 - j) c ;;
        inner_loop payload_bits payload_len js' carrier_byte'
                   (payload_index + 1)
      else inner_loop payload_bits payload_len js' carrier_byte payload_index
  end.

(** The body of [for i in range(len(carrier_bits))] (lines 32-41),
    threading [carrier_bits] and [payload_index]; [break] returns the
    state as it is. *)
Fixpoint outer_loop (payload_bits : str) (payload_len num_lsb : Z)
         (idx : list Z) (carrier_bits : list str) (payload_index : Z)
  : result (list str * Z) :=
  match idx with
  | [] => Ok (carrier_bits, payload_index)
  | i :: idx' =>
      if payload_len <=? payload_index then Ok (carrier_bits, payload_index)
      else
        s <- getitem carrier_bits i ;;
        '(carrier_byte, payload_index') <-
          inner_loop payload_bits payload_len (range num_lsb) s payload_index ;;
        carrier_bits' <- setitem carrier_bits i carrier_byte ;;
        outer_loop payload_bits payload_len num_lsb idx' carrier_bits'
                   payload_index'
  end.

(** [bytes(int(carrier_bits[i], 2) for i in range(len(carrier_bits)))] *)
Definition bytes_of_bit_strings (carrier_bits : list str) : result (list byte) :=
  mapM (fun i => s <- getitem carrier_bits i ;;
                 v <- int2 s ;;
                 byte_of_int v)
       (range (len carrier_bits)).

Definition lsb_interleave_bytes (carrier payload : arg) (num_lsb : Z)
           (truncate : bool) (byte_depth : Z) : result (list byte) :=
  _ <- validate_inputs carrier payload num_lsb byte_depth ;;
  payload_strs <- bit_strings payload ;;
  let payload_bits := concat payload_strs in
  let payload_len := len payload_bits in
  carrier_bits <- bit_strings carrier ;;
  '(carrier_bits', _) <-
    outer_loop payload_bits payload_len num_lsb
               (range (len carrier_bits)) carrier_bits 0 ;;
  interleaved_bytes <- bytes_of_bit_strings carrier_bits' ;;
  if truncate then
    let required_length := (arg_len payload * 8 + num_lsb - 1) / num_lsb in
    Ok (slice_to interleaved_bytes required_length)
  else Ok interleaved_bytes.

(** [for j in range(num_lsb): bits_extracted.append(carrier_bits[-1 - j])] *)
Fixpoint extract_byte (carrier_bits : str) (js : list Z)
         (bits_extracted : list ascii) : result (list ascii) :=
  match js with
  | [] => Ok bits_extracted
  | j :: js' =>
      c <- getitem carrier_bits (-1 - j) ;;
      extract_byte carrier_bits js' (bits_extracted ++ [c])
  end.

(** [for byte in carrier: ...] (lines 59-62) *)
Fixpoint extract_loop (num_lsb : Z) (carrier : list byte)
         (bits_extracted : list ascii) : result (list ascii) :=
  match carrier with
  | [] => Ok bits_extracted
  | byte :: rest =>
      bits_extracted' <-
        extract_byte (format_08b byte) (range num_lsb) bits_extracted ;;
      extract_loop num_lsb rest bits_extracted'
  end.

(** [bytes(int(payload_bits[i:i + 8], 2)
           for i in range(0, len(payload_bits), 8))] *)
Definition bytes_of_bits (payload_bits : str) : result (list byte) :=
  mapM (fun i => v <- int2 (slice payload_bits i (i + 8)) ;; byte_of_int v)
       (range3 0 (len payload_bits) 8).

Definition lsb_deinterleave_bytes (carrier : arg) (num_bits num_lsb : Z)
           (byte_depth : Z) : result (list byte) :=
  match carrier with
  | Str _ => Raise (TypeError "Carrier must be a byte stream.")
  | Bytes bs =>
      bits_extracted <- extract_loop num_lsb bs [] ;;
      let payload_bits := slice_to bits_extracted num_bits in
      bytes_of_bits payload_bits
  end.

End Bravo.

(* ===================================================================== *)
(** * src/Image Steganography/Bravo.py                                   *)
(* ===================================================================== *)

Module BravoLegacy.

Import Bravo.

Definition exn_msg (e : exn) : string :=
  match e with
  | TypeError m | ValueError m | IndexError m | RuntimeError m => m
  end.

(** [try: ... except Exception as e: raise RuntimeError(f"{prefix}{e}")] *)
Definition try_except {A} (prefix : string) (c : result A) : result A :=
  match c with
  | Ok a => Ok a
  | Raise e => Raise (RuntimeError (prefix ++ exn_msg e))
  end.

Definition validate_inputs (carrier payload : arg) (num_lsb : Z)
  : result unit :=
  if negb (isinstance_bytes carrier)
  then Raise (TypeError "Carrier must be a byte stream.")
  else if negb (isinstance_bytes payload)
  then Raise (TypeError "Payload must be a byte stream.")
  else if (num_lsb <? 1) || (7 <? num_lsb)
  then Raise (ValueError "num_lsb must be between 1 and 7.")
  else if arg_len carrier * num_lsb <? arg_len payload * 8
  then Raise (ValueError "Payload is too large to be hidden in the carrier.")
  else Ok tt.

(** Lines 30-41 are the loops of [bravo_module.py], character for
    character, so [Bravo.outer_loop] and [Bravo.inner_loop] serve both
    files; line 46 is where the two differ. *)
Definition lsb_interleave_bytes (carrier payload : arg) (num_lsb : Z)
           (truncate : bool) : result (list byte) :=
  _ <- validate_inputs carrier payload num_lsb ;;
  payload_strs <- bit_strings payload ;;
  let payload_bits := concat payload_strs in
  let payload_len := len payload_bits in
  carrier_bits <- bit_strings carrier ;;
  try_except "Error during LSB interleaving: "
    ('(carrier_bits', _) <-
       outer_loop payload_bits payload_len num_lsb
                  (range (len carrier_bits)) carrier_bits 0 ;;
     interleaved_bytes <- bytes_of_bit_strings carrier_bits' ;;
     if truncate then
       let required_length := arg_len payload * 8 / num_lsb in
       Ok (slice_to interleaved_bytes required_length)
     else Ok interleaved_bytes).

(** Lines 62-64: a bit is appended only while fewer than [num_bits]
    have been collected. *)
Fixpoint extract_byte (num_bits : Z) (carrier_byte : str) (js : list Z)
         (bits_extracted : list ascii) : result (list ascii) :=
  match js with
  | [] => Ok bits_extracted
  | j :: js' =>
      if len bits_extracted <? num_bits then
        c <- getitem carrier_byte (-1 - j) ;;
        extract_byte num_bits carrier_byte js' (bits_extracted ++ [c])
      else extract_byte num_bits carrier_byte js' bits_extracted
  end.

(** Lines 60-64 *)
Fixpoint extract_loop (num_bits num_lsb : Z) (carrier_bits : list str)
         (idx : list Z) (bits_extracted : list ascii) : result (list ascii) :=
  match idx with
  | [] => Ok bits_extracted
  | i :: idx' =>
      carrier_byte <- getitem carrier_bits i ;;
      bits_extracted' <-
        extract_byte num_bits carrier_byte (range num_lsb) bits_extracted ;;
      extract_loop num_bits num_lsb carrier_bits idx' bits_extracted'
  end.

Definition lsb_deinterleave_bytes (carrier : arg) (num_bits num_lsb : Z)
  : result (list byte) :=
  try_except "Error during LSB deinterleaving: "
    (carrier_bits <- bit_strings carrier ;;
     bits_extracted <-
       extract_loop num_bits num_lsb carrier_bits
                    (range (len carrier_bits)) [] ;;
     let payload_bits := slice_to bits_extracted num_bits in
     bytes_of_bits payload_bits).

End BravoLegacy.

(* ===================================================================== *)
(** * src/lemma_module.py                                                *)
(* ===================================================================== *)

Module Lemma.

(** What [Image.getdata()] yields per pixel: an integer for a
    single-band image, a tuple of samples otherwise. *)
Inductive pixel : Type :=
| Scalar (v : Z)
| Tuple (vs : list Z).

(** The part of a PIL image the module reads: [size], the number of
    bands ([len(getbands())]) and the pixel data. *)
Record image : Type := Image {
  width : Z;
  height : Z;
  bands : Z;
  getdata : list pixel
}.

Definition max_bits_to_hide (img : image) (num_lsb num_channels : Z) : Z :=
  let max_bits := width img * height img * num_channels * num_lsb in
  max_bits.

Definition set_lsbs (byte_value bit_value num_bits : Z) : result Z :=
  p <- lshift1 num_bits ;;
  let mask := p - 1 in
  let new_value :=
    Z.lor (Z.land byte_value (Z.lnot mask)) (Z.land bit_value mask) in
  Ok new_value.

Definition extract_lsbs (byte_value num_bits : Z) : result Z :=
  p <- lshift1 num_bits ;;
  let extracted_value := Z.land byte_value (p - 1) in
  Ok extracted_value.

(** [list(pixel)] *)
Definition list_of_pixel (p : pixel) : result (list Z) :=
  match p with
  | Tuple vs => Ok vs
  | Scalar _ => Raise (TypeError "'int' object is not iterable")
  end.

(** [pixel[i]] *)
Definition pixel_getitem (p : pixel) (i : Z) : result Z :=
  match p with
  | Tuple vs => getitem vs i
  | Scalar _ => Raise (TypeError "'int' object is not subscriptable")
  end.

(** Lines 72-78: the loop over the channels of one pixel, threading
    [new_pixel] and [bit_idx]. *)
Fixpoint channel_loop (message_bits : str) (num_lsb : Z) (p : pixel)
         (chans : list Z) (new_pixel : list Z) (bit_idx : Z)
  : result (list Z * Z) :=
  match chans with
  | [] => Ok (new_pixel, bit_idx)
  | i :: chans' =>
      if bit_idx <? len message_bits then
        let bit_segment := slice message_bits bit_idx (bit_idx + num_lsb) in
        lsb_value <- int2 bit_segment ;;
        _ <- pixel_getitem p i ;;
        old <- getitem new_pixel i ;;
        v <- set_lsbs old lsb_value num_lsb ;;
        new_pixel' <- setitem new_pixel i v ;;
        channel_loop message_bits num_lsb p chans' new_pixel'
                     (bit_idx + num_lsb)
      else channel_loop message_bits num_lsb p chans' new_pixel bit_idx
  end.

(** Lines 70-81: the loop over the pixels, threading [new_pixels] and
    [bit_idx]; [break] returns the state as it is. *)
Fixpoint pixel_loop (message_bits : str) (num_lsb num_channels : Z)
         (pixels : list pixel) (new_pixels : list pixel) (bit_idx : Z)
  : result (list pixel) :=
  match pixels with
  | [] => Ok new_pixels
  | p :: pixels' =>
      new_pixel <- list_of_pixel p ;;
      '(new_pixel', bit_idx') <-
        channel_loop message_bits num_lsb p (range num_channels)
                     new_pixel bit_idx ;;
      let new_pixels' := new_pixels ++ [Tuple new_pixel'] in
      if len message_bits <=? bit_idx' then Ok new_pixels'
      else pixel_loop message_bits num_lsb num_channels pixels'
                      new_pixels' bit_idx'
  end.

(** [Image.new(mode, size)] followed by [putdata(new_pixels)] is taken
    as storing the samples as they are.  That is what [putdata] does
    with samples in [0, 255], and there the samples written stay for
    [num_lsb <= 8] on an image of eight-bit bands
    ([write_pixels_samples]).  For a larger [num_lsb] the samples
    written can leave that range; what [putdata] makes of such samples
    is outside this definition, and the statements on the stored image
    are made for [num_lsb <= 8]. *)
Definition hide_message_in_image (input_image : image) (message : list byte)
           (num_lsb : Z) (skip_storage_check : bool) : result image :=
  let pixels := getdata input_image in
  let num_channels := bands input_image in
  _ <- (if negb skip_storage_check then
          let max_bits := max_bits_to_hide input_image num_lsb num_channels in
          if max_bits <? len message * 8 + 32
          then Raise (ValueError "The message is too large to hide in the image.")
          else Ok tt
        else Ok tt) ;;
  let message_length := len message in
  let message_bits :=
    format_b 32 message_length
    ++ concat (map (fun byte => format_b 8 (byte_val byte)) message) in
  new_pixels <- pixel_loop message_bits num_lsb num_channels pixels [] 0 ;;
  let new_pixels := new_pixels ++ slice_from pixels (len new_pixels) in
  Ok (Image (width input_image) (height input_image) (bands input_image)
            new_pixels).

(** [format(v, f'0{num_lsb}b')] *)
Definition format_lsbs (v num_lsb : Z) : str := format_b (Z.to_nat num_lsb) v.

(** Lines 118-122 *)
Fixpoint recover_channels (num_lsb : Z) (p : pixel) (chans : list Z)
         (message_bits : str) : result str :=
  match chans with
  | [] => Ok message_bits
  | i :: chans' =>
      v <- pixel_getitem p i ;;
      extracted_bits <- extract_lsbs v num_lsb ;;
      recover_channels num_lsb p chans'
                       (message_bits ++ format_lsbs extracted_bits num_lsb)
  end.

(** Lines 114-122 *)
Fixpoint recover_pixels (num_lsb num_channels : Z) (pixels : list pixel)
         (message_bits : str) : result str :=
  match pixels with
  | [] => Ok message_bits
  | p :: pixels' =>
      message_bits' <-
        (if num_channels =? 1 then
           match p with
           | Scalar v =>
               e <- extract_lsbs v num_lsb ;;
               Ok (message_bits ++ format_lsbs e num_lsb)
           | Tuple _ =>
               Raise (TypeError "unsupported operand type(s) for &: 'tuple' and 'int'")
           end
         else recover_channels num_lsb p (range num_channels) message_bits) ;;
      recover_pixels num_lsb num_channels pixels' message_bits'
  end.

(** Lines 133-137: only whole groups of eight bits become bytes. *)
Fixpoint bytes_loop (message_bits : str) (idx : list Z) (message_bytes : list Z)
  : result (list Z) :=
  match idx with
  | [] => Ok message_bytes
  | i :: idx' =>
      let byte := slice message_bits i (i + 8) in
      if len byte =? 8 then
        v <- int2 byte ;;
        bytes_loop message_bits idx' (message_bytes ++ [v])
      else bytes_loop message_bits idx' message_bytes
  end.

Definition recover_message_from_image (input_image : image) (num_lsb : Z)
  : result (list byte) :=
  let pixels := getdata input_image in
  let num_channels := bands input_image in
  message_bits <- recover_pixels num_lsb num_channels pixels [] ;;
  let message_length_bits := slice_to message_bits 32 in
  message_length <- int2 message_length_bits ;;
  let expected_message_length_bits := message_length * 8 in
  let message_bits :=
    slice message_bits 32 (32 + expected_message_length_bits) in
  message_bytes <- bytes_loop message_bits (range3 0 (len message_bits) 8) [] ;;
  mapM byte_of_int message_bytes.

Definition bytes_in_max_file_size (img : image) (num_lsb num_channels : Z) : Z :=
  let max_bits := max_bits_to_hide img num_lsb num_channels in
  max_bits / 8.

Definition _validate_image_format (image_path : str) : result unit :=
  if negb (endswith (lower image_path) (list_ascii_of_string ".png")
           || endswith (lower image_path) (list_ascii_of_string ".bmp"))
  then Raise (ValueError "Unsupported image format. Please use .png or .bmp files.")
  else Ok tt.

(** [opened] is the image [Image.open(image_path)] returns. *)
Definition calculate_max_message_size (image_path : str) (opened : image)
           (num_lsb : Z) : result Z :=
  _ <- _validate_image_format image_path ;;
  let num_channels := bands opened in
  let total_bits := width opened * height opened * num_channels * num_lsb in
  let max_message_size := total_bits / 8 in
  Ok max_message_size.

(** [zip] stops at the end of the shorter list. *)
Definition set_lsbs_batch (data bit_values : list Z) (num_bits : Z)
  : result (list Z) :=
  mapM (fun byte_bit => set_lsbs (fst byte_bit) (snd byte_bit) num_bits)
       (combine data bit_values).

Definition mask_lsbs (byte_value mask : Z) : Z := Z.land byte_value mask.

Definition shift_lsbs (byte_value shift_by : Z) : Z :=
  if 0 <? shift_by then Z.shiftr byte_value shift_by
  else Z.shiftl byte_value (Z.abs shift_by).

End Lemma.

(* ===================================================================== *)
(** * src/sierra_module.py                                               *)
(* ===================================================================== *)

Module Sierra.

(** [np.array(image)]: rows of cells, a cell holding the samples of one
    pixel (one sample for a single-band image). *)
Definition ndarray := list (list (list Z)).

(** [pixels.flatten()] and [pixels.size] *)
Definition flatten (pixels : ndarray) : list Z := concat (concat pixels).
Definition size (pixels : ndarray) : Z := len (flatten pixels).

(** [np.unique(a, return_counts=True)]: the distinct values in
    increasing order, each with its number of occurrences. *)
Fixpoint count_insert (v : Z) (d : list (Z * Z)) : list (Z * Z) :=
  match d with
  | [] => [(v, 1)]
  | (k, c) :: t =>
      if v <? k then (v, 1) :: d
      else if v =? k then (k, c + 1) :: t
      else (k, c) :: count_insert v t
  end.

Definition unique_counts (a : list Z) : list (Z * Z) :=
  fold_right count_insert [] a.

(** Lines 33-35, over [distribution.values()] in insertion order.
    [threshold] is the product [0.1 * total_bits], a double that is only
    ever compared with an integer.  The double nearest to
    [total_bits / 10] is that number itself when it is an integer, and
    otherwise lies strictly between the same two integers, for every
    [total_bits] below [2^48]; so the comparison is the exact one, and
    the threshold is kept as a rational. *)
Fixpoint any_deviates (counts : list Z) (expected : Z) (threshold : Q) : bool :=
  match counts with
  | [] => false
  | count :: rest =>
      if negb (Qle_bool (inject_Z (Z.abs (count - expected))) threshold)
      then true
      else any_deviates rest expected threshold
  end.

Definition is_lsb_steganography (pixels : ndarray) (num_lsb : Z)
  : result bool :=
  p <- lshift1 num_lsb ;;
  let lsb_flat := map (fun v => Z.land v (p - 1)) (flatten pixels) in
  let distribution := unique_counts lsb_flat in
  let total_bits := size pixels * num_lsb in
  let threshold := ((1 # 10) * inject_Z total_bits)%Q in
  if negb (len distribution =? p) then Ok true
  else Ok (any_deviates (map snd distribution) (total_bits / p) threshold).

Definition flipping_mask (block : ndarray) (mask : Z) : ndarray :=
  map (map (map (fun v => Z.lxor v mask))) block.

(** [pixels[x:x + 2, y:y + 2]] *)
Definition block_at (pixels : ndarray) (x y : Z) : ndarray :=
  map (fun row => slice row y (y + 2)) (slice pixels x (x + 2)).

(** [np.sum(a == b)] and [np.sum(a != b)] on arrays of one shape *)
Definition count_if (p : Z -> Z -> bool) (a b : ndarray) : Z :=
  len (filter (fun ab => p (fst ab) (snd ab))
              (combine (flatten a) (flatten b))).

(** Line 94, as long as the outer loop runs there is a row 0. *)
Definition row_len (pixels : ndarray) : Z := len (nth 0%nat pixels []).

(** Lines 95-98, one step of the inner loop *)
Definition rs_step (pixels : ndarray) (x : Z) (acc : Z * Z) (y : Z) : Z * Z :=
  let '(regular, singular) := acc in
  let block := block_at pixels x y in
  let flipped := flipping_mask block 1 in
  (regular + count_if Z.eqb block flipped,
   singular + count_if (fun a b => negb (Z.eqb a b)) block flipped).

Definition calculate_rs (pixels : ndarray) : Z * Z :=
  fold_left (fun acc x =>
               fold_left (rs_step pixels x)
                         (range2 0 (row_len pixels - 1)) acc)
            (range2 0 (len pixels - 1)) (0, 0).

Definition rs_analysis (pixels : ndarray) (num_lsb : Z) : Q :=
  let '(r, s) := calculate_rs pixels in
  if r + s =? 0 then 0%Q
  else (inject_Z r / inject_Z (r + s))%Q.

(** What the two functions below can end in: besides a result and the
    exceptions of the runtime fragment, a local name read before any
    assignment, and a division by zero. *)
Inductive outcome (A : Type) : Type :=
| Return (a : A)
| Throw (e : exn)
| UnboundLocalError (msg : string)
| ZeroDivisionError (msg : string).
Arguments Return {A} a.
Arguments Throw {A} e.
Arguments UnboundLocalError {A} msg.
Arguments ZeroDivisionError {A} msg.

(** Lines 47-55, threading [distribution], which no pass has bound at
    the start; the table of a layer is printed and then replaced by the
    next one. *)
Fixpoint layers_loop (pixels : ndarray) (layers : list Z)
         (distribution : option (list (Z * Z))) : option (list (Z * Z)) :=
  match layers with
  | [] => distribution
  | i :: layers' =>
      let lsb_flat := map (fun v => Z.land v (Z.shiftl 1 i - 1)) (flatten pixels) in
      layers_loop pixels layers' (Some (unique_counts lsb_flat))
  end.

Definition analyze_lsb_distribution (pixels : ndarray) (num_lsb : Z)
  : outcome (list (Z * Z)) :=
  match layers_loop pixels (range2 1 (num_lsb + 1)) None with
  | Some distribution => Return distribution
  | None =>
      UnboundLocalError
        "cannot access local variable 'distribution' where it is not associated with a value"
  end.

(** Lines 67-70: the array handed to [Image.fromarray], for masks that
    fit the sample type ([n <= 8]).  The product is taken in [uint8],
    modulo 256; the file name built on lines 72-76 is left out. *)
Definition show_lsb (pixels : ndarray) (n : Z) : outcome ndarray :=
  if n <? 0 then Throw (ValueError "negative shift count")
  else
    let mask := Z.shiftl 1 n - 1 in
    let lsb_values := map (map (map (fun v => Z.land v mask))) pixels in
    if mask =? 0 then ZeroDivisionError "integer division or modulo by zero"
    else
      let scale := 255 / mask in
      Return (map (map (map (fun v => (v * scale) mod 256))) lsb_values).

End Sierra.

(* ===================================================================== *)
(** * Views: bits, binary strings and bytes                              *)
(* ===================================================================== *)

(** The character of a binary digit. *)
Definition bit_char (b : bool) : ascii := if b then "1"%char else "0"%char.

(** The characters of a least-significant-first bit list, written the way
    Python prints a number: most significant digit first. *)
Definition str_of_lsb (u : list bool) : str := map bit_char (rev u).

(** Value of a least-significant-first bit list. *)
Fixpoint lsb_val (l : list bool) : Z :=
  match l with
  | [] => 0
  | b :: t => Z.b2z b + 2 * lsb_val t
  end.

(** The low [w] bits of [v], least significant first. *)
Definition lsb_bits (w : nat) (v : Z) : list bool :=
  map (fun j => Z.testbit v (Z.of_nat j)) (seq 0 w).

(** A byte as a unit of eight bits, and back. *)
Definition byte_bits (b : byte) : list bool := lsb_bits 8 (byte_val b).

Definition unit_byte (u : list bool) : byte :=
  match Byte.of_N (Z.to_N (lsb_val u)) with
  | Some b => b
  | None => x00
  end.

(* ===================================================================== *)
(** * Views: the byte codec on bit lists                                 *)
(* ===================================================================== *)

(** The payload bitstream: bytes in order, each most significant bit
    first. *)
Definition payload_bools (payload : list byte) : list bool :=
  concat (map (fun b => rev (byte_bits b)) payload).

(** What the embedding loop computes, unit by unit, on least-significant-
    first units: the next chunk of the bitstream replaces as many low
    positions as it has bits. *)
Fixpoint embed_units (n : nat) (units : list (list bool)) (P : list bool)
  : list (list bool) :=
  match units with
  | [] => []
  | u :: rest =>
      match P with
      | [] => units
      | _ => (firstn n P ++ skipn (length (firstn n P)) u)
               :: embed_units n rest (skipn n P)
      end
  end.

(** The embedding as a function of the carrier units and the payload
    bitstream. *)
Definition embedded (carrier payload : list byte) (num_lsb : Z) : list byte :=
  map unit_byte
      (embed_units (Z.to_nat num_lsb) (map byte_bits carrier)
                   (payload_bools payload)).

(** The bits the extraction loop collects: the low [n] bits of every
    unit, least significant first. *)
Definition extracted_bools (n : nat) (carrier : list byte) : list bool :=
  flat_map (fun b => firstn n (byte_bits b)) carrier.

(** Groups of eight bits, the last one possibly shorter, each read as a
    most-significant-first number. *)
Definition group_bytes (B : list bool) : list byte :=
  map (fun k => unit_byte (rev (firstn 8 (skipn (8 * k) B))))
      (seq 0 ((length B + 7) / 8)).

(** The bit order as worded for the embedding: within a unit, the first
    bit taken from the bitstream goes to the highest of the [num_lsb]
    target positions, the next one below it, and so on. *)
Definition chunk_msb_highest (payload stego : list byte) (num_lsb : Z) : Prop :=
  forall (i j : nat) (s p : byte),
    Z.of_nat j < num_lsb ->
    nth_error stego i = Some s ->
    nth_error payload ((Z.to_nat num_lsb * i + j) / 8) = Some p ->
    Z.testbit (byte_val s) (num_lsb - 1 - Z.of_nat j)
    = Z.testbit (byte_val p)
                (Z.of_nat (7 - (Z.to_nat num_lsb * i + j) mod 8)).

(* ===================================================================== *)
(** * Views: the pixel codec on samples                                  *)
(* ===================================================================== *)

(** The message bitstream of [hide_message_in_image]: the length on 32
    bits, then the bytes, everything most significant bit first. *)
Definition message_bools (message : list byte) : list bool :=
  rev (lsb_bits 32 (len message)) ++ payload_bools message.

(** [set_lsbs] as a function. *)
Definition set_low (byte_value bit_value num_bits : Z) : Z :=
  Z.lor (Z.land byte_value (Z.lnot (Z.ones num_bits)))
        (Z.land bit_value (Z.ones num_bits)).

(** What the channel loop does to a run of samples, from bit index [b]:
    each sample receives the next segment, read as a number, and the
    index advances by [n], as long as bits remain. *)
Fixpoint write_units (M : list bool) (n : nat) (units : list Z) (b : nat)
  : list Z * nat :=
  match units with
  | [] => ([], b)
  | u :: rest =>
      if (b <? length M)%nat then
        let '(rest', b') := write_units M n rest (b + n) in
        (set_low u (lsb_val (rev (firstn n (skipn b M)))) (Z.of_nat n) :: rest',
         b')
      else (units, b)
  end.

Fixpoint write_pixels (M : list bool) (n : nat) (pxs : list (list Z)) (b : nat)
  : list (list Z) :=
  match pxs with
  | [] => []
  | vs :: rest =>
      let '(vs', b') := write_units M n vs b in
      vs' :: write_pixels M n rest b'
  end.

(** The bits the reader takes from one sample, most significant first. *)
Definition read_unit (n : nat) (u : Z) : list bool := rev (lsb_bits n u).

(** A multi-band image as PIL hands it over: [width * height] pixels,
    each a tuple of [bands] samples. *)
Definition multiband (img : Lemma.image) : Prop :=
  2 <= Lemma.bands img
  /\ len (Lemma.getdata img) = Lemma.width img * Lemma.height img
  /\ Forall (fun p => exists vs, p = Lemma.Tuple vs /\ len vs = Lemma.bands img)
            (Lemma.getdata img).

(** An image of eight-bit bands, as the multi-band modes of PIL are:
    every sample lies in [0, 255]. *)
Definition eight_bit (img : Lemma.image) : Prop :=
  Forall (fun p => match p with
                   | Lemma.Scalar v => 0 <= v < 256
                   | Lemma.Tuple vs => Forall (fun v => 0 <= v < 256) vs
                   end)
         (Lemma.getdata img).

(** A 2 x 3 RGB image, all samples [0xFF]: 18 units. *)
Definition rgb_2x3 : Lemma.image :=
  Lemma.Image 2 3 3 (repeat (Lemma.Tuple [255; 255; 255]) 6).

(** A 10 x 10 single-band image. *)
Definition gray_10x10 : Lemma.image :=
  Lemma.Image 10 10 1 (repeat (Lemma.Scalar 255) 100).

(** The example at the end of [lemma_module.py]: [b'Hi'] in a 4 x 4 RGB
    image at [num_lsb = 2]. *)
Definition rgb_4x4 : Lemma.image :=
  Lemma.Image 4 4 3 (repeat (Lemma.Tuple [255; 255; 255]) 16).

(* ===================================================================== *)
(** * Views: RS analysis on arrays                                       *)
(* ===================================================================== *)

(** An [H x W] array of cells with [C] samples each. *)
Definition has_shape (pixels : Sierra.ndarray) (H W C : nat) : Prop :=
  length pixels = H
  /\ Forall (fun row => length row = W
                        /\ Forall (fun cell => length cell = C) row) pixels.

(** The top-left corners the loops of [calculate_rs] visit, in order. *)
Definition rs_windows (pixels : Sierra.ndarray) : list (Z * Z) :=
  flat_map (fun x => map (pair x) (range2 0 (Sierra.row_len pixels - 1)))
           (range2 0 (len pixels - 1)).

(** The cells of the 2 x 2 window with top-left corner [(x, y)]. *)
Definition window_cells (xy : Z * Z) : list (Z * Z) :=
  let '(x, y) := xy in [(x, y); (x, y + 1); (x + 1, y); (x + 1, y + 1)].

(** The samples of the cell in row [i] and column [j]. *)
Definition cell_at (pixels : Sierra.ndarray) (ij : Z * Z) : list Z :=
  nth (Z.to_nat (snd ij)) (nth (Z.to_nat (fst ij)) pixels []) [].

(** The elements of the window with top-left corner [xy], as the code
    slices them out. *)
Definition window_samples (pixels : Sierra.ndarray) (xy : Z * Z) : list Z :=
  Sierra.flatten (Sierra.block_at pixels (fst xy) (snd xy)).

(** An element that equals its XOR-with-1 flip. *)
Definition equals_flip (v : Z) : bool := v =? Z.lxor v 1.

(** How many elements of a list satisfy [p]. *)
Definition count_where (p : Z -> bool) (l : list Z) : Z := len (filter p l).

(** The total of [f] over a list of windows. *)
Definition total_over (f : Z * Z -> Z) (ws : list (Z * Z)) : Z :=
  fold_right Z.add 0 (map f ws).

(** RS analysis as worded: the blocks tile the array without overlap and
    each whole block counts once, as regular or as singular. *)
Definition rs_counts_whole_blocks (pixels : Sierra.ndarray) : Prop :=
  (forall w1 w2 c, In w1 (rs_windows pixels) -> In w2 (rs_windows pixels) ->
                   In c (window_cells w1) -> In c (window_cells w2) -> w1 = w2)
  /\ (let '(r, s) := Sierra.calculate_rs pixels in
      r + s = (len pixels / 2) * (Sierra.row_len pixels / 2)).

(** A 3 x 3 single-band array. *)
Definition gray_3x3 : Sierra.ndarray :=
  [[[10]; [11]; [12]]; [[13]; [14]; [15]]; [[16]; [17]; [18]]].

(* ===================================================================== *)
(** * Views: the distribution test                                       *)
(* ===================================================================== *)

(** The low [num_lsb] bits of every sample. *)
Definition lsb_values (pixels : Sierra.ndarray) (num_lsb : Z) : list Z :=
  map (fun v => v mod 2 ^ num_lsb) (Sierra.flatten pixels).

(** How many distinct values occur, and how often each does. *)
Definition distinct_count (vals : list Z) : Z := len (nodup Z.eq_dec vals).

Definition occurrences (vals : list Z) (v : Z) : Z :=
  Z.of_nat (count_occ Z.eq_dec vals v).

(** The test as worded: against the uniform expectation
    [total_units / 2^num_lsb], with a tolerance of 10% of [total_units]. *)
Definition suspicious_as_worded (pixels : Sierra.ndarray) (num_lsb : Z) : Prop :=
  let vals := lsb_values pixels num_lsb in
  let total_units := Sierra.size pixels in
  distinct_count vals < 2 ^ num_lsb
  \/ exists v,
      0 <= v < 2 ^ num_lsb
      /\ ((1 # 10) * inject_Z total_units
          < Qabs (inject_Z (occurrences vals v)
                  - inject_Z total_units / inject_Z (2 ^ num_lsb)))%Q.

(** The test as coded: against [total_bits // 2^num_lsb], with a
    tolerance of 10% of [total_bits = total_units * num_lsb]. *)
Definition suspicious_as_coded (pixels : Sierra.ndarray) (num_lsb : Z) : Prop :=
  let vals := lsb_values pixels num_lsb in
  let total_bits := Sierra.size pixels * num_lsb in
  distinct_count vals < 2 ^ num_lsb
  \/ exists v,
      0 <= v < 2 ^ num_lsb
      /\ 10 * Z.abs (occurrences vals v - total_bits / 2 ^ num_lsb) > total_bits.

(** The values of a table of counts. *)
Definition keys (d : list (Z * Z)) : list Z := map fst d.

(** The values [0 .. p - 1]. *)
Definition below (p : Z) : list Z := map Z.of_nat (seq 0 (Z.to_nat p)).

(** Eight samples whose low two bits take each value twice. *)
Definition gray_uniform : Sierra.ndarray :=
  [[[0]; [1]; [2]; [3]; [4]; [5]; [6]; [7]]].

(* ===================================================================== *)
(** * Views: tables of counts                                            *)
(* ===================================================================== *)

(** The total of the counts of a table. *)
Definition sum_counts (d : list (Z * Z)) : Z := fold_right Z.add 0 (map snd d).

(* ===================================================================== *)
(** * Facts about the runtime fragment                                   *)
(* ===================================================================== *)

(** Deciding the comparisons of an index computation once the bounds
    are in the context. *)
Ltac zbool :=
  repeat match goal with
    | |- context [?a <? ?b] =>
        first [ rewrite (proj2 (Z.ltb_lt a b)) by lia
              | rewrite (proj2 (Z.ltb_ge a b)) by lia ]
    | |- context [?a <=? ?b] =>
        first [ rewrite (proj2 (Z.leb_le a b)) by lia
              | rewrite (proj2 (Z.leb_gt a b)) by lia ]
    end.

Section RuntimeFacts.

Lemma len_nonneg {A} (l : list A) : 0 <= len l.
Proof. unfold len. lia. Qed.

Lemma len_app {A} (l1 l2 : list A) : len (l1 ++ l2) = len l1 + len l2.
Proof. unfold len. rewrite length_app. lia. Qed.

Lemma len_map {A B} (f : A -> B) (l : list A) : len (map f l) = len l.
Proof. unfold len. now rewrite length_map. Qed.

Lemma range_nat (n : nat) :
  range (Z.of_nat n) = map Z.of_nat (seq 0 n).
Proof.
  unfold range, range2. rewrite Z.sub_0_r, Nat2Z.id.
  apply map_ext. intros k. lia.
Qed.

Lemma range_len {A} (l : list A) :
  range (len l) = map Z.of_nat (seq 0 (length l)).
Proof. apply range_nat. Qed.

Lemma getitem_nat {A} (l : list A) (k : nat) (a : A) :
  nth_error l k = Some a -> getitem l (Z.of_nat k) = Ok a.
Proof.
  intros H.
  assert (k < length l)%nat by (apply nth_error_Some; congruence).
  assert (Z.of_nat k < len l) by (unfold len; lia).
  cbv [getitem norm_index]. zbool. cbn [orb].
  now rewrite Nat2Z.id, H.
Qed.

Lemma getitem_from_end {A} (u : list A) (j : nat) (a : A) :
  nth_error u j = Some a -> getitem (rev u) (-1 - Z.of_nat j) = Ok a.
Proof.
  intros H.
  assert (j < length u)%nat by (apply nth_error_Some; congruence).
  assert (E : len (rev u) = Z.of_nat (length u))
    by (unfold len; now rewrite length_rev).
  cbv [getitem norm_index]. rewrite E. zbool. cbn [orb].
  replace (Z.to_nat (-1 - Z.of_nat j + Z.of_nat (length u)))
    with (length u - 1 - j)%nat by lia.
  rewrite nth_error_rev.
  destruct (Nat.ltb_spec (length u - 1 - j) (length u)); [|lia].
  replace (length u - S (length u - 1 - j))%nat with j by lia.
  now rewrite H.
Qed.

Lemma getitem_app_mid_aux {A} (pre : list A) (a : A) (post : list A) :
  getitem (pre ++ a :: post) (len pre) = Ok a.
Proof.
  apply getitem_nat. rewrite nth_error_app2 by lia.
  now rewrite Nat.sub_diag.
Qed.

Lemma update_app_mid {A} (pre : list A) (a a' : A) (post : list A) :
  update (pre ++ a :: post) (length pre) a' = pre ++ a' :: post.
Proof. induction pre as [|h t IH]; simpl; [reflexivity | now rewrite IH]. Qed.

Lemma setitem_app_mid {A} (pre : list A) (a a' : A) (post : list A) :
  setitem (pre ++ a :: post) (len pre) a' = Ok (pre ++ a' :: post).
Proof.
  pose proof (len_nonneg pre).
  assert (len pre < len (pre ++ a :: post))
    by (rewrite len_app; unfold len; cbn [length]; lia).
  cbv [setitem norm_index]. zbool. cbn [orb].
  unfold len. now rewrite Nat2Z.id, update_app_mid.
Qed.

(** [s[-1 - j] = c] on the printed form of a bit list rewrites its
    [j]-th least significant position. *)
Lemma setitem_from_end {A} (pre : list A) (a a' : A) (post : list A) :
  setitem (rev (pre ++ a :: post)) (-1 - len pre) a'
  = Ok (rev (pre ++ a' :: post)).
Proof.
  rewrite !rev_app_distr. cbn [rev]. rewrite <- !app_assoc. cbn [app].
  pose proof (len_nonneg pre). pose proof (len_nonneg (rev post)).
  assert (E : len (rev post ++ a :: rev pre) = len (rev post) + 1 + len pre).
  { rewrite len_app. unfold len. cbn [length]. rewrite !length_rev. lia. }
  cbv [setitem norm_index]. rewrite E. zbool. cbn [orb].
  replace (-1 - len pre + (len (rev post) + 1 + len pre)) with (len (rev post)) by lia.
  unfold len. now rewrite Nat2Z.id, update_app_mid.
Qed.

Lemma mapM_map {A B C} (g : A -> B) (f : B -> result C) (l : list A) :
  mapM f (map g l) = mapM (fun a => f (g a)) l.
Proof. induction l as [|a t IH]; simpl; [reflexivity | now rewrite IH]. Qed.

Lemma mapM_pure {A B} (f : A -> result B) (g : A -> B) (l : list A) :
  (forall a, In a l -> f a = Ok (g a)) -> mapM f l = Ok (map g l).
Proof.
  induction l as [|a t IH]; intros H; simpl; [reflexivity|].
  rewrite (H a) by now left. simpl. rewrite IH; [reflexivity|].
  intros; apply H; now right.
Qed.

(** Indexing every position of a list in order visits its items. *)
Lemma mapM_getitem_suffix {A B} (f : A -> result B) (pre rest : list A) :
  mapM (fun i => s <- getitem (pre ++ rest) i ;; f s)
       (map Z.of_nat (seq (length pre) (length rest)))
  = mapM f rest.
Proof.
  revert pre. induction rest as [|a t IH]; intros pre; [reflexivity|].
  simpl. fold (len pre). rewrite getitem_app_mid_aux. simpl.
  destruct (f a); [|reflexivity]. simpl.
  specialize (IH (pre ++ [a])). rewrite <- app_assoc in IH. simpl in IH.
  rewrite length_app in IH. simpl in IH. rewrite Nat.add_1_r in IH.
  now rewrite IH.
Qed.

End RuntimeFacts.

(* ===================================================================== *)
(** * Binary strings and the numbers they print                          *)
(* ===================================================================== *)

Section BinaryStrings.

Lemma lsb_val_range (l : list bool) : 0 <= lsb_val l < 2 ^ len l.
Proof.
  unfold len. induction l as [|b t IH]; [simpl; lia|].
  cbn [lsb_val length]. rewrite Nat2Z.inj_succ, Z.pow_succ_r by lia.
  destruct b; cbn [Z.b2z]; lia.
Qed.

Lemma lsb_val_app (l1 l2 : list bool) :
  lsb_val (l1 ++ l2) = lsb_val l1 + 2 ^ len l1 * lsb_val l2.
Proof.
  unfold len. induction l1 as [|b t IH]; cbn [lsb_val length app].
  - change (Z.of_nat 0) with 0. lia.
  - rewrite IH, Nat2Z.inj_succ, Z.pow_succ_r by lia. lia.
Qed.

Lemma testbit_lsb_val (l : list bool) (j : nat) :
  Z.testbit (lsb_val l) (Z.of_nat j) = nth j l false.
Proof.
  revert j. induction l as [|b t IH]; intros j.
  - cbn [lsb_val]. rewrite Z.testbit_0_l. now destruct j.
  - cbn [lsb_val]. destruct j as [|j].
    + cbn [nth Z.of_nat]. rewrite Z.add_comm, Z.testbit_0_r. reflexivity.
    + rewrite Nat2Z.inj_succ, Z.add_comm, Z.testbit_succ_r by lia. apply IH.
Qed.

Lemma lsb_bits_length (w : nat) (v : Z) : length (lsb_bits w v) = w.
Proof. unfold lsb_bits. now rewrite length_map, length_seq. Qed.

Lemma nth_lsb_bits (w : nat) (v : Z) (j : nat) :
  (j < w)%nat -> nth j (lsb_bits w v) false = Z.testbit v (Z.of_nat j).
Proof.
  intros H. unfold lsb_bits.
  rewrite (nth_indep _ false (Z.testbit v (Z.of_nat 0)))
    by now rewrite length_map, length_seq.
  rewrite (map_nth (fun j => Z.testbit v (Z.of_nat j))).
  now rewrite seq_nth.
Qed.

Lemma lsb_bits_lsb_val (l : list bool) : lsb_bits (length l) (lsb_val l) = l.
Proof.
  apply (nth_ext _ _ false false).
  - apply lsb_bits_length.
  - intros j Hj. rewrite lsb_bits_length in Hj.
    rewrite nth_lsb_bits by assumption. apply testbit_lsb_val.
Qed.

Lemma lsb_val_lsb_bits (w : nat) (v : Z) :
  0 <= v < 2 ^ Z.of_nat w -> lsb_val (lsb_bits w v) = v.
Proof.
  intros Hv. apply Z.bits_inj'. intros n Hn.
  destruct (Z_lt_le_dec n (Z.of_nat w)) as [Hlt|Hge].
  - rewrite <- (Z2Nat.id n) by lia.
    rewrite testbit_lsb_val, nth_lsb_bits by lia. reflexivity.
  - pose proof (lsb_val_range (lsb_bits w v)) as Hr.
    unfold len in Hr. rewrite lsb_bits_length in Hr.
    rewrite <- (Z.mod_small _ _ Hr), <- (Z.mod_small _ _ Hv).
    now rewrite !Z.mod_pow2_bits_high by lia.
Qed.

Lemma lsb_bits_succ (w : nat) (v : Z) :
  lsb_bits (S w) v = Z.testbit v 0 :: lsb_bits w (Z.div2 v).
Proof.
  unfold lsb_bits. cbn [seq map]. f_equal.
  rewrite <- seq_shift, map_map. apply map_ext. intros j.
  rewrite Nat2Z.inj_succ, Z.div2_spec, Z.shiftr_spec by lia.
  f_equal; lia.
Qed.

Lemma lsb_bits_zero (w : nat) : lsb_bits w 0 = repeat false w.
Proof.
  induction w as [|w IH]; [reflexivity|].
  rewrite lsb_bits_succ. cbn. now rewrite IH.
Qed.

Lemma int2_digits_bits (bs : list bool) (acc : Z) :
  int2_digits acc (map bit_char bs)
  = Some (acc * 2 ^ len bs + lsb_val (rev bs)).
Proof.
  unfold len. revert acc. induction bs as [|b t IH]; intros acc.
  - cbn [map int2_digits rev length lsb_val]. f_equal.
    change (Z.of_nat 0) with 0. lia.
  - cbn [map int2_digits rev length]. rewrite lsb_val_app.
    unfold len. rewrite length_rev, Nat2Z.inj_succ, Z.pow_succ_r by lia.
    destruct b; cbn [bit_char].
    + change (Ascii.eqb "1" "0") with false.
      change (Ascii.eqb "1" "1") with true. cbv iota.
      rewrite IH. f_equal. cbn [lsb_val Z.b2z]. unfold len. ring.
    + change (Ascii.eqb "0" "0") with true. cbv iota.
      rewrite IH. f_equal. cbn [lsb_val Z.b2z]. unfold len. ring.
Qed.

Lemma int2_str_of_lsb (u : list bool) :
  u <> [] -> int2 (str_of_lsb u) = Ok (lsb_val u).
Proof.
  intros Hu. unfold int2, str_of_lsb.
  rewrite int2_digits_bits, rev_involutive.
  destruct (map bit_char (rev u)) eqn:E.
  - apply map_eq_nil in E. apply (f_equal (@rev bool)) in E.
    rewrite rev_involutive in E. now destruct Hu.
  - reflexivity.
Qed.

Lemma zfill_str_of_lsb (w : nat) (u : list bool) :
  (length u <= w)%nat ->
  zfill w (str_of_lsb u) = str_of_lsb (u ++ repeat false (w - length u)).
Proof.
  intros H. unfold zfill, str_of_lsb.
  rewrite length_map, length_rev, rev_app_distr, map_app, rev_repeat.
  f_equal. induction (w - length u)%nat; cbn; congruence.
Qed.

Lemma pos_digits_bits (p : positive) :
  exists u, pos_digits p = str_of_lsb u /\ lsb_val u = Zpos p
            /\ forall w, Zpos p < 2 ^ Z.of_nat w -> (length u <= w)%nat.
Proof.
  induction p as [p [u (E & V & L)]|p [u (E & V & L)]|].
  - exists (true :: u). cbn [pos_digits]. rewrite E. unfold str_of_lsb.
    cbn [rev]. rewrite map_app. split; [reflexivity|]. split.
    + cbn [lsb_val Z.b2z]. rewrite V. lia.
    + intros [|w] Hw; [cbn in Hw; lia|]. cbn [length].
      rewrite Nat2Z.inj_succ, Z.pow_succ_r in Hw by lia.
      specialize (L w). lia.
  - exists (false :: u). cbn [pos_digits]. rewrite E. unfold str_of_lsb.
    cbn [rev]. rewrite map_app. split; [reflexivity|]. split.
    + cbn [lsb_val Z.b2z]. rewrite V. lia.
    + intros [|w] Hw; [cbn in Hw; lia|]. cbn [length].
      rewrite Nat2Z.inj_succ, Z.pow_succ_r in Hw by lia.
      specialize (L w). lia.
  - exists [true]. repeat split. intros [|w] Hw; [cbn in Hw; lia|].
    cbn [length]. lia.
Qed.

Lemma lsb_bits_pad (u : list bool) (w : nat) :
  (length u <= w)%nat ->
  lsb_bits w (lsb_val u) = u ++ repeat false (w - length u).
Proof.
  intros H. apply (nth_ext _ _ false false).
  - rewrite lsb_bits_length, length_app, repeat_length. lia.
  - intros j Hj. rewrite lsb_bits_length in Hj.
    rewrite nth_lsb_bits, testbit_lsb_val by assumption.
    destruct (Nat.lt_ge_cases j (length u)).
    + now rewrite app_nth1.
    + rewrite app_nth2, nth_overflow by assumption.
      symmetry. apply nth_repeat.
Qed.

(** [format(v, '0{w}b')] prints exactly the low [w] bits when [v] fits. *)
Lemma format_b_bits (w : nat) (v : Z) :
  (1 <= w)%nat -> 0 <= v < 2 ^ Z.of_nat w ->
  format_b w v = str_of_lsb (lsb_bits w v).
Proof.
  intros Hw Hv. destruct v as [|p|p]; [| |lia].
  - cbn [format_b]. rewrite lsb_bits_zero.
    change ["0"%char] with (str_of_lsb [false]).
    rewrite zfill_str_of_lsb by (cbn; lia). cbn [length app].
    f_equal. destruct w; [lia|]. cbn. now rewrite Nat.sub_0_r.
  - cbn [format_b]. destruct (pos_digits_bits p) as (u & E & V & L).
    rewrite E, zfill_str_of_lsb by (apply L; lia).
    rewrite <- V, lsb_bits_pad by (apply L; lia). reflexivity.
Qed.

End BinaryStrings.

(* ===================================================================== *)
(** * Bytes as eight-bit units                                           *)
(* ===================================================================== *)

Section ByteUnits.

Lemma byte_val_range (b : byte) : 0 <= byte_val b < 256.
Proof.
  unfold byte_val. pose proof (Byte.to_N_bounded b). lia.
Qed.

Lemma byte_of_int_val (b : byte) : byte_of_int (byte_val b) = Ok b.
Proof.
  pose proof (byte_val_range b).
  unfold byte_of_int. zbool. unfold byte_val.
  now rewrite N2Z.id, Byte.of_to_N.
Qed.

Lemma byte_of_int_small (v : Z) :
  0 <= v < 256 -> exists b, byte_of_int v = Ok b /\ byte_val b = v.
Proof.
  intros Hv. unfold byte_of_int. zbool.
  destruct (Byte.of_N (Z.to_N v)) as [b|] eqn:E.
  - exists b. split; [reflexivity|]. unfold byte_val.
    apply Byte.to_of_N in E. rewrite E. lia.
  - apply Byte.of_N_None_iff in E. lia.
Qed.

Lemma byte_val_inj (b b' : byte) : byte_val b = byte_val b' -> b = b'.
Proof.
  intros H. pose proof (byte_of_int_val b) as E.
  rewrite H, byte_of_int_val in E. congruence.
Qed.

Lemma byte_bits_length (b : byte) : length (byte_bits b) = 8%nat.
Proof. apply lsb_bits_length. Qed.

Lemma lsb_val_byte_bits (b : byte) : lsb_val (byte_bits b) = byte_val b.
Proof. apply lsb_val_lsb_bits. apply byte_val_range. Qed.

Lemma format_08b_bits (b : byte) : Bravo.format_08b b = str_of_lsb (byte_bits b).
Proof.
  unfold Bravo.format_08b. apply format_b_bits; [lia|]. apply byte_val_range.
Qed.

Lemma byte_of_int_unit (u : list bool) :
  (length u <= 8)%nat ->
  byte_of_int (lsb_val u) = Ok (unit_byte u)
  /\ byte_val (unit_byte u) = lsb_val u.
Proof.
  intros Hu. pose proof (lsb_val_range u) as Hr.
  assert (2 ^ len u <= 2 ^ 8)
    by (apply Z.pow_le_mono_r; unfold len; lia).
  destruct (byte_of_int_small (lsb_val u)) as (b & E & V); [lia|].
  assert (Hb : unit_byte u = b).
  { unfold unit_byte. unfold byte_of_int in E. revert E. zbool.
    destruct (Byte.of_N (Z.to_N (lsb_val u))); congruence. }
  rewrite Hb. now split.
Qed.

Lemma byte_bits_unit_byte (u : list bool) :
  length u = 8%nat -> byte_bits (unit_byte u) = u.
Proof.
  intros Hu. unfold byte_bits.
  destruct (byte_of_int_unit u) as [_ ->]; [lia|].
  rewrite <- Hu. apply lsb_bits_lsb_val.
Qed.

Lemma unit_byte_byte_bits (b : byte) : unit_byte (byte_bits b) = b.
Proof.
  apply byte_val_inj.
  destruct (byte_of_int_unit (byte_bits b)) as [_ ->].
  - now rewrite byte_bits_length.
  - apply lsb_val_byte_bits.
Qed.

Lemma testbit_byte_val (b : byte) (j : nat) :
  Z.testbit (byte_val b) (Z.of_nat j) = nth j (byte_bits b) false.
Proof. rewrite <- lsb_val_byte_bits. apply testbit_lsb_val. Qed.

(** Decoding the printed form of a unit of at most eight bits. *)
Lemma decode_unit (u : list bool) :
  u <> [] -> (length u <= 8)%nat ->
  (v <- int2 (str_of_lsb u) ;; byte_of_int v) = Ok (unit_byte u).
Proof.
  intros Hne Hu. rewrite int2_str_of_lsb by assumption. cbn [bind].
  now destruct (byte_of_int_unit u Hu).
Qed.

End ByteUnits.

(* ===================================================================== *)
(** * The loops of the byte codec                                        *)
(* ===================================================================== *)

Section BravoLoops.

Lemma payload_bits_bools (payload : list byte) :
  concat (map Bravo.format_08b payload) = map bit_char (payload_bools payload).
Proof.
  unfold payload_bools. rewrite concat_map, map_map.
  f_equal. apply map_ext. intros b. apply format_08b_bits.
Qed.

Lemma payload_bools_length (payload : list byte) :
  length (payload_bools payload) = (8 * length payload)%nat.
Proof.
  unfold payload_bools. induction payload as [|b t IH]; [reflexivity|].
  cbn [map concat length]. rewrite length_app, length_rev, byte_bits_length, IH.
  lia.
Qed.

Lemma carrier_bits_units (carrier : list byte) :
  map Bravo.format_08b carrier = map str_of_lsb (map byte_bits carrier).
Proof. rewrite map_map. apply map_ext, format_08b_bits. Qed.

Lemma str_of_lsb_split (c0 : list bool) (r : bool) (rest : list bool) :
  str_of_lsb (c0 ++ r :: rest)
  = rev (map bit_char c0 ++ bit_char r :: map bit_char rest).
Proof.
  unfold str_of_lsb. rewrite map_rev, map_app. reflexivity.
Qed.

Lemma skipn_length_firstn {A} (n : nat) (l : list A) :
  skipn (length (firstn n l)) l = skipn n l.
Proof.
  rewrite length_firstn. destruct (Nat.le_ge_cases n (length l)).
  - now rewrite Nat.min_l.
  - rewrite Nat.min_r by assumption.
    now rewrite skipn_all, skipn_all2.
Qed.

Lemma skipn_cons_nth {A} (l : list A) (k : nat) (a : A) :
  nth_error l k = Some a -> skipn k l = a :: skipn (S k) l.
Proof.
  revert k. induction l as [|h t IH]; intros [|k] H; cbn in *; try discriminate.
  - congruence.
  - now apply IH.
Qed.

(** Lines 37-40: after the inner loop the unit holds the next chunk in
    its low positions, first bit lowest. *)
Lemma inner_loop_from (P : list bool) (m : nat) :
  forall (j0 : nat) (c0 rest : list bool) (k : nat),
    length c0 = j0 -> (m <= length rest)%nat ->
    let chunk := firstn m (skipn k P) in
    Bravo.inner_loop (map bit_char P) (Z.of_nat (length P))
                     (map Z.of_nat (seq j0 m))
                     (str_of_lsb (c0 ++ rest)) (Z.of_nat k)
    = Ok (str_of_lsb (c0 ++ chunk ++ skipn (length chunk) rest),
          Z.of_nat (k + length chunk)).
Proof.
  induction m as [|m IH]; intros j0 c0 rest k Hc Hm chunk; subst chunk.
  - cbn [seq map Bravo.inner_loop firstn length skipn app].
    now rewrite Nat.add_0_r.
  - destruct rest as [|r rest]; [cbn in Hm; lia|]. cbn [length] in Hm.
    cbn [seq map Bravo.inner_loop].
    destruct (Nat.lt_ge_cases k (length P)) as [Hlt|Hge].
    + zbool.
      destruct (nth_error P k) as [c|] eqn:Ec;
        [|apply nth_error_None in Ec; lia].
      rewrite (getitem_nat _ _ (bit_char c))
        by now rewrite nth_error_map, Ec.
      cbn [bind].
      rewrite str_of_lsb_split.
      replace (Z.of_nat j0) with (len (map bit_char c0))
        by (unfold len; rewrite length_map; lia).
      rewrite setitem_from_end. cbn [bind].
      rewrite <- str_of_lsb_split.
      replace (c0 ++ c :: rest) with ((c0 ++ [c]) ++ rest)
        by now rewrite <- app_assoc.
      replace (Z.of_nat k + 1) with (Z.of_nat (S k)) by lia.
      rewrite IH by (rewrite ?length_app; cbn [length]; lia).
      rewrite (skipn_cons_nth P k c Ec).
      cbn [firstn length skipn app]. rewrite <- app_assoc.
      cbn [app]. do 2 f_equal. lia.
    + zbool. rewrite (skipn_all2 P) by lia.
      replace (c0 ++ r :: rest) with ((c0 ++ [r]) ++ rest)
        by now rewrite <- app_assoc.
      rewrite IH by (rewrite ?length_app; cbn [length]; lia).
      rewrite (skipn_all2 P) by lia.
      rewrite !firstn_nil. cbn [length skipn app].
      now rewrite <- app_assoc.
Qed.

Lemma inner_loop_unit (P u : list bool) (n k : nat) :
  (n <= length u)%nat ->
  let chunk := firstn n (skipn k P) in
  Bravo.inner_loop (map bit_char P) (Z.of_nat (length P))
                   (range (Z.of_nat n)) (str_of_lsb u) (Z.of_nat k)
  = Ok (str_of_lsb (chunk ++ skipn (length chunk) u),
        Z.of_nat (k + length chunk)).
Proof.
  intros Hn chunk. rewrite range_nat.
  apply (inner_loop_from P n 0 [] u k); [reflexivity | assumption].
Qed.

(** Lines 32-41: the outer loop rewrites the units that still have a
    chunk to receive and stops at the first unit that has none. *)
Lemma outer_loop_from (P : list bool) (n : nat) (rest : list (list bool)) :
  forall (pre : list (list bool)) (k : nat),
    Forall (fun u => (n <= length u)%nat) rest ->
    exists k',
      Bravo.outer_loop (map bit_char P) (Z.of_nat (length P)) (Z.of_nat n)
                       (map Z.of_nat (seq (length pre) (length rest)))
                       (map str_of_lsb (pre ++ rest)) (Z.of_nat k)
      = Ok (map str_of_lsb (pre ++ embed_units n rest (skipn k P)), k').
Proof.
  induction rest as [|u rest IH]; intros pre k Hall.
  - eexists. reflexivity.
  - inversion Hall as [|? ? Hu Hrest]; subst.
    cbn [length seq map Bravo.outer_loop].
    destruct (Nat.lt_ge_cases k (length P)) as [Hlt|Hge].
    + zbool. rewrite map_app. cbn [map].
      replace (Z.of_nat (length pre)) with (len (map str_of_lsb pre))
        by (unfold len; now rewrite length_map).
      rewrite getitem_app_mid_aux. cbn [bind].
      rewrite inner_loop_unit by assumption. cbn [bind].
      rewrite setitem_app_mid. cbn [bind].
      set (chunk := firstn n (skipn k P)).
      set (u' := chunk ++ skipn (length chunk) u).
      destruct (IH (pre ++ [u']) (k + length chunk)%nat Hrest) as [k' Hk'].
      exists k'.
      rewrite length_app, <- app_assoc in Hk'. cbn [length app] in Hk'.
      rewrite Nat.add_1_r, map_app in Hk'. cbn [map] in Hk'.
      rewrite Hk'. do 2 f_equal. rewrite <- app_assoc. cbn [app].
      f_equal.
      destruct (skipn k P) as [|c P'] eqn:Es.
      { apply skipn_all_iff in Es. lia. }
      cbn [embed_units]. fold chunk. fold u'. f_equal.
      rewrite Nat.add_comm, <- skipn_skipn, Es.
      subst chunk. now rewrite skipn_length_firstn.
    + zbool. rewrite (skipn_all2 P) by lia.
      eexists. reflexivity.
Qed.

Lemma outer_loop_units (P : list bool) (n : nat) (units : list (list bool)) :
  Forall (fun u => (n <= length u)%nat) units ->
  exists k',
    Bravo.outer_loop (map bit_char P) (len (map bit_char P)) (Z.of_nat n)
                     (range (len (map str_of_lsb units)))
                     (map str_of_lsb units) 0
    = Ok (map str_of_lsb (embed_units n units P), k').
Proof.
  intros H. rewrite range_len, length_map.
  unfold len. rewrite length_map.
  apply (outer_loop_from P n units [] 0%nat H).
Qed.

End BravoLoops.

Section BravoInterleave.

Lemma embed_units_length (n : nat) (units : list (list bool)) (P : list bool) :
  length (embed_units n units P) = length units.
Proof.
  revert P. induction units as [|u rest IH]; intros P; [reflexivity|].
  destruct P; cbn [embed_units length]; [reflexivity|]. now rewrite IH.
Qed.

Lemma embed_units_nil (n : nat) (units : list (list bool)) :
  embed_units n units [] = units.
Proof. now destruct units. Qed.

Lemma embed_unit_length (n : nat) (P u : list bool) :
  length (firstn n P ++ skipn (length (firstn n P)) u)
  = Nat.max (length u) (Nat.min n (length P)).
Proof. rewrite length_app, length_skipn, length_firstn. lia. Qed.

Lemma embed_units_width (n w : nat) (units : list (list bool)) (P : list bool) :
  (n <= w)%nat ->
  Forall (fun u => length u = w) units ->
  Forall (fun u => length u = w) (embed_units n units P).
Proof.
  intros Hn. revert P. induction units as [|u rest IH]; intros P Hall.
  - constructor.
  - inversion Hall as [|? ? Hu Hrest]; subst.
    destruct P as [|c P]; [assumption|].
    cbn [embed_units]. constructor; [|now apply IH].
    rewrite embed_unit_length. lia.
Qed.

Lemma byte_units_width (carrier : list byte) :
  Forall (fun u => length u = 8%nat) (map byte_bits carrier).
Proof.
  apply Forall_forall. intros u Hu. apply in_map_iff in Hu.
  destruct Hu as (b & <- & _). apply byte_bits_length.
Qed.

(** Line 43: reading the bit strings back as bytes. *)
Lemma bytes_of_bit_strings_units (units : list (list bool)) :
  Forall (fun u => length u = 8%nat) units ->
  Bravo.bytes_of_bit_strings (map str_of_lsb units) = Ok (map unit_byte units).
Proof.
  intros Hall. unfold Bravo.bytes_of_bit_strings.
  rewrite range_len.
  pose proof (mapM_getitem_suffix
                (fun s => v <- int2 s ;; byte_of_int v) []
                (map str_of_lsb units)) as E.
  cbn [app length] in E. rewrite E, mapM_map. apply mapM_pure. intros u Hu.
  rewrite Forall_forall in Hall. specialize (Hall u Hu).
  apply decode_unit; [|lia]. intros ->. discriminate.
Qed.

Lemma validate_inputs_ok (carrier payload : list byte) (num_lsb byte_depth : Z) :
  1 <= num_lsb <= 7 ->
  len payload * 8 <= len carrier * num_lsb * byte_depth ->
  Bravo.validate_inputs (Bravo.Bytes carrier) (Bravo.Bytes payload)
                        num_lsb byte_depth = Ok tt.
Proof.
  intros Hn Hcap. unfold Bravo.validate_inputs.
  cbn [Bravo.isinstance_bytes negb Bravo.arg_len]. zbool. reflexivity.
Qed.

Lemma lsb_interleave_bytes_spec
        (carrier payload : list byte) (num_lsb : Z) (truncate : bool) :
  1 <= num_lsb <= 7 ->
  len payload * 8 <= len carrier * num_lsb ->
  Bravo.lsb_interleave_bytes (Bravo.Bytes carrier) (Bravo.Bytes payload)
                             num_lsb truncate 1
  = Ok (if truncate
        then slice_to (embedded carrier payload num_lsb)
                      ((len payload * 8 + num_lsb - 1) / num_lsb)
        else embedded carrier payload num_lsb).
Proof.
  intros Hn Hcap. unfold Bravo.lsb_interleave_bytes.
  rewrite validate_inputs_ok by lia. cbn [bind Bravo.bit_strings Bravo.arg_len].
  rewrite payload_bits_bools, carrier_bits_units.
  destruct (outer_loop_units (payload_bools payload) (Z.to_nat num_lsb)
                             (map byte_bits carrier)) as [k' Hk'].
  { eapply Forall_impl; [|apply byte_units_width].
    cbn. intros u ->. lia. }
  rewrite Z2Nat.id in Hk' by lia. rewrite Hk'. cbn [bind].
  rewrite bytes_of_bit_strings_units
    by (apply embed_units_width; [lia | apply byte_units_width]).
  cbn [bind]. now destruct truncate.
Qed.

End BravoInterleave.

Section BravoDeinterleave.

Lemma extract_byte_from (u : list bool) (m : nat) :
  forall (j0 : nat) (acc : list ascii),
    (j0 + m <= length u)%nat ->
    Bravo.extract_byte (str_of_lsb u) (map Z.of_nat (seq j0 m)) acc
    = Ok (acc ++ map bit_char (firstn m (skipn j0 u))).
Proof.
  induction m as [|m IH]; intros j0 acc Hle.
  - cbn [seq map Bravo.extract_byte firstn]. now rewrite app_nil_r.
  - cbn [seq map Bravo.extract_byte].
    destruct (nth_error u j0) as [c|] eqn:Ec;
      [|apply nth_error_None in Ec; lia].
    unfold str_of_lsb at 1. rewrite map_rev.
    rewrite (getitem_from_end _ _ (bit_char c))
      by now rewrite nth_error_map, Ec.
    cbn [bind]. rewrite IH by lia.
    rewrite (skipn_cons_nth u j0 c Ec). cbn [firstn map].
    now rewrite <- app_assoc.
Qed.

Lemma extract_loop_bools (n : nat) (carrier : list byte) :
  (n <= 8)%nat ->
  forall acc,
    Bravo.extract_loop (Z.of_nat n) carrier acc
    = Ok (acc ++ map bit_char (extracted_bools n carrier)).
Proof.
  intros Hn. induction carrier as [|b rest IH]; intros acc.
  - cbn. now rewrite app_nil_r.
  - cbn [Bravo.extract_loop]. rewrite format_08b_bits, range_nat.
    rewrite extract_byte_from by (rewrite byte_bits_length; lia).
    cbn [bind skipn]. rewrite IH.
    unfold extracted_bools. cbn [flat_map]. rewrite map_app.
    now rewrite <- app_assoc.
Qed.

Lemma slice_to_nonneg {A} (l : list A) (b : Z) :
  0 <= b -> slice_to l b = firstn (Z.to_nat b) l.
Proof.
  intros Hb. unfold slice_to, clamp. zbool.
  destruct (Z.le_ge_cases b (len l)).
  - now rewrite Z.min_l.
  - rewrite Z.min_r by assumption. unfold len. rewrite Nat2Z.id.
    rewrite firstn_all. symmetry. apply firstn_all2. unfold len in *. lia.
Qed.

Lemma slice_chunk {A} (l : list A) (k : nat) :
  slice l (8 * Z.of_nat k) (8 * Z.of_nat k + 8) = firstn 8 (skipn (8 * k) l).
Proof.
  unfold slice, clamp. zbool.
  pose proof (len_nonneg l) as Hl. unfold len in *.
  destruct (Z.le_ge_cases (8 * Z.of_nat k) (Z.of_nat (length l))) as [H|H].
  - rewrite (Z.min_l (8 * Z.of_nat k)) by assumption.
    replace (Z.to_nat (8 * Z.of_nat k)) with (8 * k)%nat by lia.
    destruct (Z.le_ge_cases (8 * Z.of_nat k + 8) (Z.of_nat (length l))).
    + rewrite Z.min_l by assumption. f_equal. lia.
    + rewrite Z.min_r by assumption. rewrite Nat2Z.id.
      rewrite !firstn_all2; [reflexivity| |]; rewrite length_skipn; lia.
  - rewrite !Z.min_r by lia. rewrite Nat2Z.id, Nat.sub_diag.
    rewrite (skipn_all2 l (n := (8 * k)%nat)) by lia.
    now rewrite firstn_nil.
Qed.

Lemma range3_step8 (L : nat) :
  range3 0 (Z.of_nat L) 8
  = map (fun k => 8 * Z.of_nat k) (seq 0 ((L + 7) / 8)).
Proof.
  unfold range3. f_equal.
  replace (Z.of_nat L - 0 + 8 - 1) with (Z.of_nat (L + 7)) by lia.
  change 8 with (Z.of_nat 8). rewrite <- Nat2Z.inj_div.
  now rewrite Nat2Z.id.
Qed.

(** Line 65: the collected bits are cut into groups of eight. *)
Lemma bytes_of_bits_groups (B : list bool) :
  Bravo.bytes_of_bits (map bit_char B) = Ok (group_bytes B).
Proof.
  unfold Bravo.bytes_of_bits, group_bytes, len.
  rewrite length_map, range3_step8, mapM_map.
  apply mapM_pure. intros k Hk. apply in_seq in Hk.
  rewrite slice_chunk, skipn_map, firstn_map.
  set (g := firstn 8 (skipn (8 * k) B)).
  assert (Hg : (0 < length g <= 8)%nat).
  { subst g. rewrite length_firstn, length_skipn.
    assert (k < (length B + 7) / 8)%nat by lia.
    assert (8 * k < length B)%nat; [|lia].
    pose proof (Nat.div_mod_eq (length B + 7) 8).
    pose proof (Nat.mod_upper_bound (length B + 7) 8). lia. }
  replace (map bit_char g) with (str_of_lsb (rev g))
    by (unfold str_of_lsb; now rewrite rev_involutive).
  apply decode_unit.
  - intros E. assert (E' : length (rev g) = 0%nat) by now rewrite E.
    rewrite length_rev in E'. lia.
  - rewrite length_rev. lia.
Qed.

Lemma lsb_deinterleave_bytes_spec
        (carrier : list byte) (num_bits num_lsb byte_depth : Z) :
  0 <= num_lsb <= 8 -> 0 <= num_bits ->
  Bravo.lsb_deinterleave_bytes (Bravo.Bytes carrier) num_bits num_lsb byte_depth
  = Ok (group_bytes (firstn (Z.to_nat num_bits)
                            (extracted_bools (Z.to_nat num_lsb) carrier))).
Proof.
  intros Hn Hb. unfold Bravo.lsb_deinterleave_bytes.
  rewrite <- (Z2Nat.id num_lsb) at 1 by lia.
  rewrite extract_loop_bools by lia. cbn [bind app].
  rewrite slice_to_nonneg, firstn_map by assumption.
  apply bytes_of_bits_groups.
Qed.

End BravoDeinterleave.

Section BravoRoundTrip.

(** Reading the low [n] bits of the embedded units gives the bitstream
    back, followed by what the carrier held. *)
Lemma extract_embed_units (n : nat) (units : list (list bool)) :
  forall P : list bool,
    (length P <= n * length units)%nat ->
    firstn (length P) (flat_map (firstn n) (embed_units n units P)) = P.
Proof.
  induction units as [|u rest IH]; intros P HP.
  - cbn [length] in HP. destruct P; [reflexivity | cbn [length] in HP; lia].
  - destruct P as [|c P]; [reflexivity|].
    cbn [embed_units flat_map]. set (Q := c :: P) in *.
    cbn [length] in HP.
    destruct (Nat.le_gt_cases n (length Q)) as [Hle|Hgt].
    + assert (E1 : firstn n (firstn n Q ++ skipn (length (firstn n Q)) u)
                   = firstn n Q).
      { rewrite firstn_app, length_firstn, Nat.min_l by assumption.
        rewrite Nat.sub_diag, firstn_O, app_nil_r, firstn_firstn.
        now rewrite Nat.min_id. }
      rewrite E1, firstn_app, length_firstn, Nat.min_l by assumption.
      rewrite (firstn_all2 (n := length Q) (firstn n Q))
        by (rewrite length_firstn; lia).
      replace (length Q - n)%nat with (length (skipn n Q))
        by now rewrite length_skipn.
      rewrite IH by (rewrite length_skipn; lia).
      apply firstn_skipn.
    + rewrite (firstn_all2 (n := n) Q) by lia.
      rewrite (firstn_app n Q), (firstn_all2 (n := n) Q) by lia.
      rewrite <- app_assoc, firstn_app.
      now rewrite Nat.sub_diag, firstn_O, app_nil_r, firstn_all.
Qed.

Lemma firstn_embed_units (n r : nat) (units : list (list bool)) (P : list bool) :
  firstn r (embed_units n units P) = embed_units n (firstn r units) P.
Proof.
  revert r P. induction units as [|u rest IH]; intros r P.
  - now rewrite !firstn_nil.
  - destruct r as [|r]; [reflexivity|].
    destruct P as [|c P]; [reflexivity|].
    cbn [embed_units firstn]. now rewrite IH.
Qed.

Lemma extracted_bools_units (n : nat) (units : list (list bool)) :
  Forall (fun u => length u = 8%nat) units ->
  extracted_bools n (map unit_byte units) = flat_map (firstn n) units.
Proof.
  unfold extracted_bools. induction 1 as [|u rest Hu _ IH]; [reflexivity|].
  cbn [map flat_map]. now rewrite byte_bits_unit_byte, IH.
Qed.

Lemma group_bytes_cons (b : byte) (R : list bool) :
  group_bytes (rev (byte_bits b) ++ R) = b :: group_bytes R.
Proof.
  unfold group_bytes.
  assert (Hc : length (rev (byte_bits b)) = 8%nat)
    by now rewrite length_rev, byte_bits_length.
  rewrite length_app, Hc.
  replace ((8 + length R + 7) / 8)%nat with (S ((length R + 7) / 8)).
  2:{ replace (8 + length R + 7)%nat with (1 * 8 + (length R + 7))%nat by lia.
      rewrite Nat.div_add_l by lia. lia. }
  cbn [seq map]. f_equal.
  - rewrite Nat.mul_0_r. cbn [skipn].
    rewrite firstn_app, Hc, Nat.sub_diag, firstn_O, app_nil_r.
    rewrite firstn_all2 by lia.
    now rewrite rev_involutive, unit_byte_byte_bits.
  - rewrite <- seq_shift, map_map. apply map_ext. intros k.
    replace (8 * S k)%nat with (8 * k + 8)%nat by lia.
    rewrite <- skipn_skipn, (skipn_app 8), Hc, Nat.sub_diag.
    rewrite (skipn_all2 (n := 8) (rev (byte_bits b))) by lia.
    reflexivity.
Qed.

Lemma group_bytes_payload (payload : list byte) :
  group_bytes (payload_bools payload) = payload.
Proof.
  unfold payload_bools. induction payload as [|b rest IH]; [reflexivity|].
  cbn [map concat]. now rewrite group_bytes_cons, IH.
Qed.

(** Extraction from any run of units that received the whole
    bitstream. *)
Lemma deinterleave_embedded (units : list (list bool)) (payload : list byte)
      (num_lsb : Z) :
  1 <= num_lsb <= 7 ->
  Forall (fun u => length u = 8%nat) units ->
  len payload * 8 <= len units * num_lsb ->
  Bravo.lsb_deinterleave_bytes
    (Bravo.Bytes (map unit_byte
                      (embed_units (Z.to_nat num_lsb) units
                                   (payload_bools payload))))
    (len payload * 8) num_lsb 1
  = Ok payload.
Proof.
  intros Hn Hw Hcap.
  rewrite lsb_deinterleave_bytes_spec by (unfold len; lia).
  rewrite extracted_bools_units by (apply embed_units_width; [lia|assumption]).
  replace (Z.to_nat (len payload * 8)) with (length (payload_bools payload))
    by (rewrite payload_bools_length; unfold len; lia).
  rewrite extract_embed_units.
  - now rewrite group_bytes_payload.
  - rewrite payload_bools_length. unfold len in Hcap. nia.
Qed.

End BravoRoundTrip.

Section BravoUnits.

(** The [i]-th unit after embedding: chunk [i] of the bitstream in
    the low positions, the original bits above it. *)
Lemma embed_units_nth (n : nat) (units : list (list bool)) :
  forall (P : list bool) (i : nat),
    nth_error (embed_units n units P) i
    = option_map
        (fun u => firstn n (skipn (n * i) P)
                  ++ skipn (length (firstn n (skipn (n * i) P))) u)
        (nth_error units i).
Proof.
  induction units as [|u rest IH]; intros P i.
  - cbn [embed_units]. now rewrite !nth_error_nil.
  - destruct P as [|c P].
    + cbn [embed_units]. rewrite skipn_nil, firstn_nil. cbn [length skipn app].
      destruct (nth_error (u :: rest) i); reflexivity.
    + cbn [embed_units]. destruct i as [|i].
      * rewrite Nat.mul_0_r. reflexivity.
      * cbn [nth_error]. rewrite IH, skipn_skipn.
        now replace (n * i + n)%nat with (n * S i)%nat by lia.
Qed.

Lemma nth_error_embedded (carrier payload : list byte) (num_lsb : Z) (i : nat) :
  nth_error (embedded carrier payload num_lsb) i
  = option_map
      (fun c =>
         let chunk := firstn (Z.to_nat num_lsb)
                             (skipn (Z.to_nat num_lsb * i) (payload_bools payload)) in
         unit_byte (chunk ++ skipn (length chunk) (byte_bits c)))
      (nth_error carrier i).
Proof.
  unfold embedded. rewrite nth_error_map, embed_units_nth, nth_error_map.
  destruct (nth_error carrier i); reflexivity.
Qed.

Lemma embedded_length (carrier payload : list byte) (num_lsb : Z) :
  length (embedded carrier payload num_lsb) = length carrier.
Proof.
  unfold embedded. now rewrite length_map, embed_units_length, length_map.
Qed.

Lemma byte_bits_embedded_unit (n : nat) (chunk : list bool) (c : byte) :
  (length chunk <= n <= 8)%nat ->
  byte_bits (unit_byte (chunk ++ skipn (length chunk) (byte_bits c)))
  = chunk ++ skipn (length chunk) (byte_bits c).
Proof.
  intros H. apply byte_bits_unit_byte.
  rewrite length_app, length_skipn, byte_bits_length. lia.
Qed.

(** Bit [k] of the payload bitstream is bit [7 - k mod 8] of byte
    [k / 8]. *)
Lemma nth_payload_bools (payload : list byte) (k : nat) (b : byte) :
  nth_error payload (k / 8) = Some b ->
  nth k (payload_bools payload) false
  = Z.testbit (byte_val b) (Z.of_nat (7 - k mod 8)).
Proof.
  unfold payload_bools. revert k.
  induction payload as [|b0 rest IH]; intros k Hb.
  - now rewrite nth_error_nil in Hb.
  - cbn [map concat].
    pose proof (Nat.div_mod_eq k 8) as Hk.
    pose proof (Nat.mod_upper_bound k 8 ltac:(lia)) as Hm.
    destruct (Nat.lt_ge_cases k 8) as [Hlt|Hge].
    + rewrite Nat.div_small in Hb by assumption. cbn [nth_error] in Hb.
      injection Hb as ->.
      rewrite app_nth1 by (rewrite length_rev, byte_bits_length; lia).
      rewrite rev_nth by (rewrite byte_bits_length; lia).
      rewrite byte_bits_length, Nat.mod_small by assumption.
      rewrite testbit_byte_val. f_equal.
    + rewrite app_nth2 by (rewrite length_rev, byte_bits_length; lia).
      rewrite length_rev, byte_bits_length.
      assert (E : (k = (k - 8) + 1 * 8)%nat) by lia.
      rewrite E in Hb. rewrite Nat.div_add in Hb by lia.
      rewrite Nat.add_1_r in Hb. cbn [nth_error] in Hb.
      rewrite (IH _ Hb). do 3 f_equal.
      rewrite E at 2. now rewrite Nat.Div0.mod_add.
Qed.

End BravoUnits.

(* ===================================================================== *)
(** * The byte codec: round trip, failure, frame                         *)
(* ===================================================================== *)

Section BravoProperties.

Import Bravo.

Lemma Forall_firstn {A} (P : A -> Prop) (r : nat) (l : list A) :
  Forall P l -> Forall P (firstn r l).
Proof.
  intros H. rewrite <- (firstn_skipn r l) in H.
  now apply Forall_app in H.
Qed.

Lemma ceil_div_covers (bits n : Z) :
  0 <= bits -> 1 <= n -> bits <= (bits + n - 1) / n * n.
Proof.
  intros Hb Hn.
  pose proof (Z.div_mod (bits + n - 1) n ltac:(lia)).
  pose proof (Z.mod_pos_bound (bits + n - 1) n ltac:(lia)). nia.
Qed.

Lemma ceil_div_fits (bits units n : Z) :
  0 <= bits -> 1 <= n -> bits <= units * n -> (bits + n - 1) / n <= units.
Proof.
  intros Hb Hn Hcap.
  assert ((bits + n - 1) / n < units + 1); [|lia].
  apply Z.div_lt_upper_bound; nia.
Qed.

(** Extraction from the first [ceil(len(payload)*8 / num_lsb)] embedded
    units. *)
Lemma deinterleave_truncated (carrier payload : list byte) (num_lsb : Z) :
  1 <= num_lsb <= 7 ->
  len payload * 8 <= len carrier * num_lsb ->
  lsb_deinterleave_bytes
    (Bytes (firstn (Z.to_nat ((len payload * 8 + num_lsb - 1) / num_lsb))
                   (embedded carrier payload num_lsb)))
    (len payload * 8) num_lsb 1
  = Ok payload.
Proof.
  intros Hn Hcap. pose proof (len_nonneg payload) as Hp.
  unfold embedded. rewrite firstn_map, firstn_embed_units.
  set (r := Z.to_nat ((len payload * 8 + num_lsb - 1) / num_lsb)).
  apply deinterleave_embedded; [assumption| |].
  - apply Forall_firstn, byte_units_width.
  - pose proof (ceil_div_covers (len payload * 8) num_lsb ltac:(lia) ltac:(lia)).
    pose proof (ceil_div_fits (len payload * 8) (len carrier) num_lsb
                              ltac:(lia) ltac:(lia) Hcap).
    assert (0 <= (len payload * 8 + num_lsb - 1) / num_lsb)
      by (apply Z.div_pos; lia).
    unfold len at 2. rewrite length_firstn, length_map.
    unfold len in *. subst r. nia.
Qed.

(** C1 (round trip of the byte codec): for every byte carrier, every
    [num_lsb] in [1,7] and every payload with
    [len(payload)*8 <= len(carrier)*num_lsb], de-interleaving the
    interleaved carrier with the exact bit count gives the payload back;
    the final group may be partial, and the carrier may have been
    truncated or not. *)
Theorem lsb_round_trip
        (carrier payload : list byte) (num_lsb : Z) (truncate : bool) :
  1 <= num_lsb <= 7 ->
  len payload * 8 <= len carrier * num_lsb ->
  exists stego,
    lsb_interleave_bytes (Bytes carrier) (Bytes payload) num_lsb truncate 1
    = Ok stego
    /\ lsb_deinterleave_bytes (Bytes stego) (len payload * 8) num_lsb 1
       = Ok payload.
Proof.
  intros Hn Hcap. rewrite lsb_interleave_bytes_spec by assumption.
  eexists. split; [reflexivity|].
  pose proof (len_nonneg payload) as Hp.
  destruct truncate.
  - rewrite slice_to_nonneg by (apply Z.div_pos; lia).
    now apply deinterleave_truncated.
  - apply deinterleave_embedded; [assumption|apply byte_units_width|].
    unfold len at 2. rewrite length_map. exact Hcap.
Qed.

(** The round trip on three carrier bytes at [num_lsb = 3]: the eight
    payload bits end in a group of two. *)
Lemma lsb_round_trip_witness :
  exists stego,
    lsb_interleave_bytes (Bytes [xff; xff; xff]) (Bytes [xde]) 3 false 1
    = Ok stego
    /\ lsb_deinterleave_bytes (Bytes stego) (len [xde] * 8) 3 1 = Ok [xde].
Proof.
  apply (lsb_round_trip [xff; xff; xff] [xde] 3 false); [lia|].
  vm_compute. discriminate.
Defined.

Lemma validate_inputs_cases (carrier payload : list byte) (num_lsb : Z) :
  validate_inputs (Bytes carrier) (Bytes payload) num_lsb 1
  = if (num_lsb <? 1) || (7 <? num_lsb)
    then Raise (ValueError "num_lsb must be between 1 and 7.")
    else if len carrier * num_lsb <? len payload * 8
    then Raise (ValueError "Payload is too large to be hidden in the carrier.")
    else Ok tt.
Proof.
  unfold validate_inputs. cbn [isinstance_bytes negb arg_len].
  now rewrite Z.mul_1_r.
Qed.

(** C2 (when embedding fails): with byte-typed inputs and
    [byte_depth = 1], [lsb_interleave_bytes] raises if and only if
    [num_lsb] is outside [1,7] or [len(payload)*8 > len(carrier)*num_lsb];
    a payload of exactly the capacity embeds, and a larger one fails in
    [validate_inputs], before the embedding loop, with the capacity
    error. *)
Theorem lsb_interleave_bytes_raises_iff
        (carrier payload : list byte) (num_lsb : Z) (truncate : bool) :
  ((exists e, lsb_interleave_bytes (Bytes carrier) (Bytes payload)
                                   num_lsb truncate 1 = Raise e)
   <-> (num_lsb < 1 \/ 7 < num_lsb
        \/ len payload * 8 > len carrier * num_lsb))
  /\ (1 <= num_lsb <= 7 -> len payload * 8 = len carrier * num_lsb ->
      exists stego, lsb_interleave_bytes (Bytes carrier) (Bytes payload)
                                         num_lsb truncate 1 = Ok stego)
  /\ (1 <= num_lsb <= 7 -> len payload * 8 > len carrier * num_lsb ->
      validate_inputs (Bytes carrier) (Bytes payload) num_lsb 1
      = Raise (ValueError "Payload is too large to be hidden in the carrier.")
      /\ lsb_interleave_bytes (Bytes carrier) (Bytes payload)
                              num_lsb truncate 1
         = Raise (ValueError "Payload is too large to be hidden in the carrier.")).
Proof.
  split; [split|split].
  - intros [e He].
    destruct (Z_lt_dec num_lsb 1); [now left|].
    destruct (Z_lt_dec 7 num_lsb); [now right; left|].
    destruct (Z_gt_dec (len payload * 8) (len carrier * num_lsb));
      [now right; right|].
    rewrite lsb_interleave_bytes_spec in He by lia. discriminate.
  - intros H. unfold lsb_interleave_bytes. rewrite validate_inputs_cases.
    destruct H as [H|[H|H]].
    + zbool. cbn [orb bind]. eauto.
    + zbool. rewrite orb_true_r. cbn [bind]. eauto.
    + destruct ((num_lsb <? 1) || (7 <? num_lsb)); [cbn [bind]; eauto|].
      zbool. cbn [bind]. eauto.
  - intros Hn Hcap. rewrite lsb_interleave_bytes_spec by lia. eauto.
  - intros Hn Hcap. unfold lsb_interleave_bytes.
    rewrite validate_inputs_cases. zbool. cbn [orb bind]. now split.
Qed.

(** The carrier of [test_bravo.py], sixteen bytes at [num_lsb = 2]:
    four payload bytes fill it, five are refused. *)
Lemma lsb_interleave_bytes_raises_iff_witness :
  (exists stego,
      lsb_interleave_bytes (Bytes (repeat xff 16)) (Bytes (repeat xaa 4))
                           2 false 1 = Ok stego)
  /\ lsb_interleave_bytes (Bytes (repeat xff 16)) (Bytes (repeat xaa 5))
                          2 false 1
     = Raise (ValueError "Payload is too large to be hidden in the carrier.").
Proof.
  split.
  - apply (lsb_interleave_bytes_raises_iff (repeat xff 16) (repeat xaa 4)
                                           2 false); [lia | reflexivity].
  - apply (lsb_interleave_bytes_raises_iff (repeat xff 16) (repeat xaa 5)
                                           2 false); [lia | reflexivity].
Defined.

Lemma nth_above_chunk {A} (chunk u : list A) (j : nat) (d : A) :
  (length chunk <= j)%nat ->
  nth j (chunk ++ skipn (length chunk) u) d = nth j u d.
Proof.
  intros Hj. rewrite app_nth2 by assumption.
  destruct (Nat.le_gt_cases (length chunk) (length u)) as [Hle|Hgt].
  - rewrite <- (firstn_skipn (length chunk) u) at 2.
    rewrite app_nth2; rewrite length_firstn, Nat.min_l by assumption;
      [reflexivity | assumption].
  - rewrite skipn_all2 by lia. rewrite (nth_overflow u) by lia.
    now destruct (j - length chunk)%nat.
Qed.

Lemma embedded_nil (carrier : list byte) (num_lsb : Z) :
  embedded carrier [] num_lsb = carrier.
Proof.
  unfold embedded, payload_bools. cbn [map concat].
  rewrite embed_units_nil, map_map.
  rewrite (map_ext _ (fun b => b)) by apply unit_byte_byte_bits.
  apply map_id.
Qed.

(** C9 (frame of the embedding): with [truncate = False] the result has
    as many units as the carrier; every unit at an index of at least
    [ceil(len(payload)*8 / num_lsb)] is the original unit; every unit
    agrees with the original on all bits above the lowest [num_lsb]; and
    an empty payload gives the carrier back unchanged. *)
Theorem lsb_interleave_bytes_frame
        (carrier payload : list byte) (num_lsb : Z) :
  1 <= num_lsb <= 7 ->
  len payload * 8 <= len carrier * num_lsb ->
  exists stego,
    lsb_interleave_bytes (Bytes carrier) (Bytes payload) num_lsb false 1
    = Ok stego
    /\ len stego = len carrier
    /\ (forall i : nat,
          (len payload * 8 + num_lsb - 1) / num_lsb <= Z.of_nat i ->
          nth_error stego i = nth_error carrier i)
    /\ (forall (i : nat) (s c : byte),
          nth_error stego i = Some s -> nth_error carrier i = Some c ->
          forall j, num_lsb <= j ->
                    Z.testbit (byte_val s) j = Z.testbit (byte_val c) j)
    /\ (payload = [] -> stego = carrier).
Proof.
  intros Hn Hcap. rewrite lsb_interleave_bytes_spec by assumption.
  eexists. split; [reflexivity|].
  pose proof (len_nonneg payload) as Hp.
  split; [|split; [|split]].
  - unfold len. now rewrite embedded_length.
  - intros i Hi. rewrite nth_error_embedded.
    destruct (nth_error carrier i) as [c|]; [|reflexivity].
    cbn [option_map]. rewrite skipn_all2.
    + rewrite firstn_nil. cbn [length skipn app].
      now rewrite unit_byte_byte_bits.
    + rewrite payload_bools_length.
      pose proof (ceil_div_covers (len payload * 8) num_lsb ltac:(lia) ltac:(lia)).
      unfold len in *. nia.
  - intros i s c Hs Hc j Hj.
    rewrite nth_error_embedded, Hc in Hs. cbn [option_map] in Hs.
    injection Hs as <-.
    set (chunk := firstn (Z.to_nat num_lsb)
                         (skipn (Z.to_nat num_lsb * i) (payload_bools payload))).
    assert (Hk : (length chunk <= Z.to_nat num_lsb)%nat)
      by (subst chunk; rewrite length_firstn; lia).
    rewrite <- (Z2Nat.id j) by lia.
    rewrite !testbit_byte_val.
    rewrite (byte_bits_embedded_unit (Z.to_nat num_lsb)) by lia.
    apply nth_above_chunk. lia.
  - intros ->. apply embedded_nil.
Qed.

(** The frame on four carrier bytes at [num_lsb = 3]: three units
    receive bits, the fourth is kept. *)
Lemma lsb_interleave_bytes_frame_witness :
  exists stego,
    lsb_interleave_bytes (Bytes [xff; xff; xff; xff]) (Bytes [xde]) 3 false 1
    = Ok stego
    /\ len stego = len [xff; xff; xff; xff]
    /\ (forall i : nat,
          (len [xde] * 8 + 3 - 1) / 3 <= Z.of_nat i ->
          nth_error stego i = nth_error [xff; xff; xff; xff] i)
    /\ (forall (i : nat) (s c : byte),
          nth_error stego i = Some s ->
          nth_error [xff; xff; xff; xff] i = Some c ->
          forall j, 3 <= j ->
                    Z.testbit (byte_val s) j = Z.testbit (byte_val c) j)
    /\ ([xde] = [] -> stego = [xff; xff; xff; xff]).
Proof.
  apply (lsb_interleave_bytes_frame [xff; xff; xff; xff] [xde] 3); [lia|].
  vm_compute. discriminate.
Defined.

End BravoProperties.

(* ===================================================================== *)
(** * The second copy of the byte codec                                  *)
(* ===================================================================== *)

Section LegacyLoops.

Lemma legacy_extract_byte_from (num_bits : Z) (u : list bool) (m : nat) :
  forall (j0 : nat) (acc : list ascii),
    (j0 + m <= length u)%nat ->
    len acc + Z.of_nat m <= num_bits ->
    BravoLegacy.extract_byte num_bits (str_of_lsb u)
                             (map Z.of_nat (seq j0 m)) acc
    = Ok (acc ++ map bit_char (firstn m (skipn j0 u))).
Proof.
  induction m as [|m IH]; intros j0 acc Hle Hbits.
  - cbn [seq map BravoLegacy.extract_byte firstn]. now rewrite app_nil_r.
  - cbn [seq map BravoLegacy.extract_byte]. zbool.
    destruct (nth_error u j0) as [c|] eqn:Ec;
      [|apply nth_error_None in Ec; lia].
    unfold str_of_lsb at 1. rewrite map_rev.
    rewrite (getitem_from_end _ _ (bit_char c))
      by now rewrite nth_error_map, Ec.
    cbn [bind]. rewrite IH.
    + rewrite (skipn_cons_nth u j0 c Ec). cbn [firstn map].
      now rewrite <- app_assoc.
    + lia.
    + rewrite len_app. unfold len at 2. cbn [length]. lia.
Qed.

Lemma legacy_extract_loop_from (num_bits : Z) (n : nat)
      (rest : list (list bool)) :
  forall (pre : list (list bool)) (acc : list ascii),
    Forall (fun u => (n <= length u)%nat) rest ->
    len acc + Z.of_nat (n * length rest) <= num_bits ->
    BravoLegacy.extract_loop num_bits (Z.of_nat n)
                             (map str_of_lsb (pre ++ rest))
                             (map Z.of_nat (seq (length pre) (length rest)))
                             acc
    = Ok (acc ++ map bit_char (flat_map (firstn n) rest)).
Proof.
  induction rest as [|u rest IH]; intros pre acc Hall Hbits.
  - cbn. now rewrite app_nil_r.
  - inversion Hall as [|? ? Hu Hrest]; subst.
    cbn [length seq map BravoLegacy.extract_loop]. cbn [length] in Hbits.
    rewrite map_app. cbn [map].
    replace (Z.of_nat (length pre)) with (len (map str_of_lsb pre))
      by (unfold len; now rewrite length_map).
    rewrite getitem_app_mid_aux. cbn [bind]. rewrite range_nat.
    rewrite legacy_extract_byte_from by lia.
    cbn [bind skipn].
    specialize (IH (pre ++ [u]) (acc ++ map bit_char (firstn n u)) Hrest).
    rewrite length_app, <- app_assoc, map_app in IH.
    cbn [length app map] in IH. rewrite Nat.add_1_r in IH.
    rewrite IH.
    + cbn [flat_map]. now rewrite map_app, <- app_assoc.
    + rewrite len_app. unfold len at 2.
      rewrite length_map, length_firstn. lia.
Qed.

Lemma flat_map_byte_bits (n : nat) (carrier : list byte) :
  flat_map (firstn n) (map byte_bits carrier) = extracted_bools n carrier.
Proof.
  unfold extracted_bools. induction carrier as [|b rest IH]; [reflexivity|].
  cbn [map flat_map]. now rewrite IH.
Qed.

Lemma extracted_bools_length (n : nat) (carrier : list byte) :
  (n <= 8)%nat -> length (extracted_bools n carrier) = (n * length carrier)%nat.
Proof.
  intros Hn. unfold extracted_bools.
  induction carrier as [|b rest IH]; [cbn; lia|].
  cbn [flat_map length].
  rewrite length_app, length_firstn, byte_bits_length, IH. lia.
Qed.

Lemma legacy_deinterleave_all (carrier : list byte) (num_bits num_lsb : Z) :
  0 <= num_lsb <= 8 ->
  len carrier * num_lsb <= num_bits ->
  BravoLegacy.lsb_deinterleave_bytes (Bravo.Bytes carrier) num_bits num_lsb
  = Ok (group_bytes (extracted_bools (Z.to_nat num_lsb) carrier)).
Proof.
  intros Hn Hbits. unfold BravoLegacy.lsb_deinterleave_bytes.
  cbn [Bravo.bit_strings bind]. rewrite carrier_bits_units, range_len.
  replace (BravoLegacy.extract_loop num_bits num_lsb)
    with (BravoLegacy.extract_loop num_bits (Z.of_nat (Z.to_nat num_lsb)))
    by (now rewrite Z2Nat.id by lia).
  pose proof (legacy_extract_loop_from
                num_bits (Z.to_nat num_lsb) (map byte_bits carrier) [] []) as E.
  cbn [length app] in E. rewrite !length_map. rewrite length_map in E.
  rewrite E.
  - cbn [bind app BravoLegacy.try_except].
    rewrite flat_map_byte_bits.
    rewrite slice_to_nonneg by (unfold len in *; nia).
    rewrite firstn_all2.
    + now rewrite bytes_of_bits_groups.
    + rewrite length_map, extracted_bools_length by lia.
      unfold len in *. nia.
  - eapply Forall_impl; [|apply byte_units_width]. cbn. intros u ->. lia.
  - change (len []) with 0. unfold len in *. lia.
Qed.

End LegacyLoops.

(* ===================================================================== *)
(** * Extraction past the end, truncation, bit order                     *)
(* ===================================================================== *)

Section BravoEdges.

Import Bravo.

Lemma group_bytes_length (B : list bool) :
  len (group_bytes B) = (len B + 7) / 8.
Proof.
  unfold group_bytes, len. rewrite length_map, length_seq.
  rewrite Nat2Z.inj_div. f_equal. lia.
Qed.

(** C4 (extraction past the end), as the code has it: when [num_bits]
    exceeds the [len(carrier)*num_lsb] bits the carrier holds, neither
    copy of [lsb_deinterleave_bytes] raises; both return the
    [ceil(len(carrier)*num_lsb / 8)] bytes assembled from all the bits
    there are, the same bytes a request for exactly the capacity
    returns. *)
Theorem lsb_deinterleave_bytes_overrun
        (carrier : list byte) (num_bits num_lsb : Z) :
  1 <= num_lsb <= 7 ->
  len carrier * num_lsb < num_bits ->
  exists payload,
    lsb_deinterleave_bytes (Bytes carrier) num_bits num_lsb 1 = Ok payload
    /\ BravoLegacy.lsb_deinterleave_bytes (Bytes carrier) num_bits num_lsb
       = Ok payload
    /\ lsb_deinterleave_bytes (Bytes carrier) (len carrier * num_lsb) num_lsb 1
       = Ok payload
    /\ len payload = (len carrier * num_lsb + 7) / 8.
Proof.
  intros Hn Hbits. pose proof (len_nonneg carrier) as Hc.
  assert (HL : length (extracted_bools (Z.to_nat num_lsb) carrier)
               = Z.to_nat (len carrier * num_lsb))
    by (rewrite extracted_bools_length by lia; unfold len; nia).
  exists (group_bytes (extracted_bools (Z.to_nat num_lsb) carrier)).
  split; [|split; [|split]].
  - rewrite lsb_deinterleave_bytes_spec by nia.
    now rewrite firstn_all2 by lia.
  - apply legacy_deinterleave_all; lia.
  - rewrite lsb_deinterleave_bytes_spec by nia.
    now rewrite firstn_all2 by lia.
  - rewrite group_bytes_length. unfold len at 1. rewrite HL.
    rewrite Z2Nat.id by nia. reflexivity.
Qed.

(** Three carrier bytes at [num_lsb = 3]: nine bits are there, a hundred
    are requested, two bytes come back. *)
Lemma lsb_deinterleave_bytes_overrun_witness :
  exists payload,
    lsb_deinterleave_bytes (Bytes [xff; x00; xff]) 100 3 1 = Ok payload
    /\ BravoLegacy.lsb_deinterleave_bytes (Bytes [xff; x00; xff]) 100 3
       = Ok payload
    /\ lsb_deinterleave_bytes (Bytes [xff; x00; xff])
                              (len [xff; x00; xff] * 3) 3 1
       = Ok payload
    /\ len payload = (len [xff; x00; xff] * 3 + 7) / 8.
Proof.
  apply (lsb_deinterleave_bytes_overrun [xff; x00; xff] 100 3); [lia|].
  vm_compute. reflexivity.
Defined.

(** No failure past the end: one carrier byte at [num_lsb = 1] holds one
    bit, sixteen are requested, and the call returns a byte. *)
Lemma lsb_deinterleave_bytes_overrun_counterexample :
  1 <= 1 <= 7 /\ len [xff] * 1 < 16
  /\ lsb_deinterleave_bytes (Bytes [xff]) 16 1 1 = Ok [x01]
  /\ ~ (exists e, lsb_deinterleave_bytes (Bytes [xff]) 16 1 1 = Raise e).
Proof.
  split; [lia|]. split; [vm_compute; reflexivity|].
  split; [vm_compute; reflexivity|].
  intros [e He]. vm_compute in He. discriminate.
Qed.

(** The truncated result of [bravo_module.py]: the first
    [ceil(len(payload)*8 / num_lsb)] units of the full result, from which
    the payload is recovered. *)
Lemma lsb_interleave_bytes_truncate
      (carrier payload : list byte) (num_lsb : Z) :
  1 <= num_lsb <= 7 ->
  len payload * 8 <= len carrier * num_lsb ->
  let required_length := (len payload * 8 + num_lsb - 1) / num_lsb in
  exists full,
    lsb_interleave_bytes (Bytes carrier) (Bytes payload) num_lsb false 1
    = Ok full
    /\ lsb_interleave_bytes (Bytes carrier) (Bytes payload) num_lsb true 1
       = Ok (firstn (Z.to_nat required_length) full)
    /\ len (firstn (Z.to_nat required_length) full) = required_length
    /\ lsb_deinterleave_bytes (Bytes (firstn (Z.to_nat required_length) full))
                              (len payload * 8) num_lsb 1
       = Ok payload.
Proof.
  intros Hn Hcap req. pose proof (len_nonneg payload) as Hp.
  assert (Hreq : 0 <= req) by (apply Z.div_pos; lia).
  exists (embedded carrier payload num_lsb).
  split; [now apply lsb_interleave_bytes_spec|].
  assert (Ht : lsb_interleave_bytes (Bytes carrier) (Bytes payload) num_lsb true 1
               = Ok (firstn (Z.to_nat req) (embedded carrier payload num_lsb))).
  { rewrite lsb_interleave_bytes_spec by assumption.
    now rewrite slice_to_nonneg. }
  split; [exact Ht|]. split.
  - unfold len at 1. rewrite length_firstn, embedded_length.
    pose proof (ceil_div_fits (len payload * 8) (len carrier) num_lsb
                              ltac:(lia) ltac:(lia) Hcap).
    unfold len in *. subst req. lia.
  - now apply deinterleave_truncated.
Qed.

(** C10 (truncate mode): [bravo_module.py] keeps the first
    [ceil(len(payload)*8 / num_lsb)] units, from which the payload is
    recovered; [Image Steganography/Bravo.py] keeps
    [floor(len(payload)*8 / num_lsb)] units: for a one-byte payload at
    [num_lsb = 3] it returns two of the three units written, and the
    payload is not recovered from them. *)
Theorem truncate_required_length :
  (forall (carrier payload : list byte) (num_lsb : Z),
      1 <= num_lsb <= 7 ->
      len payload * 8 <= len carrier * num_lsb ->
      exists full,
        lsb_interleave_bytes (Bytes carrier) (Bytes payload) num_lsb false 1
        = Ok full
        /\ lsb_interleave_bytes (Bytes carrier) (Bytes payload) num_lsb true 1
           = Ok (firstn (Z.to_nat ((len payload * 8 + num_lsb - 1) / num_lsb))
                        full)
        /\ len (firstn (Z.to_nat ((len payload * 8 + num_lsb - 1) / num_lsb))
                       full)
           = (len payload * 8 + num_lsb - 1) / num_lsb
        /\ lsb_deinterleave_bytes
             (Bytes (firstn (Z.to_nat ((len payload * 8 + num_lsb - 1) / num_lsb))
                            full))
             (len payload * 8) num_lsb 1
           = Ok payload)
  /\ (len [xde] * 8 + 3 - 1) / 3 = 3
  /\ BravoLegacy.lsb_interleave_bytes (Bytes [xff; xff; xff]) (Bytes [xde])
                                      3 false
     = Ok [xfb; xff; xfd]
  /\ BravoLegacy.lsb_interleave_bytes (Bytes [xff; xff; xff]) (Bytes [xde])
                                      3 true
     = Ok [xfb; xff]
  /\ BravoLegacy.lsb_deinterleave_bytes (Bytes [xfb; xff]) (len [xde] * 8) 3
     = Ok [x37].
Proof.
  split; [intros; now apply lsb_interleave_bytes_truncate|].
  repeat split; vm_compute; reflexivity.
Qed.

(** Truncation in [bravo_module.py], at the input on which the second
    copy loses the payload. *)
Lemma truncate_required_length_witness :
  exists full,
    lsb_interleave_bytes (Bytes [xff; xff; xff]) (Bytes [xde]) 3 false 1
    = Ok full
    /\ lsb_interleave_bytes (Bytes [xff; xff; xff]) (Bytes [xde]) 3 true 1
       = Ok (firstn (Z.to_nat ((len [xde] * 8 + 3 - 1) / 3)) full)
    /\ len (firstn (Z.to_nat ((len [xde] * 8 + 3 - 1) / 3)) full)
       = (len [xde] * 8 + 3 - 1) / 3
    /\ lsb_deinterleave_bytes
         (Bytes (firstn (Z.to_nat ((len [xde] * 8 + 3 - 1) / 3)) full))
         (len [xde] * 8) 3 1
       = Ok [xde].
Proof.
  apply (proj1 truncate_required_length [xff; xff; xff] [xde] 3); [lia|].
  vm_compute. discriminate.
Defined.

End BravoEdges.

Section BitOrder.

Import Bravo.

Lemma set_lsbs_bits (byte_value bit_value num_bits : Z) :
  0 <= num_bits ->
  exists r,
    Lemma.set_lsbs byte_value bit_value num_bits = Ok r
    /\ forall j, 0 <= j ->
                 Z.testbit r j
                 = if j <? num_bits then Z.testbit bit_value j
                   else Z.testbit byte_value j.
Proof.
  intros Hn. unfold Lemma.set_lsbs, lshift1. zbool. cbn [bind].
  eexists. split; [reflexivity|]. intros j Hj.
  rewrite Z.sub_1_r. change (Z.pred (Z.shiftl 1 num_bits)) with (Z.ones num_bits).
  rewrite Z.lor_spec, !Z.land_spec, Z.lnot_spec by assumption.
  rewrite Z.testbit_ones_nonneg by assumption.
  destruct (j <? num_bits); cbn [negb];
    now rewrite ?andb_true_r, ?andb_false_r, ?orb_false_r, ?orb_false_l.
Qed.

Lemma extract_lsbs_bits (byte_value num_bits : Z) :
  0 <= num_bits ->
  Lemma.extract_lsbs byte_value num_bits = Ok (byte_value mod 2 ^ num_bits).
Proof.
  intros Hn. unfold Lemma.extract_lsbs, lshift1. zbool. cbn [bind].
  rewrite Z.sub_1_r. change (Z.pred (Z.shiftl 1 num_bits)) with (Z.ones num_bits).
  now rewrite Z.land_ones.
Qed.

(** C8 (bit order inside a unit), as the code has it.  In
    [Bravo.lsb_interleave_bytes] the [j]-th bit taken for unit [i], bit
    [num_lsb*i + j] of the most-significant-first bitstream, is written
    to bit position [j]: the first bit of a chunk lands in the lowest
    position, and a position that receives no bit keeps its value.  In
    [Lemma.set_lsbs] applied to [int(segment, 2)], a segment of exactly
    [num_bits] bits is written with its first bit in the highest of the
    low [num_bits] positions, the bits above them kept. *)
Theorem chunk_bit_placement :
  (forall (carrier payload : list byte) (num_lsb : Z),
      1 <= num_lsb <= 7 ->
      len payload * 8 <= len carrier * num_lsb ->
      exists stego,
        lsb_interleave_bytes (Bytes carrier) (Bytes payload) num_lsb false 1
        = Ok stego
        /\ (forall (i j : nat) (s p : byte),
               Z.of_nat j < num_lsb ->
               nth_error stego i = Some s ->
               nth_error payload ((Z.to_nat num_lsb * i + j) / 8) = Some p ->
               Z.testbit (byte_val s) (Z.of_nat j)
               = Z.testbit (byte_val p)
                           (Z.of_nat (7 - (Z.to_nat num_lsb * i + j) mod 8)))
        /\ (forall (i j : nat) (s c : byte),
               nth_error stego i = Some s ->
               nth_error carrier i = Some c ->
               len payload * 8 <= num_lsb * Z.of_nat i + Z.of_nat j ->
               Z.testbit (byte_val s) (Z.of_nat j)
               = Z.testbit (byte_val c) (Z.of_nat j)))
  /\ (forall (byte_value : Z) (segment : list bool),
         segment <> [] ->
         exists bit_value r,
           int2 (map bit_char segment) = Ok bit_value
           /\ Lemma.set_lsbs byte_value bit_value (len segment) = Ok r
           /\ (forall j : nat,
                  (j < length segment)%nat ->
                  Z.testbit r (len segment - 1 - Z.of_nat j)
                  = nth j segment false)
           /\ (forall b, len segment <= b ->
                         Z.testbit r b = Z.testbit byte_value b)).
Proof.
  split.
  - intros carrier payload num_lsb Hn Hcap.
    rewrite lsb_interleave_bytes_spec by assumption.
    eexists. split; [reflexivity|]. split.
    2:{ intros i j s c Hs Hc Hbeyond.
        rewrite nth_error_embedded, Hc in Hs. cbn [option_map] in Hs.
        injection Hs as <-.
        set (chunk := firstn (Z.to_nat num_lsb)
                             (skipn (Z.to_nat num_lsb * i)
                                    (payload_bools payload))).
        assert (Hk : (length chunk <= Z.to_nat num_lsb)%nat
                     /\ (length chunk <= j)%nat).
        { subst chunk.
          rewrite length_firstn, length_skipn, payload_bools_length.
          unfold len in Hbeyond. split; [lia | nia]. }
        rewrite !testbit_byte_val.
        rewrite (byte_bits_embedded_unit (Z.to_nat num_lsb)) by lia.
        apply nth_above_chunk. lia. }
    intros i j s p Hj Hs Hp.
    set (n := Z.to_nat num_lsb) in *.
    assert (Hk : (n * i + j < length (payload_bools payload))%nat).
    { rewrite payload_bools_length.
      assert ((n * i + j) / 8 < length payload)%nat
        by (apply nth_error_Some; congruence).
      pose proof (Nat.div_mod_eq (n * i + j) 8).
      pose proof (Nat.mod_upper_bound (n * i + j) 8). lia. }
    rewrite nth_error_embedded in Hs. fold n in Hs.
    destruct (nth_error carrier i) as [c|]; [|discriminate].
    cbn [option_map] in Hs. injection Hs as <-.
    set (chunk := firstn n (skipn (n * i) (payload_bools payload))).
    assert (Hc : (j < length chunk <= n)%nat).
    { subst chunk. rewrite length_firstn, length_skipn. lia. }
    rewrite testbit_byte_val, (byte_bits_embedded_unit n) by lia.
    rewrite app_nth1 by lia. subst chunk.
    rewrite nth_firstn.
    destruct (Nat.ltb_spec j n); [|lia].
    rewrite nth_skipn. now apply nth_payload_bools.
  - intros byte_value segment Hne.
    assert (Hrev : rev segment <> []).
    { intros E. apply (f_equal (@rev bool)) in E.
      now rewrite rev_involutive in E. }
    destruct (set_lsbs_bits byte_value (lsb_val (rev segment)) (len segment)
                            (len_nonneg _)) as (r & Hr & Hbits).
    exists (lsb_val (rev segment)), r. split; [|split; [exact Hr|split]].
    + rewrite <- (rev_involutive segment) at 1.
      now apply (int2_str_of_lsb (rev segment)).
    + intros j Hj. rewrite Hbits by (unfold len; lia).
      unfold len. zbool.
      replace (Z.of_nat (length segment) - 1 - Z.of_nat j)
        with (Z.of_nat (length segment - 1 - j)) by lia.
      rewrite testbit_lsb_val, rev_nth by lia.
      f_equal. lia.
    + intros b Hb. pose proof (len_nonneg segment).
      rewrite Hbits by lia. now zbool.
Qed.

(** The bit order at payload [0x80] and [num_lsb = 2] for the byte
    codec, and at the segment [10] for [set_lsbs]. *)
Lemma chunk_bit_placement_witness :
  (exists stego,
      lsb_interleave_bytes (Bytes [x00; x00; x00; x00]) (Bytes [x80]) 2 false 1
      = Ok stego
      /\ (forall (i j : nat) (s p : byte),
             Z.of_nat j < 2 ->
             nth_error stego i = Some s ->
             nth_error [x80] ((Z.to_nat 2 * i + j) / 8) = Some p ->
             Z.testbit (byte_val s) (Z.of_nat j)
             = Z.testbit (byte_val p)
                         (Z.of_nat (7 - (Z.to_nat 2 * i + j) mod 8)))
      /\ (forall (i j : nat) (s c : byte),
             nth_error stego i = Some s ->
             nth_error [x00; x00; x00; x00] i = Some c ->
             len [x80] * 8 <= 2 * Z.of_nat i + Z.of_nat j ->
             Z.testbit (byte_val s) (Z.of_nat j)
             = Z.testbit (byte_val c) (Z.of_nat j)))
  /\ (exists bit_value r,
         int2 (map bit_char [true; false]) = Ok bit_value
         /\ Lemma.set_lsbs 255 bit_value (len [true; false]) = Ok r
         /\ (forall j : nat,
                (j < length [true; false])%nat ->
                Z.testbit r (len [true; false] - 1 - Z.of_nat j)
                = nth j [true; false] false)
         /\ (forall b, len [true; false] <= b ->
                       Z.testbit r b = Z.testbit 255 b)).
Proof.
  split.
  - apply (proj1 chunk_bit_placement [x00; x00; x00; x00] [x80] 2); [lia|].
    vm_compute. discriminate.
  - apply (proj2 chunk_bit_placement 255 [true; false]). discriminate.
Defined.

(** Most significant bit highest fails on [Bravo.lsb_interleave_bytes]:
    the chunk [10] of payload [0x80] at [num_lsb = 2] turns unit [0x00]
    into [0x01], first bit lowest, where the wording asks for [0x02]. *)
Lemma chunk_msb_highest_counterexample :
  lsb_interleave_bytes (Bytes [x00; x00; x00; x00]) (Bytes [x80]) 2 false 1
  = Ok [x01; x00; x00; x00]
  /\ ~ chunk_msb_highest [x80] [x01; x00; x00; x00] 2.
Proof.
  split; [vm_compute; reflexivity|].
  intros H. specialize (H 0%nat 0%nat x01 x80).
  assert (E : Z.testbit (byte_val x01) (2 - 1 - Z.of_nat 0)
              = Z.testbit (byte_val x80)
                          (Z.of_nat (7 - (Z.to_nat 2 * 0 + 0) mod 8)))
    by (apply H; [vm_compute; reflexivity | reflexivity | reflexivity]).
  vm_compute in E. discriminate.
Qed.

End BitOrder.

(* ===================================================================== *)
(** * RS analysis                                                        *)
(* ===================================================================== *)

Section RSAnalysis.

Import Sierra.

Lemma lxor_1_neq (v : Z) : (v =? Z.lxor v 1) = false.
Proof.
  apply Z.eqb_neq. intros E.
  assert (H : Z.lxor v v = Z.lxor v (Z.lxor v 1)) by congruence.
  rewrite Z.lxor_nilpotent, <- Z.lxor_assoc, Z.lxor_nilpotent, Z.lxor_0_l in H.
  discriminate.
Qed.

Lemma flatten_flipping_mask (block : ndarray) (mask : Z) :
  flatten (flipping_mask block mask)
  = map (fun v => Z.lxor v mask) (flatten block).
Proof.
  unfold flatten, flipping_mask. now rewrite !concat_map.
Qed.

Lemma combine_map_r {A B} (f : A -> B) (l : list A) :
  combine l (map f l) = map (fun a => (a, f a)) l.
Proof. induction l as [|a t IH]; cbn; [reflexivity | now rewrite IH]. Qed.

Lemma filter_none {A} (p : A -> bool) (l : list A) :
  (forall a, p a = false) -> filter p l = [].
Proof.
  intros H. induction l as [|a t IH]; cbn; [reflexivity|]. now rewrite H.
Qed.

Lemma filter_all {A} (p : A -> bool) (l : list A) :
  (forall a, p a = true) -> filter p l = l.
Proof.
  intros H. induction l as [|a t IH]; cbn; [reflexivity|].
  now rewrite H, IH.
Qed.

(** Lines 96-98: no element equals its flip, every element differs. *)
Lemma count_eq_flip (block : ndarray) :
  count_if Z.eqb block (flipping_mask block 1) = 0.
Proof.
  unfold count_if. rewrite flatten_flipping_mask, combine_map_r, filter_map_swap.
  rewrite filter_none; [reflexivity|]. intros v. apply lxor_1_neq.
Qed.

Lemma count_ne_flip (block : ndarray) :
  count_if (fun a b => negb (a =? b)) block (flipping_mask block 1)
  = len (flatten block).
Proof.
  unfold count_if. rewrite flatten_flipping_mask, combine_map_r, filter_map_swap.
  rewrite filter_all; [now rewrite len_map|].
  intros v. cbn. now rewrite lxor_1_neq.
Qed.

Lemma rs_step_counts (pixels : ndarray) (x y r s : Z) :
  rs_step pixels x (r, s) y = (r, s + len (flatten (block_at pixels x y))).
Proof.
  unfold rs_step. rewrite count_eq_flip, count_ne_flip. f_equal. lia.
Qed.

Lemma calculate_rs_windows (pixels : ndarray) :
  calculate_rs pixels
  = fold_left (fun acc xy => rs_step pixels (fst xy) acc (snd xy))
              (rs_windows pixels) (0, 0).
Proof.
  unfold calculate_rs, rs_windows.
  generalize (range2 0 (len pixels - 1)) as xs, (0, 0) as acc.
  induction xs as [|x xs IH]; intros acc; [reflexivity|].
  cbn [fold_left flat_map]. rewrite fold_left_app, IH. f_equal.
  generalize (range2 0 (row_len pixels - 1)) as ys. clear.
  intros ys. revert acc. induction ys as [|y ys IH]; intros acc;
    [reflexivity|]. cbn [map fold_left fst snd]. apply IH.
Qed.

Lemma fold_rs_regular (pixels : ndarray) (ws : list (Z * Z)) (r s : Z) :
  fst (fold_left (fun acc xy => rs_step pixels (fst xy) acc (snd xy))
                 ws (r, s)) = r.
Proof.
  revert s. induction ws as [|[x y] ws IH]; intros s; [reflexivity|].
  cbn [fold_left fst snd]. rewrite rs_step_counts. apply IH.
Qed.

Lemma calculate_rs_regular (pixels : ndarray) :
  fst (calculate_rs pixels) = 0.
Proof. rewrite calculate_rs_windows. apply fold_rs_regular. Qed.

Lemma rs_analysis_ratio (pixels : ndarray) (num_lsb : Z) :
  forall r s, calculate_rs pixels = (r, s) ->
              rs_analysis pixels num_lsb
              = if r + s =? 0 then 0%Q else (inject_Z r / inject_Z (r + s))%Q.
Proof. intros r s E. unfold rs_analysis. now rewrite E. Qed.

Lemma slice_nonneg {A} (l : list A) (a b : Z) :
  0 <= a <= b ->
  slice l a b = firstn (Z.to_nat (b - a)) (skipn (Z.to_nat a) l).
Proof.
  intros Hab. unfold slice, clamp. zbool.
  pose proof (len_nonneg l) as Hl. unfold len in *.
  destruct (Z.le_gt_cases a (Z.of_nat (length l))) as [Ha|Ha].
  - rewrite (Z.min_l a) by assumption.
    destruct (Z.le_gt_cases b (Z.of_nat (length l))) as [Hb|Hb].
    + rewrite Z.min_l by assumption. f_equal. lia.
    + rewrite Z.min_r by lia. rewrite Nat2Z.id.
      rewrite !firstn_all2; [reflexivity| |]; rewrite length_skipn; lia.
  - rewrite !Z.min_r by lia. rewrite Nat2Z.id, Nat.sub_diag.
    rewrite (skipn_all2 l (n := Z.to_nat a)) by lia.
    now rewrite firstn_nil.
Qed.

Lemma length_concat_uniform {A} (k : nat) (l : list (list A)) :
  Forall (fun c => length c = k) l -> length (concat l) = (k * length l)%nat.
Proof.
  induction 1 as [|c t Hc _ IH]; [cbn; lia|].
  cbn [concat length]. rewrite length_app, Hc, IH. lia.
Qed.

Lemma Forall_skipn_keeps {A} (P : A -> Prop) (k : nat) (l : list A) :
  Forall P l -> Forall P (skipn k l).
Proof.
  intros H. rewrite <- (firstn_skipn k l) in H.
  now apply Forall_app in H.
Qed.

Lemma Forall_window {A} (P : A -> Prop) (a k : nat) (l : list A) :
  Forall P l -> Forall P (firstn k (skipn a l)).
Proof. intros H. now apply Forall_firstn, Forall_skipn_keeps. Qed.

(** A window that lies inside the array holds four cells. *)
Lemma block_size (pixels : ndarray) (H W C : nat) (x y : Z) :
  has_shape pixels H W C ->
  0 <= x -> x + 2 <= Z.of_nat H -> 0 <= y -> y + 2 <= Z.of_nat W ->
  len (flatten (block_at pixels x y)) = 4 * Z.of_nat C.
Proof.
  intros [HH Hrows] Hx0 Hx Hy0 Hy. unfold flatten, block_at, len.
  assert (Hwin : Forall (fun row => length (slice row y (y + 2)) = 2%nat
                                    /\ Forall (fun cell => length cell = C)
                                              (slice row y (y + 2)))
                        (slice pixels x (x + 2))).
  { rewrite slice_nonneg by lia.
    eapply Forall_impl; [|apply Forall_window, Hrows].
    cbn beta. intros row [Hlen Hcells].
    rewrite slice_nonneg by lia. split; [|now apply Forall_window].
    rewrite length_firstn, length_skipn. lia. }
  rewrite (length_concat_uniform C).
  - rewrite (length_concat_uniform 2).
    + rewrite length_map, slice_nonneg, length_firstn, length_skipn by lia.
      replace (Nat.min (Z.to_nat (x + 2 - x)) (length pixels - Z.to_nat x))
        with 2%nat by lia.
      lia.
    + apply Forall_map. eapply Forall_impl; [|exact Hwin].
      cbn beta. now intros row [Hlen _].
  - apply Forall_concat, Forall_map.
    eapply Forall_impl; [|exact Hwin]. cbn beta. now intros row [_ Hcells].
Qed.

Lemma in_range2 (n v : Z) : In v (range2 0 n) <-> 0 <= v < n.
Proof.
  unfold range2. rewrite in_map_iff. split.
  - intros (k & <- & Hk). apply in_seq in Hk. lia.
  - intros Hv. exists (Z.to_nat v). split; [lia|]. apply in_seq. lia.
Qed.

Lemma len_range2 (n : Z) : len (range2 0 n) = Z.max 0 n.
Proof. unfold range2, len. rewrite length_map, length_seq. lia. Qed.

Lemma row_len_shape (pixels : ndarray) (H W C : nat) :
  has_shape pixels H W C -> (1 <= H)%nat -> row_len pixels = Z.of_nat W.
Proof.
  intros [HH Hrows] H1. unfold row_len, len.
  destruct pixels as [|row rest]; [cbn in HH; lia|].
  inversion Hrows as [|? ? Hrow _]; subst. destruct Hrow as [Hlen _].
  cbn [nth]. now rewrite Hlen.
Qed.

Lemma fold_rs_row (pixels : ndarray) (H W C : nat) (x : Z) (ys : list Z) :
  has_shape pixels H W C ->
  0 <= x -> x + 2 <= Z.of_nat H ->
  (forall y, In y ys -> 0 <= y /\ y + 2 <= Z.of_nat W) ->
  forall r s,
    fold_left (rs_step pixels x) ys (r, s)
    = (r, s + 4 * Z.of_nat C * len ys).
Proof.
  intros Hs Hx0 Hx. induction ys as [|y ys IH]; intros Hys r s.
  - cbn [fold_left]. change (len []) with 0. f_equal. lia.
  - cbn [fold_left]. rewrite rs_step_counts.
    destruct (Hys y (or_introl eq_refl)) as [Hy0 Hy].
    rewrite (block_size pixels H W C x y Hs Hx0 Hx Hy0 Hy).
    rewrite IH by (intros; apply Hys; now right).
    f_equal. unfold len. cbn [length]. lia.
Qed.

Lemma fold_rs_rows (pixels : ndarray) (H W C : nat) (xs ys : list Z) :
  has_shape pixels H W C ->
  (forall x, In x xs -> 0 <= x /\ x + 2 <= Z.of_nat H) ->
  (forall y, In y ys -> 0 <= y /\ y + 2 <= Z.of_nat W) ->
  forall r s,
    fold_left (fun acc x => fold_left (rs_step pixels x) ys acc) xs (r, s)
    = (r, s + 4 * Z.of_nat C * (len xs * len ys)).
Proof.
  intros Hs Hxs Hys. induction xs as [|x xs IH]; intros r s.
  - cbn [fold_left]. change (len []) with 0. f_equal. lia.
  - cbn [fold_left].
    destruct (Hxs x (or_introl eq_refl)) as [Hx0 Hx].
    rewrite (fold_rs_row pixels H W C x ys Hs Hx0 Hx Hys).
    rewrite IH by (intros; apply Hxs; now right).
    f_equal. unfold len. cbn [length]. lia.
Qed.

(** What the two sums of lines 97-98 count in one window. *)
Lemma count_if_flip (p : Z -> Z -> bool) (block : ndarray) :
  count_if p block (flipping_mask block 1)
  = count_where (fun v => p v (Z.lxor v 1)) (flatten block).
Proof.
  unfold count_if, count_where.
  rewrite flatten_flipping_mask, combine_map_r, filter_map_swap.
  now rewrite len_map.
Qed.

(** The two counters after the loops: [regular] holds the elements
    equal to their flip, [singular] the ones that differ, window by
    window. *)
Lemma fold_rs_totals (pixels : ndarray) (ws : list (Z * Z)) :
  forall r s,
    fold_left (fun acc xy => rs_step pixels (fst xy) acc (snd xy)) ws (r, s)
    = (r + total_over (fun w => count_where equals_flip
                                            (window_samples pixels w)) ws,
       s + total_over (fun w => count_where (fun v => negb (equals_flip v))
                                            (window_samples pixels w)) ws).
Proof.
  unfold total_over.
  induction ws as [|[x y] ws IH]; intros r s.
  - cbn [fold_left map fold_right]. f_equal; lia.
  - cbn [fold_left map fold_right fst snd]. unfold rs_step at 2.
    rewrite !count_if_flip, IH. unfold window_samples, equals_flip.
    cbn [fst snd]. f_equal; lia.
Qed.

Lemma slice_pair {A} (l : list A) (a : Z) (d : A) :
  0 <= a -> a + 2 <= len l ->
  slice l a (a + 2) = [nth (Z.to_nat a) l d; nth (Z.to_nat (a + 1)) l d].
Proof.
  intros Ha Hl. rewrite slice_nonneg by lia.
  replace (Z.to_nat (a + 2 - a)) with 2%nat by lia.
  replace (Z.to_nat (a + 1)) with (S (Z.to_nat a)) by lia.
  unfold len in Hl.
  assert (Hk : (Z.to_nat a + 2 <= length l)%nat) by lia.
  revert Hk. generalize (Z.to_nat a) as k. clear.
  induction l as [|h t IH]; intros k Hk; [cbn in Hk; lia|].
  destruct k as [|k].
  - destruct t as [|h' t]; [cbn in Hk; lia | reflexivity].
  - cbn [skipn nth]. apply IH. cbn [length] in Hk. lia.
Qed.

(** A window inside the array holds the samples of its four cells, row
    by row. *)
Lemma window_samples_cells (pixels : ndarray) (H W C : nat) (x y : Z) :
  has_shape pixels H W C ->
  0 <= x -> x + 2 <= Z.of_nat H -> 0 <= y -> y + 2 <= Z.of_nat W ->
  window_samples pixels (x, y) = flat_map (cell_at pixels) (window_cells (x, y)).
Proof.
  intros [HH Hrows] Hx0 Hx Hy0 Hy.
  unfold window_samples, flatten, block_at, window_cells, cell_at.
  cbn [fst snd flat_map].
  rewrite (slice_pair pixels x []) by (unfold len; lia).
  cbn [map].
  rewrite Forall_forall in Hrows.
  assert (Hrow : forall k, (k < H)%nat -> len (nth k pixels []) = Z.of_nat W).
  { intros k Hk. unfold len. f_equal. apply Hrows, nth_In. lia. }
  rewrite !(slice_pair _ y []) by (try rewrite Hrow by lia; lia).
  cbn [concat app]. rewrite ?app_nil_r, <- ?app_assoc. reflexivity.
Qed.

(** The corners the loops visit. *)
Lemma in_rs_windows (pixels : ndarray) (H W C : nat) (x y : Z) :
  has_shape pixels H W C -> (1 <= H)%nat ->
  In (x, y) (rs_windows pixels)
  <-> 0 <= x < Z.of_nat H - 1 /\ 0 <= y < Z.of_nat W - 1.
Proof.
  intros Hs HH.
  pose proof (row_len_shape pixels H W C Hs HH) as Hrow.
  assert (Hlen : len pixels = Z.of_nat H) by (unfold len; now destruct Hs as [-> _]).
  unfold rs_windows. rewrite Hrow, Hlen, in_flat_map. split.
  - intros (x' & Hx' & Hin). apply in_map_iff in Hin.
    destruct Hin as (y' & E & Hy'). injection E as <- <-.
    apply in_range2 in Hx', Hy'. lia.
  - intros [Hx Hy]. exists x. split; [now apply in_range2|].
    apply in_map. now apply in_range2.
Qed.

(** C6 (what [rs_analysis] computes), as the code has it: a 2 x 2
    window slides over every corner [(x, y)] with [0 <= x < H - 1] and
    [0 <= y < W - 1], one step at a time; a window holds the samples of
    its four cells, [4 * C] elements; [regular] is the number of
    elements equal to their XOR-with-1 flip, summed over the windows,
    and [singular] the number of elements that differ, summed over the
    windows, so that [regular + singular] is the number of elements
    seen, [4 * C * (H - 1) * (W - 1)]; the result is
    [regular / (regular + singular)], a value in [0,1], and 0 when
    there is no window or [regular + singular == 0]. *)
Theorem rs_analysis_sliding_windows
        (pixels : ndarray) (H W C : nat) (num_lsb : Z) :
  has_shape pixels H W C -> (1 <= H)%nat -> (1 <= W)%nat ->
  exists r s,
    calculate_rs pixels = (r, s)
    /\ (forall x y, In (x, y) (rs_windows pixels)
                    <-> 0 <= x < Z.of_nat H - 1 /\ 0 <= y < Z.of_nat W - 1)
    /\ (forall w, In w (rs_windows pixels) ->
                  window_samples pixels w
                  = flat_map (cell_at pixels) (window_cells w)
                  /\ len (window_samples pixels w) = 4 * Z.of_nat C)
    /\ r = total_over (fun w => count_where equals_flip
                                            (window_samples pixels w))
                      (rs_windows pixels)
    /\ s = total_over (fun w => count_where (fun v => negb (equals_flip v))
                                            (window_samples pixels w))
                      (rs_windows pixels)
    /\ r + s = 4 * Z.of_nat C * ((Z.of_nat H - 1) * (Z.of_nat W - 1))
    /\ rs_analysis pixels num_lsb
       = (if r + s =? 0 then 0%Q else (inject_Z r / inject_Z (r + s))%Q)
    /\ (rs_windows pixels = [] -> rs_analysis pixels num_lsb = 0%Q)
    /\ (0 <= rs_analysis pixels num_lsb <= 1)%Q.
Proof.
  intros Hs HH HW.
  pose proof (row_len_shape pixels H W C Hs HH) as Hrow.
  assert (Hlen : len pixels = Z.of_nat H) by (unfold len; now destruct Hs as [-> _]).
  assert (Hsum : calculate_rs pixels
                 = (0, 0 + 4 * Z.of_nat C
                           * (len (range2 0 (Z.of_nat H - 1))
                              * len (range2 0 (Z.of_nat W - 1))))).
  { unfold calculate_rs. rewrite Hrow, Hlen.
    apply (fold_rs_rows pixels H W C); [assumption| |];
      intros v Hv; apply in_range2 in Hv; lia. }
  rewrite !len_range2, !Z.max_r in Hsum by lia.
  pose proof (calculate_rs_windows pixels) as Hrs.
  rewrite fold_rs_totals in Hrs. rewrite !Z.add_0_l in Hrs.
  eexists _, _. split; [exact Hrs|].
  rewrite Hrs in Hsum.
  pose proof (f_equal fst Hsum) as Hr0. pose proof (f_equal snd Hsum) as Hs0.
  cbn [fst snd] in Hr0, Hs0.
  split; [intros x y; now apply (in_rs_windows pixels H W C)|].
  split.
  { intros [x y] Hin. apply (in_rs_windows pixels H W C x y Hs HH) in Hin.
    split.
    - apply (window_samples_cells pixels H W C); [assumption|lia..].
    - unfold window_samples. cbn [fst snd].
      apply (block_size pixels H W C); [assumption|lia..]. }
  split; [reflexivity|]. split; [reflexivity|]. split; [lia|].
  split; [now apply rs_analysis_ratio|]. split.
  - intros Hnil. rewrite (rs_analysis_ratio pixels num_lsb _ _ Hrs).
    rewrite Hnil. reflexivity.
  - rewrite (rs_analysis_ratio pixels num_lsb _ _ Hrs), Hr0.
    destruct (_ =? 0); [split; discriminate|].
    unfold Qdiv. rewrite Qmult_0_l. split; discriminate.
Qed.

(** The sliding windows of a 3 x 3 single-band array. *)
Lemma rs_analysis_sliding_windows_witness :
  exists r s,
    calculate_rs gray_3x3 = (r, s)
    /\ (forall x y, In (x, y) (rs_windows gray_3x3)
                    <-> 0 <= x < Z.of_nat 3 - 1 /\ 0 <= y < Z.of_nat 3 - 1)
    /\ (forall w, In w (rs_windows gray_3x3) ->
                  window_samples gray_3x3 w
                  = flat_map (cell_at gray_3x3) (window_cells w)
                  /\ len (window_samples gray_3x3 w) = 4 * Z.of_nat 1)
    /\ r = total_over (fun w => count_where equals_flip
                                            (window_samples gray_3x3 w))
                      (rs_windows gray_3x3)
    /\ s = total_over (fun w => count_where (fun v => negb (equals_flip v))
                                            (window_samples gray_3x3 w))
                      (rs_windows gray_3x3)
    /\ r + s = 4 * Z.of_nat 1 * ((Z.of_nat 3 - 1) * (Z.of_nat 3 - 1))
    /\ rs_analysis gray_3x3 1
       = (if r + s =? 0 then 0%Q else (inject_Z r / inject_Z (r + s))%Q)
    /\ (rs_windows gray_3x3 = [] -> rs_analysis gray_3x3 1 = 0%Q)
    /\ (0 <= rs_analysis gray_3x3 1 <= 1)%Q.
Proof.
  apply (rs_analysis_sliding_windows gray_3x3 3 3 1 1); [|lia|lia].
  split; [reflexivity|]. repeat constructor.
Defined.

(** No tiling by whole blocks: on a 3 x 3 single-band image the loops
    visit four windows, neighbours sharing a column or a row, and count
    sixteen elements, where a tiling by whole 2 x 2 blocks has one
    block. *)
Lemma rs_counts_whole_blocks_counterexample :
  calculate_rs gray_3x3 = (0, 16)
  /\ rs_windows gray_3x3 = [(0, 0); (0, 1); (1, 0); (1, 1)]
  /\ (In (0, 1) (window_cells (0, 0)) /\ In (0, 1) (window_cells (0, 1)))
  /\ ~ rs_counts_whole_blocks gray_3x3.
Proof.
  split; [vm_compute; reflexivity|]. split; [vm_compute; reflexivity|].
  split; [split; cbn; auto|].
  intros [_ Hcount]. vm_compute in Hcount. discriminate.
Qed.

(** C7 (the value of [rs_analysis]): XOR with 1 changes every element,
    so the regular count stays 0 and the returned ratio is 0, with or
    without any 2 x 2 block. *)
Theorem rs_analysis_is_zero (pixels : ndarray) (num_lsb : Z) :
  fst (calculate_rs pixels) = 0
  /\ (rs_analysis pixels num_lsb == 0)%Q.
Proof.
  pose proof (calculate_rs_regular pixels) as Hr.
  split; [exact Hr|].
  destruct (calculate_rs pixels) as [r s] eqn:E. cbn [fst] in Hr. subst r.
  rewrite (rs_analysis_ratio pixels num_lsb _ _ E).
  destruct (0 + s =? 0); [reflexivity|].
  unfold Qdiv. apply Qmult_0_l.
Qed.

End RSAnalysis.

(* ===================================================================== *)
(** * The distribution test                                              *)
(* ===================================================================== *)

Section Distribution.

Import Sierra.

Lemma keys_count_insert (v : Z) (d : list (Z * Z)) (k : Z) :
  In k (keys (count_insert v d)) <-> k = v \/ In k (keys d).
Proof.
  unfold keys. induction d as [|[k0 c0] t IH]; cbn [count_insert map In fst].
  - intuition congruence.
  - destruct (Z.ltb_spec v k0); [cbn [map In fst]; intuition congruence|].
    destruct (Z.eqb_spec v k0); cbn [map In fst].
    + subst. intuition congruence.
    + rewrite IH. intuition congruence.
Qed.

Lemma sorted_count_insert (v : Z) (d : list (Z * Z)) :
  StronglySorted Z.lt (keys d) ->
  StronglySorted Z.lt (keys (count_insert v d)).
Proof.
  unfold keys. induction d as [|[k0 c0] t IH]; intros Hs;
    cbn [count_insert map fst].
  - repeat constructor.
  - cbn [map fst] in Hs. apply StronglySorted_inv in Hs. destruct Hs as [Ht Hk].
    destruct (Z.ltb_spec v k0).
    + cbn [map fst]. constructor; [now constructor|].
      constructor; [assumption|].
      eapply Forall_impl; [|exact Hk]. cbn. lia.
    + destruct (Z.eqb_spec v k0); cbn [map fst].
      * now constructor.
      * constructor; [now apply IH|].
        apply Forall_forall. intros k Hin.
        apply (keys_count_insert v t k) in Hin. destruct Hin as [->|Hin]; [lia|].
        rewrite Forall_forall in Hk. now apply Hk.
Qed.

Lemma sorted_head_absent (k0 : Z) (l : list Z) (v : Z) :
  StronglySorted Z.lt (k0 :: l) -> v <= k0 -> ~ In v l.
Proof.
  intros Hs Hv Hin. apply StronglySorted_inv in Hs. destruct Hs as [_ Hk].
  rewrite Forall_forall in Hk. specialize (Hk v Hin). lia.
Qed.

Lemma in_count_insert (v : Z) (d : list (Z * Z)) (k c : Z) :
  StronglySorted Z.lt (keys d) ->
  In (k, c) (count_insert v d) ->
  (k = v /\ ((c = 1 /\ ~ In v (keys d))
             \/ exists c0, In (v, c0) d /\ c = c0 + 1))
  \/ (k <> v /\ In (k, c) d).
Proof.
  unfold keys. induction d as [|[k0 c0] t IH]; intros Hs Hin;
    cbn [count_insert map fst] in *.
  - destruct Hin as [E|[]]. injection E as <- <-. left. split; [reflexivity|].
    left. split; [reflexivity | intros []].
  - pose proof Hs as Hs'. apply StronglySorted_inv in Hs'.
    destruct Hs' as [Ht Hk].
    destruct (Z.ltb_spec v k0) as [Hlt|Hge].
    + destruct Hin as [E|Hin].
      * injection E as <- <-. left. split; [reflexivity|]. left.
        split; [reflexivity|]. intros [E|Hin]; [lia|].
        now apply (sorted_head_absent k0 (map fst t) v Hs ltac:(lia)).
      * right. split; [|exact Hin]. intros ->.
        assert (Hv : In v (k0 :: map fst t))
          by (change (k0 :: map fst t) with (map fst ((k0, c0) :: t));
              apply in_map_iff; now exists (v, c)).
        destruct Hv as [E|Hv]; [lia|].
        now apply (sorted_head_absent k0 (map fst t) v Hs ltac:(lia)).
    + destruct (Z.eqb_spec v k0) as [->|Hne].
      * destruct Hin as [E|Hin].
        -- injection E as <- <-. left. split; [reflexivity|]. right.
           exists c0. split; [now left | reflexivity].
        -- right. split; [|now right]. intros ->.
           apply (sorted_head_absent k0 (map fst t) k0 Hs ltac:(lia)).
           apply in_map_iff. now exists (k0, c).
      * destruct Hin as [E|Hin].
        -- injection E as <- <-. right. split; [congruence | now left].
        -- destruct (IH Ht Hin) as [[-> [[-> Habs]|(c1 & Hc1 & ->)]]|[Hk' Hin']].
           ++ left. split; [reflexivity|]. left. split; [reflexivity|].
              cbn [In]. intros [E|Hv]; [congruence | now apply Habs].
           ++ left. split; [reflexivity|]. right. exists c1.
              split; [now right | reflexivity].
           ++ right. split; [assumption | now right].
Qed.

(** [np.unique(..., return_counts=True)]: increasing distinct values,
    each with its number of occurrences. *)
Lemma unique_counts_spec (vals : list Z) :
  StronglySorted Z.lt (keys (unique_counts vals))
  /\ (forall k, In k (keys (unique_counts vals)) <-> In k vals)
  /\ (forall k c, In (k, c) (unique_counts vals) -> c = occurrences vals k).
Proof.
  unfold occurrences. induction vals as [|v l (Hs & Hk & Hc)].
  - cbn. repeat split; try constructor; intros; contradiction.
  - cbn [unique_counts fold_right]. fold (unique_counts l).
    split; [now apply sorted_count_insert|]. split.
    + intros k. rewrite keys_count_insert, Hk. cbn [In]. intuition congruence.
    + intros k c Hin.
      destruct (in_count_insert v _ k c Hs Hin)
        as [[-> [[-> Habs]|(c0 & Hc0 & ->)]]|[Hne Hin']].
      * rewrite count_occ_cons_eq by reflexivity.
        rewrite Hk in Habs. apply (count_occ_not_In Z.eq_dec) in Habs.
        now rewrite Habs.
      * rewrite count_occ_cons_eq by reflexivity.
        rewrite (Hc v c0 Hc0). lia.
      * rewrite count_occ_cons_neq by congruence. now apply Hc.
Qed.

Lemma sorted_NoDup (l : list Z) : StronglySorted Z.lt l -> NoDup l.
Proof.
  induction 1 as [|a l _ IH Ha]; constructor; [|assumption].
  intros Hin. rewrite Forall_forall in Ha. specialize (Ha a Hin). lia.
Qed.

Lemma len_unique_counts (vals : list Z) :
  len (unique_counts vals) = distinct_count vals.
Proof.
  destruct (unique_counts_spec vals) as (Hs & Hk & _).
  unfold distinct_count, len. f_equal.
  rewrite <- (length_map fst). fold (keys (unique_counts vals)).
  apply Nat.le_antisymm; apply NoDup_incl_length.
  - now apply sorted_NoDup.
  - intros k Hin. apply nodup_In. now apply Hk.
  - apply NoDup_nodup.
  - intros k Hin. apply nodup_In in Hin. now apply Hk.
Qed.

Lemma lsb_values_range (pixels : ndarray) (num_lsb : Z) (v : Z) :
  0 <= num_lsb -> In v (lsb_values pixels num_lsb) -> 0 <= v < 2 ^ num_lsb.
Proof.
  intros Hn Hin. apply in_map_iff in Hin. destruct Hin as (w & <- & _).
  apply Z.mod_pos_bound. now apply Z.pow_pos_nonneg.
Qed.

Lemma in_below (p v : Z) : In v (below p) <-> 0 <= v < p.
Proof.
  unfold below. rewrite in_map_iff. split.
  - intros (k & <- & Hk). apply in_seq in Hk. lia.
  - intros Hv. exists (Z.to_nat v). split; [lia|]. apply in_seq. lia.
Qed.

Lemma length_below (p : Z) : length (below p) = Z.to_nat p.
Proof. unfold below. now rewrite length_map, length_seq. Qed.

(** No more distinct values than there are values at all. *)
Lemma distinct_count_bound (vals : list Z) (p : Z) :
  0 <= p -> (forall v, In v vals -> 0 <= v < p) -> distinct_count vals <= p.
Proof.
  intros Hp Hr. unfold distinct_count, len.
  assert (length (nodup Z.eq_dec vals) <= length (below p))%nat.
  { apply NoDup_incl_length; [apply NoDup_nodup|].
    intros v Hin. apply nodup_In in Hin. now apply in_below, Hr. }
  rewrite length_below in *. lia.
Qed.

Lemma distinct_count_full (vals : list Z) (p : Z) :
  0 <= p -> (forall v, In v vals -> 0 <= v < p) ->
  distinct_count vals = p -> forall v, 0 <= v < p -> In v vals.
Proof.
  intros Hp Hr Hfull v Hv. unfold distinct_count, len in Hfull.
  apply (nodup_In Z.eq_dec).
  apply (NoDup_length_incl (l := nodup Z.eq_dec vals) (l' := below p)).
  - apply NoDup_nodup.
  - rewrite length_below. lia.
  - intros w Hin. apply nodup_In in Hin. now apply in_below, Hr.
  - now apply in_below.
Qed.

(** The comparison of line 34, [abs(d) > 0.1 * total_bits], on
    integers. *)
Lemma exceeds_threshold (d total_bits : Z) :
  negb (Qle_bool (inject_Z d) ((1 # 10) * inject_Z total_bits)) = true
  <-> 10 * d > total_bits.
Proof.
  rewrite negb_true_iff, <- not_true_iff_false, Qle_bool_iff.
  unfold Qle, Qmult, inject_Z. cbn [Qnum Qden]. lia.
Qed.

Lemma any_deviates_iff (counts : list Z) (expected total_bits : Z) :
  any_deviates counts expected ((1 # 10) * inject_Z total_bits) = true
  <-> exists c, In c counts /\ 10 * Z.abs (c - expected) > total_bits.
Proof.
  induction counts as [|c t IH]; cbn [any_deviates In].
  - split; [discriminate | intros (c & Hf & _); destruct Hf].
  - destruct (negb (Qle_bool _ _)) eqn:E.
    + apply exceeds_threshold in E. split; [|reflexivity].
      intros _. exists c. now split; [left|].
    + rewrite IH. split.
      * intros (c' & Hin & Hc'). exists c'. now split; [right|].
      * intros (c' & [<-|Hin] & Hc').
        -- apply exceeds_threshold in Hc'. congruence.
        -- now exists c'.
Qed.

Lemma mask_values (pixels : ndarray) (num_lsb : Z) :
  0 <= num_lsb ->
  map (fun v => Z.land v (Z.shiftl 1 num_lsb - 1)) (flatten pixels)
  = lsb_values pixels num_lsb.
Proof.
  intros Hn. unfold lsb_values. apply map_ext. intros v.
  rewrite Z.sub_1_r. change (Z.pred (Z.shiftl 1 num_lsb)) with (Z.ones num_lsb).
  now apply Z.land_ones.
Qed.

(** What lines 22-37 compute: the answer is [True] when fewer than
    [2^num_lsb] distinct low-bit values occur, or when some value's
    count differs from [total_bits // 2^num_lsb] by more than
    [0.1 * total_bits], with [total_bits] the number of samples times
    [num_lsb]. *)
Lemma is_lsb_steganography_iff (pixels : ndarray) (num_lsb : Z) :
  0 <= num_lsb <= 8 ->
  exists b,
    is_lsb_steganography pixels num_lsb = Ok b
    /\ (b = true <-> suspicious_as_coded pixels num_lsb).
Proof.
  intros Hn. unfold is_lsb_steganography, lshift1. zbool. cbn [bind].
  rewrite mask_values by lia. rewrite Z.shiftl_1_l.
  set (vals := lsb_values pixels num_lsb).
  set (p := 2 ^ num_lsb).
  assert (Hp : 0 < p) by (apply Z.pow_pos_nonneg; lia).
  assert (Hr : forall v, In v vals -> 0 <= v < p)
    by (intros v; apply lsb_values_range; lia).
  pose proof (distinct_count_bound vals p ltac:(lia) Hr) as Hle.
  destruct (unique_counts_spec vals) as (_ & Hk & Hc).
  rewrite len_unique_counts.
  unfold suspicious_as_coded. fold vals. fold p.
  destruct (Z.eqb_spec (distinct_count vals) p) as [Hfull|Hnot]; cbn [negb].
  - eexists. split; [reflexivity|]. rewrite any_deviates_iff. split.
    + intros (c & Hin & Hdev). right.
      apply in_map_iff in Hin. destruct Hin as ([k c'] & E & Hin).
      cbn [snd] in E. subst c'. exists k. split.
      * apply Hr, Hk. apply in_map_iff. now exists (k, c).
      * now rewrite <- (Hc k c Hin).
    + intros [Hlt|(v & Hv & Hdev)]; [lia|].
      pose proof (distinct_count_full vals p ltac:(lia) Hr Hfull v Hv) as Hin.
      apply Hk in Hin. apply in_map_iff in Hin.
      destruct Hin as ([k c] & E & Hin). cbn [fst] in E. subst k.
      exists c. split.
      * apply in_map_iff. now exists (v, c).
      * now rewrite (Hc v c Hin).
  - eexists. split; [reflexivity|]. split; [|reflexivity].
    intros _. left. lia.
Qed.

(** With two low bits every sample falls under one of four values. *)
Lemma occurrences_two_bits (vals : list Z) :
  (forall v, In v vals -> 0 <= v < 4) ->
  occurrences vals 0 + occurrences vals 1 + occurrences vals 2
  + occurrences vals 3 = len vals.
Proof.
  unfold occurrences, len. induction vals as [|v vals IH]; intros Hr.
  - reflexivity.
  - assert (Hv : 0 <= v < 4) by (apply Hr; now left).
    specialize (IH (fun w Hw => Hr w (or_intror Hw))).
    cbn [count_occ length].
    destruct (Z.eq_dec v 0), (Z.eq_dec v 1), (Z.eq_dec v 2), (Z.eq_dec v 3);
      lia.
Qed.

(** On an even number of samples, at one bit, the comparison of line 34
    is the comparison with the uniform expectation. *)
Lemma deviates_even (c k : Z) :
  ((1 # 10) * inject_Z (2 * k)
   < Qabs (inject_Z c - inject_Z (2 * k) / inject_Z 2))%Q
  <-> 10 * Z.abs (c - 2 * k * 1 / 2) > 2 * k * 1.
Proof.
  rewrite Z.mul_1_r, (Z.mul_comm 2 k), Z.div_mul by lia.
  unfold Qlt, Qabs, Qminus, Qplus, Qopp, Qdiv, Qmult, Qinv, inject_Z.
  cbn [Qnum Qden]. lia.
Qed.

Lemma worded_coded_one_bit (pixels : ndarray) :
  Z.even (size pixels) = true ->
  suspicious_as_coded pixels 1 <-> suspicious_as_worded pixels 1.
Proof.
  intros Hev. apply Z.even_spec in Hev. destruct Hev as [k Hk].
  unfold suspicious_as_coded, suspicious_as_worded. cbv zeta.
  rewrite Hk. change (2 ^ 1) with 2.
  split; (intros [Hd|(v & Hv & Hdev)]; [now left|]); right; exists v;
    (split; [assumption|]); now apply deviates_even.
Qed.

(** C5 (the distribution test): the code misses the test against the
    uniform expectation as soon as [num_lsb] exceeds 1, because line 27
    multiplies the number of samples by [num_lsb] before the
    expectation and the tolerance are taken from it.  Eight samples
    whose low two bits take each of the four values twice meet the
    uniform expectation [8 / 4 = 2] exactly, and are flagged: the counts
    are compared with [16 // 4 = 4].  At [num_lsb = 2] every image of
    more than ten samples is flagged, whatever its distribution.  At
    [num_lsb = 1], where the factor is 1, the answer is the test against
    the uniform expectation whenever the number of samples is even. *)
Theorem is_lsb_steganography_flags_uniform (pixels : ndarray) :
  (is_lsb_steganography gray_uniform 2 = Ok true
   /\ ~ suspicious_as_worded gray_uniform 2)
  /\ (10 < size pixels -> is_lsb_steganography pixels 2 = Ok true)
  /\ (Z.even (size pixels) = true ->
      exists b,
        is_lsb_steganography pixels 1 = Ok b
        /\ (b = true <-> suspicious_as_worded pixels 1)).
Proof.
  split; [|split].
  - split; [vm_compute; reflexivity|].
    unfold suspicious_as_worded. intros [Hd|(v & Hv & Hdev)].
    + vm_compute in Hd. discriminate.
    + change (2 ^ 2) with 4 in Hv.
      assert (Hcases : v = 0 \/ v = 1 \/ v = 2 \/ v = 3) by lia.
      destruct Hcases as [-> | [-> | [-> | ->]]];
        vm_compute in Hdev; discriminate.
  - intros Hsize.
    destruct (is_lsb_steganography_iff pixels 2 ltac:(lia)) as (b & -> & Hb).
    f_equal. apply Hb. unfold suspicious_as_coded.
    set (vals := lsb_values pixels 2).
    assert (Hr : forall v, In v vals -> 0 <= v < 4)
      by (intros v; apply (lsb_values_range pixels 2); lia).
    pose proof (occurrences_two_bits vals Hr) as Hsum.
    assert (Hlen : len vals = size pixels)
      by (subst vals; unfold lsb_values, size; now rewrite len_map).
    change (2 ^ 2) with 4.
    set (T := size pixels) in *.
    pose proof (Z.div_mod (T * 2) 4 ltac:(lia)) as Hdm.
    pose proof (Z.mod_pos_bound (T * 2) 4 ltac:(lia)) as Hm.
    set (h := T * 2 / 4) in *.
    destruct (Z_le_gt_dec (10 * Z.abs (occurrences vals 0 - h)) (T * 2)) as [H0|H0];
      [|right; exists 0; split; [lia | exact H0]].
    destruct (Z_le_gt_dec (10 * Z.abs (occurrences vals 1 - h)) (T * 2)) as [H1|H1];
      [|right; exists 1; split; [lia | exact H1]].
    destruct (Z_le_gt_dec (10 * Z.abs (occurrences vals 2 - h)) (T * 2)) as [H2|H2];
      [|right; exists 2; split; [lia | exact H2]].
    destruct (Z_le_gt_dec (10 * Z.abs (occurrences vals 3 - h)) (T * 2)) as [H3|H3];
      [|right; exists 3; split; [lia | exact H3]].
    exfalso. lia.
  - intros Hev.
    destruct (is_lsb_steganography_iff pixels 1 ltac:(lia)) as (b & Eb & Hb).
    exists b. split; [assumption|].
    rewrite Hb. now apply worded_coded_one_bit.
Qed.

(** Twelve samples, each of the four values three times: flagged at two
    bits; and the test at one bit on the eight samples of
    [gray_uniform]. *)
Lemma is_lsb_steganography_flags_uniform_witness :
  let twelve :=
    [[[0]; [1]; [2]; [3]; [4]; [5]; [6]; [7]; [8]; [9]; [10]; [11]]] in
  (10 < size twelve /\ is_lsb_steganography twelve 2 = Ok true)
  /\ (Z.even (size gray_uniform) = true
      /\ exists b,
          is_lsb_steganography gray_uniform 1 = Ok b
          /\ (b = true <-> suspicious_as_worded gray_uniform 1)).
Proof.
  intros twelve. split; split.
  - vm_compute. reflexivity.
  - apply (proj1 (proj2 (is_lsb_steganography_flags_uniform twelve))).
    vm_compute. reflexivity.
  - reflexivity.
  - apply (proj2 (proj2 (is_lsb_steganography_flags_uniform gray_uniform))).
    reflexivity.
Defined.

End Distribution.

(* ===================================================================== *)
(** * The loops of the pixel codec                                       *)
(* ===================================================================== *)

Section PixelLoops.

Import Lemma.

Lemma set_lsbs_low (byte_value bit_value num_bits : Z) :
  0 <= num_bits ->
  set_lsbs byte_value bit_value num_bits
  = Ok (set_low byte_value bit_value num_bits).
Proof.
  intros Hn. unfold set_lsbs, set_low, lshift1. zbool. cbn [bind].
  now rewrite Z.sub_1_r.
Qed.

Lemma testbit_set_low (byte_value bit_value num_bits j : Z) :
  0 <= num_bits -> 0 <= j ->
  Z.testbit (set_low byte_value bit_value num_bits) j
  = if j <? num_bits then Z.testbit bit_value j else Z.testbit byte_value j.
Proof.
  intros Hn Hj. unfold set_low.
  rewrite Z.lor_spec, !Z.land_spec, Z.lnot_spec by assumption.
  rewrite Z.testbit_ones_nonneg by assumption.
  destruct (j <? num_bits); cbn [negb];
    now rewrite ?andb_true_r, ?andb_false_r, ?orb_false_r, ?orb_false_l.
Qed.

(** A sample that received a full segment reads back as that segment. *)
Lemma read_written_unit (n : nat) (u : Z) (seg : list bool) :
  length seg = n ->
  read_unit n (set_low u (lsb_val (rev seg)) (Z.of_nat n)) = seg.
Proof.
  intros Hseg. unfold read_unit.
  assert (E : lsb_bits n (set_low u (lsb_val (rev seg)) (Z.of_nat n))
              = lsb_bits n (lsb_val (rev seg))).
  { unfold lsb_bits. apply map_ext_in. intros j Hj. apply in_seq in Hj.
    rewrite testbit_set_low by lia. now zbool. }
  rewrite E. replace n with (length (rev seg)) by now rewrite length_rev.
  now rewrite lsb_bits_lsb_val, rev_involutive.
Qed.

Lemma slice_bits (M : list bool) (b n : nat) :
  slice (map bit_char M) (Z.of_nat b) (Z.of_nat b + Z.of_nat n)
  = map bit_char (firstn n (skipn b M)).
Proof.
  rewrite slice_nonneg by lia. rewrite skipn_map, firstn_map, Nat2Z.id.
  now replace (Z.to_nat (Z.of_nat b + Z.of_nat n - Z.of_nat b)) with n by lia.
Qed.

Lemma int2_segment (seg : list bool) :
  seg <> [] -> int2 (map bit_char seg) = Ok (lsb_val (rev seg)).
Proof.
  intros Hne. rewrite <- (rev_involutive seg) at 1.
  apply (int2_str_of_lsb (rev seg)).
  intros E. apply (f_equal (@rev bool)) in E.
  now rewrite rev_involutive in E.
Qed.

(** Lines 72-78 *)
Lemma channel_loop_from (M : list bool) (n : nat) (orig : list Z) :
  (1 <= n)%nat ->
  forall (rest pre : list Z) (b : nat),
    length orig = (length pre + length rest)%nat ->
    channel_loop (map bit_char M) (Z.of_nat n) (Tuple orig)
                 (map Z.of_nat (seq (length pre) (length rest)))
                 (pre ++ rest) (Z.of_nat b)
    = Ok (pre ++ fst (write_units M n rest b),
          Z.of_nat (snd (write_units M n rest b))).
Proof.
  intros Hn. induction rest as [|u rest IH]; intros pre b Hlen.
  - cbn. now rewrite app_nil_r.
  - cbn [length seq map channel_loop write_units].
    unfold len. rewrite length_map.
    destruct (Nat.ltb_spec b (length M)) as [Hlt|Hge].
    + zbool. rewrite slice_bits.
      set (seg := firstn n (skipn b M)).
      assert (Hseg : seg <> []).
      { intros E. apply (f_equal (@length bool)) in E. subst seg.
        rewrite length_firstn, length_skipn in E. cbn [length] in E. lia. }
      rewrite int2_segment by assumption. cbn [bind pixel_getitem].
      destruct (nth_error orig (length pre)) as [x|] eqn:Ex;
        [|apply nth_error_None in Ex; cbn [length] in Hlen; lia].
      rewrite (getitem_nat _ _ x Ex). cbn [bind].
      fold (len pre). rewrite getitem_app_mid_aux. cbn [bind].
      rewrite set_lsbs_low by lia. cbn [bind].
      rewrite setitem_app_mid. cbn [bind].
      set (u' := set_low u (lsb_val (rev seg)) (Z.of_nat n)).
      specialize (IH (pre ++ [u']) (b + n)%nat).
      rewrite length_app, <- app_assoc in IH. cbn [length app] in IH.
      rewrite Nat.add_1_r in IH.
      replace (Z.of_nat b + Z.of_nat n) with (Z.of_nat (b + n)) by lia.
      rewrite IH by (cbn [length] in Hlen; lia).
      destruct (write_units M n rest (b + n)) as [rest' b'].
      cbn [fst snd]. now rewrite <- app_assoc.
    + zbool.
      specialize (IH (pre ++ [u]) b).
      rewrite length_app, <- app_assoc in IH. cbn [length app] in IH.
      rewrite Nat.add_1_r in IH.
      rewrite IH by (cbn [length] in Hlen; lia).
      assert (Hdone : write_units M n rest b = (rest, b)).
      { destruct rest; cbn [write_units]; [reflexivity|].
        destruct (Nat.ltb_spec b (length M)); [lia | reflexivity]. }
      rewrite Hdone. cbn [fst snd]. now rewrite <- app_assoc.
Qed.

Lemma write_units_done (M : list bool) (n : nat) (units : list Z) (b : nat) :
  (length M <= b)%nat -> write_units M n units b = (units, b).
Proof.
  intros Hb. destruct units; cbn [write_units]; [reflexivity|].
  destruct (Nat.ltb_spec b (length M)); [lia | reflexivity].
Qed.

Lemma write_pixels_done (M : list bool) (n : nat) (pxs : list (list Z)) (b : nat) :
  (length M <= b)%nat -> write_pixels M n pxs b = pxs.
Proof.
  intros Hb. induction pxs as [|vs rest IH]; [reflexivity|].
  cbn [write_pixels]. rewrite write_units_done by assumption. now rewrite IH.
Qed.

Lemma write_units_app (M : list bool) (n : nat) (us1 us2 : list Z) :
  forall b,
    write_units M n (us1 ++ us2) b
    = let '(r1, b1) := write_units M n us1 b in
      let '(r2, b2) := write_units M n us2 b1 in
      (r1 ++ r2, b2).
Proof.
  induction us1 as [|u rest IH]; intros b.
  - cbn [app write_units]. now destruct (write_units M n us2 b).
  - cbn [app write_units].
    destruct (Nat.ltb_spec b (length M)) as [Hlt|Hge].
    + rewrite IH. destruct (write_units M n rest (b + n)) as [r1 b1].
      now destruct (write_units M n us2 b1).
    + now rewrite (write_units_done M n us2 b Hge).
Qed.

Lemma concat_write_pixels (M : list bool) (n : nat) (pxs : list (list Z)) :
  forall b,
    concat (write_pixels M n pxs b) = fst (write_units M n (concat pxs) b).
Proof.
  induction pxs as [|vs rest IH]; intros b; [reflexivity|].
  cbn [write_pixels concat]. rewrite write_units_app.
  destruct (write_units M n vs b) as [vs' b'].
  cbn [concat]. rewrite IH.
  now destruct (write_units M n (concat rest) b').
Qed.

Lemma write_units_length (M : list bool) (n : nat) (units : list Z) :
  forall b, length (fst (write_units M n units b)) = length units.
Proof.
  induction units as [|u rest IH]; intros b; [reflexivity|].
  cbn [write_units]. destruct (b <? length M)%nat; [|reflexivity].
  specialize (IH (b + n)%nat).
  destruct (write_units M n rest (b + n)). cbn [fst length] in *.
  now rewrite IH.
Qed.

Lemma write_pixels_shape (M : list bool) (n c : nat) (pxs : list (list Z)) :
  Forall (fun vs => length vs = c) pxs ->
  forall b, Forall (fun vs => length vs = c) (write_pixels M n pxs b)
            /\ length (write_pixels M n pxs b) = length pxs.
Proof.
  induction 1 as [|vs rest Hvs _ IH]; intros b; [now split|].
  cbn [write_pixels].
  pose proof (write_units_length M n vs b) as Hl.
  destruct (write_units M n vs b) as [vs' b']. cbn [fst] in Hl.
  destruct (IH b') as [IH1 IH2]. split.
  - constructor; [congruence | assumption].
  - cbn [length]. now rewrite IH2.
Qed.

(** Lines 70-81: the loop returns the pixels it went through; the
    pixels behind them are the ones the writer would leave as they are. *)
Lemma pixel_loop_from (M : list bool) (n c : nat) (pxs : list (list Z)) :
  (1 <= n)%nat ->
  Forall (fun vs => length vs = c) pxs ->
  forall (acc : list pixel) (b : nat),
  exists k,
    pixel_loop (map bit_char M) (Z.of_nat n) (Z.of_nat c)
               (map Tuple pxs) acc (Z.of_nat b)
    = Ok (acc ++ map Tuple (firstn k (write_pixels M n pxs b)))
    /\ (k <= length pxs)%nat
    /\ skipn k (write_pixels M n pxs b) = skipn k pxs.
Proof.
  intros Hn. induction 1 as [|vs rest Hvs _ IH]; intros acc b.
  - exists 0%nat. cbn. now rewrite app_nil_r.
  - cbn [map pixel_loop list_of_pixel bind write_pixels]. rewrite range_nat.
    pose proof (channel_loop_from M n vs Hn vs [] b) as Hc.
    cbn [length app] in Hc. rewrite Hvs in Hc.
    rewrite Hc by reflexivity. clear Hc.
    destruct (write_units M n vs b) as [vs' b']. cbn [fst snd bind].
    unfold len. rewrite length_map.
    destruct (Nat.le_gt_cases (length M) b') as [Hdone|Hmore].
    + zbool. exists 1%nat. cbn [firstn skipn map length].
      split; [reflexivity|]. split; [lia|].
      now apply write_pixels_done.
    + zbool. destruct (IH (acc ++ [Tuple vs']) b') as (k & Hk & Hle & Hrest).
      exists (S k). rewrite Hk. cbn [firstn skipn map length].
      rewrite <- app_assoc. cbn [app]. split; [reflexivity|].
      split; [lia | assumption].
Qed.

Lemma tuples_of_multiband (img : image) :
  multiband img ->
  exists pxs, getdata img = map Tuple pxs
              /\ Forall (fun vs => length vs = Z.to_nat (bands img)) pxs.
Proof.
  intros (_ & _ & Hall).
  induction Hall as [|p rest (vs & -> & Hvs) _ (pxs & E & Hpxs)].
  - exists []. split; [reflexivity | constructor].
  - exists (vs :: pxs). cbn [map]. rewrite E. split; [reflexivity|].
    constructor; [|assumption]. unfold len in Hvs. lia.
Qed.

(** Lines 67-88 on a multi-band image: every sample holds what the
    writer puts there, pixel by pixel. *)
Lemma hide_message_in_image_units
      (img : image) (message : list byte) (n : nat) (pxs : list (list Z)) :
  (1 <= n)%nat ->
  getdata img = map Tuple pxs ->
  Forall (fun vs => length vs = Z.to_nat (bands img)) pxs ->
  0 <= bands img ->
  len message < 2 ^ 32 ->
  len message * 8 + 32 <= max_bits_to_hide img (Z.of_nat n) (bands img) ->
  hide_message_in_image img message (Z.of_nat n) false
  = Ok (Image (width img) (height img) (bands img)
              (map Tuple (write_pixels (message_bools message) n pxs 0))).
Proof.
  intros Hn Hdata Hshape Hbands Hlen Hcap. unfold hide_message_in_image.
  cbn [negb]. zbool. cbn [bind].
  assert (Hbits : format_b 32 (len message)
                  ++ concat (map (fun byte => format_b 8 (byte_val byte)) message)
                  = map bit_char (message_bools message)).
  { unfold message_bools. rewrite map_app.
    rewrite format_b_bits by (pose proof (len_nonneg message); lia).
    f_equal. apply payload_bits_bools. }
  rewrite Hbits, Hdata.
  rewrite <- (Z2Nat.id (bands img)) at 1 by assumption.
  destruct (pixel_loop_from (message_bools message) n (Z.to_nat (bands img))
                            pxs Hn Hshape [] 0%nat) as (k & Hk & Hle & Hrest).
  change (Z.of_nat 0) with 0 in Hk. rewrite Hk. cbn [bind app].
  do 2 f_equal. unfold slice_from, clamp, len. rewrite !length_map.
  assert (Hkl : length (firstn k (write_pixels (message_bools message) n pxs 0))
                = k).
  { rewrite length_firstn.
    destruct (write_pixels_shape (message_bools message) n _ pxs Hshape 0%nat)
      as [_ ->]. lia. }
  rewrite Hkl. zbool. rewrite Z.min_l by lia. rewrite Nat2Z.id.
  rewrite skipn_map, <- Hrest, <- map_app. now rewrite firstn_skipn.
Qed.

Lemma format_lsbs_read (n : nat) (u e : Z) :
  (1 <= n)%nat ->
  extract_lsbs u (Z.of_nat n) = Ok e ->
  format_lsbs e (Z.of_nat n) = map bit_char (read_unit n u).
Proof.
  intros Hn He. rewrite extract_lsbs_bits in He by lia. injection He as <-.
  unfold format_lsbs, read_unit. rewrite Nat2Z.id.
  rewrite format_b_bits
    by (try lia; apply Z.mod_pos_bound, Z.pow_pos_nonneg; lia).
  unfold str_of_lsb. do 2 f_equal.
  unfold lsb_bits. apply map_ext_in. intros j Hj. apply in_seq in Hj.
  apply Z.mod_pow2_bits_low. lia.
Qed.

(** Lines 118-122 *)
Lemma recover_channels_from (n : nat) (vs : list Z) (m : nat) :
  (1 <= n)%nat ->
  forall (j0 : nat) (acc : str),
    (j0 + m <= length vs)%nat ->
    recover_channels (Z.of_nat n) (Tuple vs) (map Z.of_nat (seq j0 m)) acc
    = Ok (acc ++ map bit_char
                     (flat_map (read_unit n) (firstn m (skipn j0 vs)))).
Proof.
  intros Hn. induction m as [|m IH]; intros j0 acc Hle.
  - cbn. now rewrite app_nil_r.
  - cbn [seq map recover_channels pixel_getitem].
    destruct (nth_error vs j0) as [u|] eqn:Eu;
      [|apply nth_error_None in Eu; lia].
    rewrite (getitem_nat _ _ u Eu). cbn [bind].
    destruct (extract_lsbs u (Z.of_nat n)) as [e|] eqn:Ee;
      [|rewrite extract_lsbs_bits in Ee by lia; discriminate].
    cbn [bind]. rewrite (format_lsbs_read n u e Hn Ee).
    rewrite IH by lia. rewrite (skipn_cons_nth vs j0 u Eu).
    cbn [firstn flat_map]. now rewrite map_app, <- app_assoc.
Qed.

(** Lines 114-122 on tuples of [c <> 1] samples *)
Lemma recover_pixels_units (n c : nat) (pxs : list (list Z)) :
  (1 <= n)%nat -> c <> 1%nat ->
  Forall (fun vs => length vs = c) pxs ->
  forall acc,
    recover_pixels (Z.of_nat n) (Z.of_nat c) (map Tuple pxs) acc
    = Ok (acc ++ map bit_char (flat_map (read_unit n) (concat pxs))).
Proof.
  intros Hn Hc. induction 1 as [|vs rest Hvs _ IH]; intros acc.
  - cbn. now rewrite app_nil_r.
  - cbn [map recover_pixels].
    destruct (Z.eqb_spec (Z.of_nat c) 1) as [E|_]; [lia|].
    rewrite range_nat, recover_channels_from by (try assumption; lia).
    cbn [bind skipn]. rewrite IH, <- Hvs, firstn_all.
    cbn [concat]. now rewrite flat_map_app, map_app, <- app_assoc.
Qed.

(** Reading the samples back gives the bitstream, as long as it ends on
    a sample boundary. *)
Lemma read_write_units (M : list bool) (n : nat) (units : list Z) :
  (1 <= n)%nat ->
  forall (b q : nat),
    length M = (b + q * n)%nat -> (q <= length units)%nat ->
    firstn (q * n) (flat_map (read_unit n) (fst (write_units M n units b)))
    = skipn b M.
Proof.
  intros Hn. induction units as [|u rest IH]; intros b q HM Hq.
  - cbn [length] in Hq. assert (q = 0)%nat by lia. subst q.
    cbn [Nat.mul firstn]. rewrite skipn_all2 by lia. reflexivity.
  - destruct q as [|q].
    + cbn [Nat.mul firstn]. rewrite skipn_all2 by lia. reflexivity.
    + cbn [write_units].
      destruct (Nat.ltb_spec b (length M)) as [_|Hge]; [|nia].
      specialize (IH (b + n)%nat q ltac:(lia) ltac:(cbn [length] in Hq; lia)).
      destruct (write_units M n rest (b + n)) as [rest' b'].
      cbn [fst flat_map] in *.
      set (seg := firstn n (skipn b M)).
      assert (Hseg : length seg = n)
        by (subst seg; rewrite length_firstn, length_skipn; nia).
      rewrite read_written_unit by assumption.
      rewrite firstn_app, Hseg.
      rewrite (firstn_all2 (n := (S q * n)%nat) seg) by nia.
      replace (S q * n - n)%nat with (q * n)%nat by lia.
      rewrite IH. subst seg.
      rewrite Nat.add_comm, <- skipn_skipn. apply firstn_skipn.
Qed.

(** Lines 133-137 on the bits of whole bytes *)
Lemma bytes_loop_from (rest pre : list byte) :
  forall acc,
    bytes_loop (map bit_char (payload_bools (pre ++ rest)))
               (map (fun k => 8 * Z.of_nat k) (seq (length pre) (length rest)))
               acc
    = Ok (acc ++ map byte_val rest).
Proof.
  revert pre. induction rest as [|b rest IH]; intros pre acc.
  - cbn. now rewrite app_nil_r.
  - cbn [length seq map bytes_loop].
    rewrite slice_chunk, skipn_map, firstn_map.
    assert (E : firstn 8 (skipn (8 * length pre) (payload_bools (pre ++ b :: rest)))
                = rev (byte_bits b)).
    { unfold payload_bools. rewrite map_app, concat_app.
      fold (payload_bools pre). cbn [map concat].
      rewrite skipn_app, payload_bools_length, Nat.sub_diag.
      rewrite skipn_all2 by (rewrite payload_bools_length; lia).
      cbn [skipn app]. rewrite firstn_app, length_rev, byte_bits_length.
      rewrite Nat.sub_diag, firstn_O, app_nil_r.
      apply firstn_all2. rewrite length_rev, byte_bits_length. lia. }
    rewrite E. unfold len. rewrite length_map, length_rev, byte_bits_length.
    change (Z.of_nat 8 =? 8) with true. cbv iota.
    fold (str_of_lsb (byte_bits b)).
    rewrite int2_str_of_lsb
      by (intros E0; apply (f_equal (@length bool)) in E0;
          rewrite byte_bits_length in E0; discriminate).
    cbn [bind]. rewrite lsb_val_byte_bits.
    specialize (IH (pre ++ [b]) (acc ++ [byte_val b])).
    rewrite length_app, <- app_assoc in IH. cbn [length app] in IH.
    rewrite Nat.add_1_r in IH. rewrite IH.
    now rewrite <- app_assoc.
Qed.

(** Lines 124-140, once the collected bits start with the bitstream of
    a message. *)
Lemma decode_message_bits (message : list byte) (B : list bool) :
  len message < 2 ^ 32 ->
  firstn (length (message_bools message)) B = message_bools message ->
  (let message_bits := map bit_char B in
   message_length <- int2 (slice_to message_bits 32) ;;
   let message_bits :=
     slice message_bits 32 (32 + message_length * 8) in
   message_bytes <- bytes_loop message_bits (range3 0 (len message_bits) 8) [] ;;
   mapM byte_of_int message_bytes)
  = Ok message.
Proof.
  intros Hlen HB. cbv zeta.
  pose proof (len_nonneg message) as Hp.
  assert (HM : length (message_bools message) = (32 + 8 * length message)%nat).
  { unfold message_bools.
    now rewrite length_app, length_rev, lsb_bits_length, payload_bools_length. }
  rewrite HM in HB.
  assert (Hhead : firstn 32 B = rev (lsb_bits 32 (len message))).
  { replace (firstn 32 B)
      with (firstn 32 (firstn (32 + 8 * length message) B))
      by (rewrite firstn_firstn; f_equal; lia).
    rewrite HB. unfold message_bools.
    rewrite firstn_app, length_rev, lsb_bits_length.
    change (32 - 32)%nat with 0%nat. rewrite firstn_O, app_nil_r.
    apply firstn_all2. rewrite length_rev, lsb_bits_length. lia. }
  assert (Hbody : firstn (8 * length message) (skipn 32 B)
                  = payload_bools message).
  { rewrite firstn_skipn_comm, HB. unfold message_bools.
    rewrite skipn_app, length_rev, lsb_bits_length.
    change (32 - 32)%nat with 0%nat.
    rewrite skipn_all2 by (rewrite length_rev, lsb_bits_length; lia).
    reflexivity. }
  rewrite slice_to_nonneg, firstn_map by lia.
  change (Z.to_nat 32) with 32%nat. rewrite Hhead.
  fold (str_of_lsb (lsb_bits 32 (len message))).
  rewrite int2_str_of_lsb
    by (intros E; apply (f_equal (@length bool)) in E;
        rewrite lsb_bits_length in E; discriminate).
  cbn [bind]. rewrite lsb_val_lsb_bits by (change (Z.of_nat 32) with 32; lia).
  rewrite slice_nonneg by lia.
  rewrite skipn_map, firstn_map.
  change (Z.to_nat 32) with 32%nat.
  replace (Z.to_nat (32 + len message * 8 - 32)) with (8 * length message)%nat
    by (unfold len; lia).
  rewrite Hbody. unfold len at 1. rewrite length_map, payload_bools_length.
  rewrite range3_step8.
  replace ((8 * length message + 7) / 8)%nat with (length message).
  2:{ apply Nat.div_unique with (r := 7%nat); lia. }
  pose proof (bytes_loop_from message [] []) as E.
  cbn [app length] in E. rewrite E. cbn [bind app].
  rewrite mapM_map. rewrite (mapM_pure _ (fun b => b)).
  - now rewrite map_id.
  - intros b _. apply byte_of_int_val.
Qed.

(** The pixel codec round-trips when the bitstream ends on a sample
    boundary: multi-band image, message within capacity and shorter than
    [2^32] bytes, [32 + 8*len(message)] a multiple of [num_lsb]. *)
Lemma hide_recover_aligned (img : image) (message : list byte) (num_lsb : Z) :
  1 <= num_lsb <= 7 ->
  multiband img ->
  len message < 2 ^ 32 ->
  len message * 8 + 32 <= width img * height img * bands img * num_lsb ->
  (32 + 8 * len message) mod num_lsb = 0 ->
  exists stego,
    hide_message_in_image img message num_lsb false = Ok stego
    /\ recover_message_from_image stego num_lsb = Ok message.
Proof.
  intros Hn Hmb Hlen Hcap Halign.
  destruct (tuples_of_multiband img Hmb) as (pxs & Hdata & Hshape).
  destruct Hmb as (Hbands & Hsize & _).
  set (n := Z.to_nat num_lsb).
  assert (En : num_lsb = Z.of_nat n) by (subst n; lia).
  set (c := Z.to_nat (bands img)) in *.
  set (M := message_bools message).
  rewrite En.
  rewrite (hide_message_in_image_units img message n pxs)
    by (try assumption; try lia; unfold max_bits_to_hide; rewrite <- En; lia).
  eexists. split; [reflexivity|].
  unfold recover_message_from_image. cbn [getdata bands].
  destruct (write_pixels_shape M n c pxs Hshape 0%nat) as [Hshape' Hlen'].
  replace (bands img) with (Z.of_nat c) by (subst c; lia).
  rewrite recover_pixels_units by (try assumption; subst c n; lia).
  cbn [bind app]. rewrite concat_write_pixels.
  apply decode_message_bits; [assumption|].
  fold M.
  assert (HM : length M = (32 + 8 * length message)%nat).
  { subst M. unfold message_bools.
    now rewrite length_app, length_rev, lsb_bits_length, payload_bools_length. }
  assert (Hq : exists q, length M = (0 + q * n)%nat
                         /\ (q <= length (concat pxs))%nat).
  { apply Z.mod_divide in Halign; [|lia]. destruct Halign as [q Eq].
    pose proof (len_nonneg message) as Hp.
    assert (0 <= q) by nia.
    exists (Z.to_nat q). split; [rewrite HM; unfold len in *; nia|].
    rewrite (length_concat_uniform c) by assumption.
    rewrite Hdata in Hsize. unfold len in Hsize, Hcap, Eq.
    rewrite length_map in Hsize.
    assert (q * num_lsb <= Z.of_nat (length pxs) * bands img * num_lsb) by nia.
    assert (q <= Z.of_nat (length pxs) * bands img) by nia.
    subst c. nia. }
  destruct Hq as (q & Eq & Hq).
  rewrite Eq at 1. cbn [Nat.add].
  rewrite (read_write_units M n (concat pxs) ltac:(subst n; lia) 0%nat q Eq Hq).
  reflexivity.
Qed.

End PixelLoops.

(* ===================================================================== *)
(** * The pixel codec: round trip                                        *)
(* ===================================================================== *)

Section PixelCodec.

Import Lemma.

(** C3 (round trip of the pixel codec).  On a multi-band image the
    message comes back whenever its bitstream, [32 + 8*len(message)]
    bits, ends on a sample boundary.  It does not in general: a one-byte
    message [0x01] fits the 2 x 3 RGB image at [num_lsb = 3]
    ([40 <= 54] bits); its 40 bits end in a group of one bit, which
    [int(bit_segment, 2)] turns into the value 1, so the sample receives
    [001] where the reader expects the bit first, [100]; the message
    comes back as [0x00].  On a single-band image, which the reader
    handles, the writer raises [TypeError]. *)
Theorem hide_recover_round_trip :
  (forall (img : image) (message : list byte) (num_lsb : Z),
      1 <= num_lsb <= 7 ->
      multiband img ->
      len message < 2 ^ 32 ->
      len message * 8 + 32 <= width img * height img * bands img * num_lsb ->
      (32 + 8 * len message) mod num_lsb = 0 ->
      exists stego,
        hide_message_in_image img message num_lsb false = Ok stego
        /\ recover_message_from_image stego num_lsb = Ok message)
  /\ (max_bits_to_hide rgb_2x3 3 3 = 54
      /\ len [x01] * 8 + 32 <= max_bits_to_hide rgb_2x3 3 3
      /\ (32 + 8 * len [x01]) mod 3 = 1
      /\ exists stego,
          hide_message_in_image rgb_2x3 [x01] 3 false = Ok stego
          /\ nth_error (getdata stego) 4 = Some (Tuple [248; 249; 255])
          /\ recover_message_from_image stego 3 = Ok [x00])
  /\ (hide_message_in_image gray_10x10 [x01] 3 false
      = Raise (TypeError "'int' object is not iterable")
      /\ is_ok (recover_message_from_image gray_10x10 3) = true).
Proof.
  split; [exact hide_recover_aligned|]. split.
  - split; [reflexivity|]. split; [vm_compute; discriminate|].
    split; [reflexivity|].
    eexists. split; [vm_compute; reflexivity|].
    split; vm_compute; reflexivity.
  - split; vm_compute; reflexivity.
Qed.

(** The example at the end of [lemma_module.py], 48 bits at
    [num_lsb = 2], where the round trip holds. *)
Lemma hide_recover_round_trip_witness :
  exists stego,
    hide_message_in_image rgb_4x4 ["H"%byte; "i"%byte] 2 false = Ok stego
    /\ recover_message_from_image stego 2 = Ok ["H"%byte; "i"%byte].
Proof.
  apply (proj1 hide_recover_round_trip rgb_4x4 ["H"%byte; "i"%byte] 2).
  - lia.
  - split; [cbn; lia|]. split; [reflexivity|].
    repeat constructor; eexists; split; reflexivity.
  - vm_compute. reflexivity.
  - vm_compute. discriminate.
  - reflexivity.
Defined.

End PixelCodec.

(* ===================================================================== *)
(** * The byte codec: validation, over-commitment, overwriting           *)
(* ===================================================================== *)

Section BravoCoverage.

(** Validation that passes leaves [num_lsb] within [1, 7]. *)
Lemma validate_inputs_inv (carrier payload : Bravo.arg) (num_lsb byte_depth : Z) :
  Bravo.validate_inputs carrier payload num_lsb byte_depth = Ok tt ->
  exists c p, carrier = Bravo.Bytes c /\ payload = Bravo.Bytes p
              /\ 1 <= num_lsb <= 7
              /\ len p * 8 <= len c * num_lsb * byte_depth.
Proof.
  unfold Bravo.validate_inputs.
  destruct carrier as [c|s]; cbn [Bravo.isinstance_bytes negb]; [|discriminate].
  destruct payload as [p|s]; cbn [Bravo.isinstance_bytes negb]; [|discriminate].
  cbn [Bravo.arg_len].
  destruct (Z.ltb_spec num_lsb 1); cbn [orb]; [discriminate|].
  destruct (Z.ltb_spec 7 num_lsb); [discriminate|].
  destruct (Z.ltb_spec (len c * num_lsb * byte_depth) (len p * 8));
    [discriminate|].
  intros _. exists c, p. repeat split; lia.
Qed.

(** Lines 28-49 once validation has passed, whatever [byte_depth] is. *)
Lemma lsb_interleave_bytes_embedded
      (carrier payload : list byte) (num_lsb byte_depth : Z) (truncate : bool) :
  1 <= num_lsb <= 7 ->
  len payload * 8 <= len carrier * num_lsb * byte_depth ->
  Bravo.lsb_interleave_bytes (Bravo.Bytes carrier) (Bravo.Bytes payload)
                             num_lsb truncate byte_depth
  = Ok (if truncate
        then slice_to (embedded carrier payload num_lsb)
                      ((len payload * 8 + num_lsb - 1) / num_lsb)
        else embedded carrier payload num_lsb).
Proof.
  intros Hn Hcap. unfold Bravo.lsb_interleave_bytes.
  rewrite validate_inputs_ok by lia. cbn [bind Bravo.bit_strings Bravo.arg_len].
  rewrite payload_bits_bools, carrier_bits_units.
  destruct (outer_loop_units (payload_bools payload) (Z.to_nat num_lsb)
                             (map byte_bits carrier)) as [k' Hk'].
  { eapply Forall_impl; [|apply byte_units_width].
    cbn. intros u ->. lia. }
  rewrite Z2Nat.id in Hk' by lia. rewrite Hk'. cbn [bind].
  rewrite bytes_of_bit_strings_units
    by (apply embed_units_width; [lia | apply byte_units_width]).
  cbn [bind]. now destruct truncate.
Qed.

(** [lsb_interleave_bytes] fails in [validate_inputs] and nowhere
    else: an exception of the validation is the exception of the call,
    and once the validation passes the loops and the conversions return,
    for every [byte_depth]; without truncation the result is as long as
    the carrier. *)
Theorem lsb_interleave_bytes_fails_in_validation_only
        (carrier payload : Bravo.arg) (num_lsb byte_depth : Z) (truncate : bool) :
  (forall e,
      Bravo.validate_inputs carrier payload num_lsb byte_depth = Raise e ->
      Bravo.lsb_interleave_bytes carrier payload num_lsb truncate byte_depth
      = Raise e)
  /\ (Bravo.validate_inputs carrier payload num_lsb byte_depth = Ok tt ->
      exists stego,
        Bravo.lsb_interleave_bytes carrier payload num_lsb truncate byte_depth
        = Ok stego
        /\ (truncate = false -> len stego = Bravo.arg_len carrier)).
Proof.
  split.
  - intros e He. unfold Bravo.lsb_interleave_bytes. now rewrite He.
  - intros Hv.
    destruct (validate_inputs_inv _ _ _ _ Hv) as (c & p & -> & -> & Hn & Hcap).
    rewrite lsb_interleave_bytes_embedded by assumption.
    eexists. split; [reflexivity|]. intros ->.
    cbn [Bravo.arg_len]. unfold len. now rewrite embedded_length.
Qed.

Lemma lsb_interleave_bytes_fails_in_validation_only_witness :
  exists stego,
    Bravo.lsb_interleave_bytes (Bravo.Bytes [xff; xff]) (Bravo.Bytes [xaa; xaa])
                               4 false 2 = Ok stego
    /\ (false = false -> len stego = Bravo.arg_len (Bravo.Bytes [xff; xff])).
Proof.
  apply (proj2 (lsb_interleave_bytes_fails_in_validation_only
                  (Bravo.Bytes [xff; xff]) (Bravo.Bytes [xaa; xaa]) 4 2 false)).
  reflexivity.
Defined.

Lemma firstn_add {A} (a b : nat) (l : list A) :
  firstn (a + b) l = firstn a l ++ firstn b (skipn a l).
Proof.
  rewrite <- (firstn_skipn a (firstn (a + b) l)).
  rewrite firstn_firstn, Nat.min_l by lia.
  now rewrite <- firstn_skipn_comm.
Qed.

(** Units that are filled to the last one hold the head of the
    bitstream and nothing else. *)
Lemma extract_embed_units_full (n : nat) (units : list (list bool)) :
  (1 <= n)%nat ->
  forall P : list bool,
    (n * length units <= length P)%nat ->
    flat_map (firstn n) (embed_units n units P)
    = firstn (n * length units) P.
Proof.
  intros Hn. induction units as [|u rest IH]; intros P HP.
  - cbn [length]. now rewrite Nat.mul_0_r.
  - cbn [length] in HP.
    destruct P as [|c P]; [cbn [length] in HP; lia|].
    cbn [embed_units flat_map]. set (Q := c :: P) in *.
    assert (E1 : firstn n (firstn n Q ++ skipn (length (firstn n Q)) u)
                 = firstn n Q).
    { rewrite firstn_app, length_firstn, Nat.min_l by lia.
      rewrite Nat.sub_diag, firstn_O, app_nil_r, firstn_firstn.
      now rewrite Nat.min_id. }
    rewrite E1, IH by (rewrite length_skipn; lia).
    cbn [length]. replace (n * S (length rest))%nat
      with (n + n * length rest)%nat by lia.
    now rewrite firstn_add.
Qed.

(** [byte_depth] enters the capacity check and nothing else.  A
    payload between [len(carrier) * num_lsb] bits and [byte_depth] times
    as much passes the validation; the loop stops at the end of the
    carrier, so only the first [len(carrier) * num_lsb] bits are stored
    and extraction returns those bits, however many are asked for. *)
Theorem byte_depth_overcommits
        (carrier payload : list byte) (num_lsb byte_depth : Z) :
  1 <= num_lsb <= 7 ->
  len carrier * num_lsb <= len payload * 8 ->
  len payload * 8 <= len carrier * num_lsb * byte_depth ->
  exists stego,
    Bravo.lsb_interleave_bytes (Bravo.Bytes carrier) (Bravo.Bytes payload)
                               num_lsb false byte_depth = Ok stego
    /\ len stego = len carrier
    /\ forall num_bits,
        0 <= num_bits ->
        Bravo.lsb_deinterleave_bytes (Bravo.Bytes stego) num_bits num_lsb
                                     byte_depth
        = Ok (group_bytes
                (firstn (Z.to_nat (Z.min num_bits (len carrier * num_lsb)))
                        (payload_bools payload))).
Proof.
  intros Hn Hfull Hcap.
  rewrite lsb_interleave_bytes_embedded by assumption.
  eexists. split; [reflexivity|]. split.
  - unfold len. now rewrite embedded_length.
  - intros num_bits Hb.
    rewrite lsb_deinterleave_bytes_spec by lia.
    unfold embedded.
    rewrite extracted_bools_units
      by (apply embed_units_width; [lia | apply byte_units_width]).
    rewrite extract_embed_units_full.
    + rewrite firstn_firstn, length_map, Z2Nat.inj_min. unfold len.
      rewrite Z2Nat.inj_mul, Nat2Z.id by lia.
      now rewrite (Nat.mul_comm (length carrier)).
    + lia.
    + rewrite length_map, payload_bools_length. unfold len in Hfull. nia.
Qed.

Lemma byte_depth_overcommits_witness :
  exists stego,
    Bravo.lsb_interleave_bytes (Bravo.Bytes [x00; x00]) (Bravo.Bytes [xff; xff])
                               4 false 2 = Ok stego
    /\ len stego = len [x00; x00]
    /\ forall num_bits,
        0 <= num_bits ->
        Bravo.lsb_deinterleave_bytes (Bravo.Bytes stego) num_bits 4 2
        = Ok (group_bytes
                (firstn (Z.to_nat (Z.min num_bits (len [x00; x00] * 4)))
                        (payload_bools [xff; xff]))).
Proof.
  apply (byte_depth_overcommits [x00; x00] [xff; xff] 4 2);
    vm_compute; try discriminate; split; discriminate.
Defined.

(** Extraction returns for every carrier, every [num_lsb] from 0
    to 8 and every [num_bits >= 0]; the payload has one byte for every
    started group of eight among the bits that are there. *)
Theorem lsb_deinterleave_bytes_length
        (carrier : list byte) (num_bits num_lsb byte_depth : Z) :
  0 <= num_lsb <= 8 -> 0 <= num_bits ->
  exists payload,
    Bravo.lsb_deinterleave_bytes (Bravo.Bytes carrier) num_bits num_lsb
                                 byte_depth = Ok payload
    /\ len payload = (Z.min num_bits (len carrier * num_lsb) + 7) / 8.
Proof.
  intros Hn Hb. rewrite lsb_deinterleave_bytes_spec by assumption.
  eexists. split; [reflexivity|].
  rewrite group_bytes_length. unfold len.
  rewrite length_firstn, extracted_bools_length by lia.
  f_equal. lia.
Qed.

Lemma lsb_deinterleave_bytes_length_witness :
  exists payload,
    Bravo.lsb_deinterleave_bytes (Bravo.Bytes [xff; x00; xff]) 7 3 1 = Ok payload
    /\ len payload = (Z.min 7 (len [xff; x00; xff] * 3) + 7) / 8.
Proof.
  apply (lsb_deinterleave_bytes_length [xff; x00; xff] 7 3 1); lia.
Defined.

(** The round trip for every [byte_depth >= 1], as the test suite tries
    it for 1, 2 and 3: when the payload fits the low bits of the carrier
    itself, the embedding returns and the extraction gives the payload
    back, with or without truncation. *)
Theorem lsb_round_trip_any_byte_depth
        (carrier payload : list byte) (num_lsb byte_depth : Z) (truncate : bool) :
  1 <= num_lsb <= 7 -> 1 <= byte_depth ->
  len payload * 8 <= len carrier * num_lsb ->
  exists stego,
    Bravo.lsb_interleave_bytes (Bravo.Bytes carrier) (Bravo.Bytes payload)
                               num_lsb truncate byte_depth = Ok stego
    /\ Bravo.lsb_deinterleave_bytes (Bravo.Bytes stego) (len payload * 8)
                                    num_lsb byte_depth = Ok payload.
Proof.
  intros Hn Hd Hcap.
  pose proof (len_nonneg payload) as Hp. pose proof (len_nonneg carrier) as Hc.
  rewrite lsb_interleave_bytes_embedded by (try lia; nia).
  eexists. split; [reflexivity|].
  rewrite lsb_deinterleave_bytes_spec by lia.
  rewrite <- (lsb_deinterleave_bytes_spec _ _ _ 1) by lia.
  destruct truncate.
  - rewrite slice_to_nonneg
      by (apply Z.div_pos; lia).
    now apply deinterleave_truncated.
  - unfold embedded. apply deinterleave_embedded; try assumption.
    + apply byte_units_width.
    + now rewrite len_map.
Qed.

Lemma lsb_round_trip_any_byte_depth_witness :
  exists stego,
    Bravo.lsb_interleave_bytes (Bravo.Bytes (repeat xff 16))
                               (Bravo.Bytes [xde; xad; xbe; xef])
                               2 false 3 = Ok stego
    /\ Bravo.lsb_deinterleave_bytes (Bravo.Bytes stego)
                                    (len [xde; xad; xbe; xef] * 8) 2 3
       = Ok [xde; xad; xbe; xef].
Proof.
  apply (lsb_round_trip_any_byte_depth (repeat xff 16) [xde; xad; xbe; xef]
                                       2 3 false);
    [lia | lia | vm_compute; discriminate].
Defined.

Lemma extract_byte_app (carrier_bits : str) (js1 js2 : list Z) :
  forall acc,
    Bravo.extract_byte carrier_bits (js1 ++ js2) acc
    = (acc' <- Bravo.extract_byte carrier_bits js1 acc ;;
       Bravo.extract_byte carrier_bits js2 acc').
Proof.
  induction js1 as [|j js1 IH]; intros acc; [reflexivity|].
  cbn [app Bravo.extract_byte].
  destruct (getitem carrier_bits (-1 - j)); cbn [bind]; [apply IH | reflexivity].
Qed.

(** [lsb_deinterleave_bytes] does not validate [num_lsb]: with
    nine or more the ninth read of the first carrier byte is out of
    range, with none or fewer nothing is read and the payload is empty. *)
Theorem lsb_deinterleave_bytes_unchecked_num_lsb
        (carrier : list byte) (num_bits num_lsb byte_depth : Z) :
  (9 <= num_lsb -> carrier <> [] ->
   exists msg,
     Bravo.lsb_deinterleave_bytes (Bravo.Bytes carrier) num_bits num_lsb
                                  byte_depth = Raise (IndexError msg))
  /\ (num_lsb <= 0 ->
      Bravo.lsb_deinterleave_bytes (Bravo.Bytes carrier) num_bits num_lsb
                                   byte_depth = Ok []).
Proof.
  split.
  - intros Hn Hne. destruct carrier as [|b rest]; [contradiction|].
    unfold Bravo.lsb_deinterleave_bytes. cbn [Bravo.extract_loop].
    rewrite <- (Z2Nat.id num_lsb) by lia. rewrite range_nat.
    replace (Z.to_nat num_lsb) with (8 + S (Z.to_nat num_lsb - 9))%nat by lia.
    rewrite seq_app, map_app, extract_byte_app, format_08b_bits.
    rewrite extract_byte_from by (rewrite byte_bits_length; lia).
    cbn [bind Nat.add seq map Bravo.extract_byte].
    unfold getitem, norm_index, len, str_of_lsb.
    rewrite length_map, length_rev, byte_bits_length. eexists. reflexivity.
  - intros Hn. unfold Bravo.lsb_deinterleave_bytes.
    assert (E : range num_lsb = []).
    { unfold range, range2. now replace (Z.to_nat (num_lsb - 0)) with 0%nat by lia. }
    assert (Hloop : forall c acc, Bravo.extract_loop num_lsb c acc = Ok acc).
    { induction c as [|b c IH]; intros acc; [reflexivity|].
      cbn [Bravo.extract_loop]. rewrite E. cbn [Bravo.extract_byte bind].
      apply IH. }
    rewrite Hloop. cbn [bind]. unfold slice_to. now rewrite firstn_nil.
Qed.

Lemma lsb_deinterleave_bytes_unchecked_num_lsb_witness :
  (exists msg,
      Bravo.lsb_deinterleave_bytes (Bravo.Bytes [xff]) 8 9 1
      = Raise (IndexError msg))
  /\ Bravo.lsb_deinterleave_bytes (Bravo.Bytes [xff]) 8 0 1 = Ok [].
Proof.
  split.
  - apply (proj1 (lsb_deinterleave_bytes_unchecked_num_lsb [xff] 8 9 1));
      [lia | discriminate].
  - apply (proj2 (lsb_deinterleave_bytes_unchecked_num_lsb [xff] 8 0 1)). lia.
Defined.

Lemma byte_bits_of_units (units : list (list bool)) :
  Forall (fun u => length u = 8%nat) units ->
  map byte_bits (map unit_byte units) = units.
Proof.
  induction 1 as [|u rest Hu _ IH]; [reflexivity|].
  cbn [map]. now rewrite byte_bits_unit_byte, IH.
Qed.

(** A bitstream written over a shorter one leaves no trace of it. *)
Lemma embed_units_overwrite (n : nat) (units : list (list bool)) :
  forall P1 P2 : list bool,
    (length P1 <= length P2)%nat ->
    embed_units n (embed_units n units P1) P2 = embed_units n units P2.
Proof.
  induction units as [|u rest IH]; intros P1 P2 Hle; [reflexivity|].
  destruct P1 as [|c1 P1]; [reflexivity|].
  destruct P2 as [|c2 P2]; [cbn [length] in Hle; lia|].
  cbn [embed_units]. set (Q1 := c1 :: P1) in *. set (Q2 := c2 :: P2) in *.
  f_equal.
  - f_equal. rewrite skipn_app.
    rewrite (skipn_all2 (firstn n Q1)) by (rewrite !length_firstn; lia).
    cbn [app]. rewrite skipn_skipn. f_equal.
    rewrite !length_firstn. lia.
  - apply IH. rewrite !length_skipn. lia.
Qed.

Lemma embedded_overwrite (carrier p1 p2 : list byte) (num_lsb : Z) :
  0 <= num_lsb <= 8 -> len p1 <= len p2 ->
  embedded (embedded carrier p1 num_lsb) p2 num_lsb = embedded carrier p2 num_lsb.
Proof.
  intros Hn Hle. unfold embedded at 1 3.
  unfold embedded. rewrite byte_bits_of_units
    by (apply embed_units_width; [lia | apply byte_units_width]).
  rewrite embed_units_overwrite; [reflexivity|].
  rewrite !payload_bools_length. unfold len in Hle. lia.
Qed.

(** Embedding a payload into a carrier that already holds one of at most
    the same length gives what embedding it into the fresh carrier
    gives: the second payload overwrites the first without a trace.  In
    particular embedding the same payload again changes nothing. *)
Theorem lsb_interleave_bytes_overwrites
        (carrier p1 p2 : list byte) (num_lsb : Z) :
  1 <= num_lsb <= 7 ->
  len p1 <= len p2 ->
  len p2 * 8 <= len carrier * num_lsb ->
  exists s1 s2,
    Bravo.lsb_interleave_bytes (Bravo.Bytes carrier) (Bravo.Bytes p1)
                               num_lsb false 1 = Ok s1
    /\ Bravo.lsb_interleave_bytes (Bravo.Bytes carrier) (Bravo.Bytes p2)
                                  num_lsb false 1 = Ok s2
    /\ Bravo.lsb_interleave_bytes (Bravo.Bytes s1) (Bravo.Bytes p2)
                                  num_lsb false 1 = Ok s2
    /\ Bravo.lsb_interleave_bytes (Bravo.Bytes s2) (Bravo.Bytes p2)
                                  num_lsb false 1 = Ok s2.
Proof.
  intros Hn Hle Hcap.
  exists (embedded carrier p1 num_lsb), (embedded carrier p2 num_lsb).
  assert (Hl : forall p, len (embedded carrier p num_lsb) = len carrier)
    by (intros p; unfold len; now rewrite embedded_length).
  split; [apply (lsb_interleave_bytes_spec carrier p1 num_lsb false); lia|].
  split; [apply (lsb_interleave_bytes_spec carrier p2 num_lsb false); lia|].
  split.
  - rewrite lsb_interleave_bytes_spec by (rewrite ?Hl; lia).
    now rewrite embedded_overwrite by lia.
  - rewrite lsb_interleave_bytes_spec by (rewrite ?Hl; lia).
    now rewrite embedded_overwrite by lia.
Qed.

Lemma lsb_interleave_bytes_overwrites_witness :
  exists s1 s2,
    Bravo.lsb_interleave_bytes (Bravo.Bytes [xff; xff; xff; xff])
                               (Bravo.Bytes [x00]) 4 false 1 = Ok s1
    /\ Bravo.lsb_interleave_bytes (Bravo.Bytes [xff; xff; xff; xff])
                                  (Bravo.Bytes [xde; xad]) 4 false 1 = Ok s2
    /\ Bravo.lsb_interleave_bytes (Bravo.Bytes s1) (Bravo.Bytes [xde; xad])
                                  4 false 1 = Ok s2
    /\ Bravo.lsb_interleave_bytes (Bravo.Bytes s2) (Bravo.Bytes [xde; xad])
                                  4 false 1 = Ok s2.
Proof.
  apply (lsb_interleave_bytes_overwrites [xff; xff; xff; xff] [x00] [xde; xad] 4);
    vm_compute; try discriminate; split; discriminate.
Defined.

Lemma firstn_lsb_bits (n w : nat) (v : Z) :
  (n <= w)%nat -> firstn n (lsb_bits w v) = lsb_bits n v.
Proof.
  intros Hle. unfold lsb_bits. rewrite firstn_map. f_equal.
  replace w with (n + (w - n))%nat by lia.
  rewrite seq_app, firstn_app, length_seq, Nat.sub_diag, firstn_O, app_nil_r.
  apply firstn_all2. rewrite length_seq. lia.
Qed.

Lemma lsb_bits_mod (n : nat) (v : Z) :
  lsb_bits n (v mod 2 ^ Z.of_nat n) = lsb_bits n v.
Proof.
  unfold lsb_bits. apply map_ext_in. intros j Hj. apply in_seq in Hj.
  apply Z.mod_pow2_bits_low. lia.
Qed.

(** Extraction reads the low [num_lsb] bits of every carrier byte and
    nothing else: two carriers that agree on those bits give the same
    payload. *)
Theorem lsb_deinterleave_bytes_reads_low_bits
        (c1 c2 : list byte) (num_bits num_lsb byte_depth : Z) :
  0 <= num_lsb <= 8 -> 0 <= num_bits ->
  Forall2 (fun a b => byte_val a mod 2 ^ num_lsb = byte_val b mod 2 ^ num_lsb)
          c1 c2 ->
  Bravo.lsb_deinterleave_bytes (Bravo.Bytes c1) num_bits num_lsb byte_depth
  = Bravo.lsb_deinterleave_bytes (Bravo.Bytes c2) num_bits num_lsb byte_depth.
Proof.
  intros Hn Hb Hall. rewrite !lsb_deinterleave_bytes_spec by assumption.
  do 3 f_equal. unfold extracted_bools.
  induction Hall as [|a b r1 r2 Hab _ IH]; [reflexivity|].
  cbn [flat_map]. rewrite IH. f_equal.
  unfold byte_bits. rewrite !firstn_lsb_bits by lia.
  rewrite <- (lsb_bits_mod _ (byte_val a)), <- (lsb_bits_mod _ (byte_val b)).
  rewrite Z2Nat.id by lia. now rewrite Hab.
Qed.

Lemma lsb_deinterleave_bytes_reads_low_bits_witness :
  Bravo.lsb_deinterleave_bytes (Bravo.Bytes [xf3; x0a]) 4 2 1
  = Bravo.lsb_deinterleave_bytes (Bravo.Bytes [x03; xfe]) 4 2 1.
Proof.
  apply (lsb_deinterleave_bytes_reads_low_bits [xf3; x0a] [x03; xfe] 4 2 1);
    [lia | lia |].
  repeat constructor.
Defined.

Lemma group_bytes_firstn (B : list bool) (k : nat) :
  (8 * k <= length B)%nat ->
  group_bytes (firstn (8 * k) B) = firstn k (group_bytes B).
Proof.
  intros Hk. unfold group_bytes.
  rewrite length_firstn, Nat.min_l by assumption.
  replace ((8 * k + 7) / 8)%nat with k
    by (apply Nat.div_unique with (r := 7%nat); lia).
  rewrite firstn_map.
  assert (Hq : (k <= (length B + 7) / 8)%nat).
  { apply Nat.div_le_lower_bound; lia. }
  replace (firstn k (seq 0 ((length B + 7) / 8))) with (seq 0 k).
  2:{ replace ((length B + 7) / 8)%nat
        with (k + ((length B + 7) / 8 - k))%nat by lia.
      rewrite seq_app, firstn_app, length_seq, Nat.sub_diag, firstn_O, app_nil_r.
      symmetry. apply firstn_all2. rewrite length_seq. lia. }
  apply map_ext_in. intros j Hj. apply in_seq in Hj.
  do 2 f_equal.
  rewrite !firstn_skipn_comm, firstn_firstn. do 2 f_equal. lia.
Qed.

(** Asking for fewer whole bytes returns a prefix of what asking for
    more returns. *)
Theorem lsb_deinterleave_bytes_prefix
        (carrier : list byte) (k num_bits num_lsb byte_depth : Z) :
  0 <= num_lsb <= 8 -> 0 <= k -> 8 * k <= num_bits ->
  exists short long,
    Bravo.lsb_deinterleave_bytes (Bravo.Bytes carrier) (8 * k) num_lsb byte_depth
    = Ok short
    /\ Bravo.lsb_deinterleave_bytes (Bravo.Bytes carrier) num_bits num_lsb
                                    byte_depth = Ok long
    /\ short = firstn (Z.to_nat k) long.
Proof.
  intros Hn Hk Hle. rewrite !lsb_deinterleave_bytes_spec by lia.
  do 2 eexists. split; [reflexivity|]. split; [reflexivity|].
  set (E := extracted_bools (Z.to_nat num_lsb) carrier).
  replace (Z.to_nat (8 * k)) with (8 * Z.to_nat k)%nat by lia.
  destruct (Nat.le_gt_cases (8 * Z.to_nat k) (length E)) as [Hin|Hout].
  - rewrite <- group_bytes_firstn
      by (rewrite length_firstn; lia).
    rewrite firstn_firstn. do 2 f_equal. lia.
  - rewrite !(firstn_all2 E) by lia.
    symmetry. apply firstn_all2.
    pose proof (group_bytes_length E) as Hg. unfold len in Hg.
    assert ((Z.of_nat (length E) + 7) / 8 < k + 1); [|lia].
    apply Z.div_lt_upper_bound; lia.
Qed.

Lemma lsb_deinterleave_bytes_prefix_witness :
  exists short long,
    Bravo.lsb_deinterleave_bytes (Bravo.Bytes (repeat xa5 8)) (8 * 1) 2 1
    = Ok short
    /\ Bravo.lsb_deinterleave_bytes (Bravo.Bytes (repeat xa5 8)) 16 2 1 = Ok long
    /\ short = firstn (Z.to_nat 1) long.
Proof.
  apply (lsb_deinterleave_bytes_prefix (repeat xa5 8) 1 16 2 1); lia.
Defined.

End BravoCoverage.
(* ===================================================================== *)
(** * The second copy of the byte codec against the first                *)
(* ===================================================================== *)

Section LegacyCoverage.

(** Lines 62-64 for any [num_bits]: the guard lets through as many bits
    as are still missing. *)
Lemma legacy_extract_byte_guard (num_bits : Z) (u : list bool) (m : nat) :
  forall (j0 : nat) (acc : list ascii),
    (j0 + m <= length u)%nat ->
    BravoLegacy.extract_byte num_bits (str_of_lsb u)
                             (map Z.of_nat (seq j0 m)) acc
    = Ok (acc ++ map bit_char
                     (firstn (Z.to_nat (num_bits - len acc))
                             (firstn m (skipn j0 u)))).
Proof.
  induction m as [|m IH]; intros j0 acc Hle.
  - cbn [seq map BravoLegacy.extract_byte firstn].
    now rewrite firstn_nil, app_nil_r.
  - cbn [seq map BravoLegacy.extract_byte].
    destruct (nth_error u j0) as [c|] eqn:Ec;
      [|apply nth_error_None in Ec; lia].
    rewrite (skipn_cons_nth u j0 c Ec). cbn [firstn].
    destruct (Z.ltb_spec (len acc) num_bits) as [Hlt|Hge].
    + unfold str_of_lsb at 1. rewrite map_rev.
      rewrite (getitem_from_end _ _ (bit_char c))
        by now rewrite nth_error_map, Ec.
      cbn [bind]. rewrite IH by lia.
      rewrite len_app. change (len [bit_char c]) with 1.
      replace (Z.to_nat (num_bits - len acc))
        with (S (Z.to_nat (num_bits - (len acc + 1)))) by lia.
      cbn [firstn map]. now rewrite <- app_assoc.
    + rewrite IH by lia.
      now replace (Z.to_nat (num_bits - len acc)) with 0%nat by lia.
Qed.

(** Lines 60-64 for any [num_bits] *)
Lemma legacy_extract_loop_guard (num_bits : Z) (n : nat)
      (rest : list (list bool)) :
  forall (pre : list (list bool)) (acc : list ascii),
    Forall (fun u => (n <= length u)%nat) rest ->
    BravoLegacy.extract_loop num_bits (Z.of_nat n)
                             (map str_of_lsb (pre ++ rest))
                             (map Z.of_nat (seq (length pre) (length rest)))
                             acc
    = Ok (acc ++ map bit_char
                     (firstn (Z.to_nat (num_bits - len acc))
                             (flat_map (firstn n) rest))).
Proof.
  induction rest as [|u rest IH]; intros pre acc Hall.
  - cbn [length seq map BravoLegacy.extract_loop flat_map].
    now rewrite firstn_nil, app_nil_r.
  - inversion Hall as [|? ? Hu Hrest]; subst.
    cbn [length seq map BravoLegacy.extract_loop].
    rewrite (getitem_nat _ _ (str_of_lsb u))
      by (rewrite nth_error_map, nth_error_app2, Nat.sub_diag by lia;
          reflexivity).
    cbn [bind]. rewrite range_nat.
    rewrite legacy_extract_byte_guard by lia. cbn [bind skipn].
    specialize (IH (pre ++ [u]) (acc ++ map bit_char
                     (firstn (Z.to_nat (num_bits - len acc)) (firstn n u)))
                   Hrest).
    rewrite length_app, <- app_assoc in IH. cbn [length app] in IH.
    rewrite Nat.add_1_r in IH. rewrite IH. clear IH.
    rewrite <- app_assoc, <- map_app. do 3 f_equal.
    cbn [flat_map]. rewrite firstn_app. f_equal.
    rewrite len_app, len_map. unfold len.
    rewrite !length_firstn. f_equal. lia.
Qed.

Lemma legacy_deinterleave_spec (carrier : list byte) (num_bits num_lsb : Z) :
  0 <= num_lsb <= 8 -> 0 <= num_bits ->
  BravoLegacy.lsb_deinterleave_bytes (Bravo.Bytes carrier) num_bits num_lsb
  = Ok (group_bytes (firstn (Z.to_nat num_bits)
                            (extracted_bools (Z.to_nat num_lsb) carrier))).
Proof.
  intros Hn Hb. unfold BravoLegacy.lsb_deinterleave_bytes.
  cbn [Bravo.bit_strings bind]. rewrite carrier_bits_units, range_len.
  replace (BravoLegacy.extract_loop num_bits num_lsb)
    with (BravoLegacy.extract_loop num_bits (Z.of_nat (Z.to_nat num_lsb)))
    by (now rewrite Z2Nat.id by lia).
  pose proof (legacy_extract_loop_guard
                num_bits (Z.to_nat num_lsb) (map byte_bits carrier) [] []) as E.
  cbn [length app] in E. rewrite !length_map. rewrite length_map in E.
  rewrite E.
  2:{ eapply Forall_impl; [|apply byte_units_width]. cbn. intros u ->. lia. }
  cbn [bind app BravoLegacy.try_except]. change (len []) with 0.
  rewrite Z.sub_0_r, flat_map_byte_bits.
  rewrite slice_to_nonneg, firstn_map, firstn_firstn, Nat.min_id by assumption.
  now rewrite bytes_of_bits_groups.
Qed.

(** The extraction of [Image Steganography/Bravo.py], with its guard on
    the number of collected bits and its [try], returns what the
    extraction of [bravo_module.py] returns, for every carrier, every
    [num_lsb] from 0 to 8 and every [num_bits >= 0]. *)
Theorem legacy_deinterleave_agrees
        (carrier : list byte) (num_bits num_lsb byte_depth : Z) :
  0 <= num_lsb <= 8 -> 0 <= num_bits ->
  BravoLegacy.lsb_deinterleave_bytes (Bravo.Bytes carrier) num_bits num_lsb
  = Bravo.lsb_deinterleave_bytes (Bravo.Bytes carrier) num_bits num_lsb
                                 byte_depth.
Proof.
  intros Hn Hb.
  now rewrite legacy_deinterleave_spec, lsb_deinterleave_bytes_spec.
Qed.

Lemma legacy_deinterleave_agrees_witness :
  BravoLegacy.lsb_deinterleave_bytes (Bravo.Bytes [xfb; xff; xfd]) 8 3
  = Bravo.lsb_deinterleave_bytes (Bravo.Bytes [xfb; xff; xfd]) 8 3 1.
Proof.
  apply (legacy_deinterleave_agrees [xfb; xff; xfd] 8 3 1); lia.
Defined.

Lemma legacy_validate_inputs (carrier payload : Bravo.arg) (num_lsb : Z) :
  BravoLegacy.validate_inputs carrier payload num_lsb
  = Bravo.validate_inputs carrier payload num_lsb 1.
Proof.
  unfold BravoLegacy.validate_inputs, Bravo.validate_inputs.
  now rewrite Z.mul_1_r.
Qed.

(** Lines 25-49 of the second copy: the result of the first copy, cut
    at [len(payload) * 8 // num_lsb] when [truncate] is set. *)
Lemma legacy_interleave_spec
      (carrier payload : list byte) (num_lsb : Z) (truncate : bool) :
  1 <= num_lsb <= 7 ->
  len payload * 8 <= len carrier * num_lsb ->
  BravoLegacy.lsb_interleave_bytes (Bravo.Bytes carrier) (Bravo.Bytes payload)
                                   num_lsb truncate
  = Ok (if truncate
        then slice_to (embedded carrier payload num_lsb)
                      (len payload * 8 / num_lsb)
        else embedded carrier payload num_lsb).
Proof.
  intros Hn Hcap. unfold BravoLegacy.lsb_interleave_bytes.
  rewrite legacy_validate_inputs, validate_inputs_ok by lia.
  cbn [bind Bravo.bit_strings Bravo.arg_len].
  rewrite payload_bits_bools, carrier_bits_units.
  destruct (outer_loop_units (payload_bools payload) (Z.to_nat num_lsb)
                             (map byte_bits carrier)) as [k' Hk'].
  { eapply Forall_impl; [|apply byte_units_width].
    cbn. intros u ->. lia. }
  rewrite Z2Nat.id in Hk' by lia. rewrite Hk'. cbn [bind].
  rewrite bytes_of_bit_strings_units
    by (apply embed_units_width; [lia | apply byte_units_width]).
  cbn [bind BravoLegacy.try_except]. now destruct truncate.
Qed.

(** Without truncation the two copies of [lsb_interleave_bytes] return
    the same result or raise the same exception, for all arguments; with
    truncation they do whenever [num_lsb] divides the number of payload
    bits. *)
Theorem legacy_interleave_agrees
        (carrier payload : Bravo.arg) (num_lsb : Z) :
  BravoLegacy.lsb_interleave_bytes carrier payload num_lsb false
  = Bravo.lsb_interleave_bytes carrier payload num_lsb false 1
  /\ ((Bravo.arg_len payload * 8) mod num_lsb = 0 ->
      BravoLegacy.lsb_interleave_bytes carrier payload num_lsb true
      = Bravo.lsb_interleave_bytes carrier payload num_lsb true 1).
Proof.
  assert (H : forall truncate,
             (truncate = true -> (Bravo.arg_len payload * 8) mod num_lsb = 0) ->
             BravoLegacy.lsb_interleave_bytes carrier payload num_lsb truncate
             = Bravo.lsb_interleave_bytes carrier payload num_lsb truncate 1).
  { intros truncate Hdiv.
    destruct (Bravo.validate_inputs carrier payload num_lsb 1) as [[]|e] eqn:Hv.
    - destruct (validate_inputs_inv _ _ _ _ Hv)
        as (c & p & -> & -> & Hn & Hcap).
      rewrite legacy_interleave_spec, lsb_interleave_bytes_spec by lia.
      destruct truncate; [|reflexivity].
      specialize (Hdiv eq_refl). cbn [Bravo.arg_len] in Hdiv.
      do 2 f_equal.
      apply Z.mod_divide in Hdiv; [|lia]. destruct Hdiv as [q Hq].
      rewrite Hq, Z.div_mul by lia.
      replace (q * num_lsb + num_lsb - 1) with (q * num_lsb + (num_lsb - 1))
        by lia.
      rewrite Z.div_add_l, Z.div_small by lia. lia.
    - unfold BravoLegacy.lsb_interleave_bytes, Bravo.lsb_interleave_bytes.
      rewrite legacy_validate_inputs, Hv. reflexivity. }
  split; [apply H; discriminate | intros Hdiv; now apply H].
Qed.

Lemma legacy_interleave_agrees_witness :
  BravoLegacy.lsb_interleave_bytes (Bravo.Bytes (repeat xff 4))
                                   (Bravo.Bytes [xde]) 2 true
  = Bravo.lsb_interleave_bytes (Bravo.Bytes (repeat xff 4))
                               (Bravo.Bytes [xde]) 2 true 1.
Proof.
  apply (proj2 (legacy_interleave_agrees (Bravo.Bytes (repeat xff 4))
                                         (Bravo.Bytes [xde]) 2)).
  reflexivity.
Defined.

(** The second copy round-trips on its own: what its embedding returns,
    its extraction reads back, without truncation always and with
    truncation when [num_lsb] divides the number of payload bits. *)
Theorem legacy_round_trip
        (carrier payload : list byte) (num_lsb : Z) (truncate : bool) :
  1 <= num_lsb <= 7 ->
  len payload * 8 <= len carrier * num_lsb ->
  (truncate = true -> (len payload * 8) mod num_lsb = 0) ->
  exists stego,
    BravoLegacy.lsb_interleave_bytes (Bravo.Bytes carrier) (Bravo.Bytes payload)
                                     num_lsb truncate = Ok stego
    /\ BravoLegacy.lsb_deinterleave_bytes (Bravo.Bytes stego)
                                          (len payload * 8) num_lsb
       = Ok payload.
Proof.
  intros Hn Hcap Hdiv. rewrite legacy_interleave_spec by assumption.
  eexists. split; [reflexivity|].
  pose proof (len_nonneg payload) as Hp.
  rewrite legacy_deinterleave_spec by lia.
  rewrite <- (lsb_deinterleave_bytes_spec _ _ _ 1) by lia.
  destruct truncate.
  - specialize (Hdiv eq_refl).
    apply Z.mod_divide in Hdiv; [|lia]. destruct Hdiv as [q Hq].
    replace (len payload * 8 / num_lsb)
      with ((len payload * 8 + num_lsb - 1) / num_lsb).
    2:{ rewrite Hq, Z.div_mul by lia.
        replace (q * num_lsb + num_lsb - 1) with (q * num_lsb + (num_lsb - 1))
          by lia.
        rewrite Z.div_add_l, Z.div_small by lia. lia. }
    rewrite slice_to_nonneg
      by (apply Z.div_pos; lia).
    now apply deinterleave_truncated.
  - unfold embedded. apply deinterleave_embedded; try assumption.
    + apply byte_units_width.
    + now rewrite len_map.
Qed.

Lemma legacy_round_trip_witness :
  exists stego,
    BravoLegacy.lsb_interleave_bytes (Bravo.Bytes (repeat xff 16))
                                     (Bravo.Bytes [xde; xad; xbe; xef])
                                     2 true = Ok stego
    /\ BravoLegacy.lsb_deinterleave_bytes (Bravo.Bytes stego)
                                          (len [xde; xad; xbe; xef] * 8) 2
       = Ok [xde; xad; xbe; xef].
Proof.
  apply (legacy_round_trip (repeat xff 16) [xde; xad; xbe; xef] 2 true);
    [lia | vm_compute; discriminate | reflexivity].
Defined.

(** A [str] where the carrier is expected.  Both copies of
    [lsb_interleave_bytes] and the extraction of [bravo_module.py]
    raise [TypeError] before anything else is looked at.  The extraction
    of the second copy has no type check: a non-empty string fails at
    the format code and the [try] turns that into [RuntimeError]; the
    empty string gives the empty payload. *)
Theorem str_carrier_is_rejected
        (s : str) (payload : Bravo.arg) (num_bits num_lsb byte_depth : Z)
        (truncate : bool) :
  Bravo.lsb_interleave_bytes (Bravo.Str s) payload num_lsb truncate byte_depth
  = Raise (TypeError "Carrier must be a byte stream.")
  /\ Bravo.lsb_deinterleave_bytes (Bravo.Str s) num_bits num_lsb byte_depth
     = Raise (TypeError "Carrier must be a byte stream.")
  /\ BravoLegacy.lsb_interleave_bytes (Bravo.Str s) payload num_lsb truncate
     = Raise (TypeError "Carrier must be a byte stream.")
  /\ (s <> [] ->
      BravoLegacy.lsb_deinterleave_bytes (Bravo.Str s) num_bits num_lsb
      = Raise (RuntimeError
                 "Error during LSB deinterleaving: Unknown format code 'b' for object of type 'str'"))
  /\ BravoLegacy.lsb_deinterleave_bytes (Bravo.Str []) num_bits num_lsb = Ok [].
Proof.
  split; [reflexivity|]. split; [reflexivity|]. split; [reflexivity|]. split.
  - intros Hne. destruct s as [|c s]; [contradiction | reflexivity].
  - unfold BravoLegacy.lsb_deinterleave_bytes.
    cbn [Bravo.bit_strings bind].
    change (range (len (@nil str))) with (@nil Z).
    cbn [BravoLegacy.extract_loop bind]. unfold slice_to.
    destruct (@clamp ascii [] num_bits); reflexivity.
Qed.

Lemma str_carrier_is_rejected_witness :
  BravoLegacy.lsb_deinterleave_bytes
    (Bravo.Str (list_ascii_of_string "not_bytes")) 32 2
  = Raise (RuntimeError
             "Error during LSB deinterleaving: Unknown format code 'b' for object of type 'str'").
Proof.
  apply (proj1 (proj2 (proj2 (proj2
           (str_carrier_is_rejected (list_ascii_of_string "not_bytes")
                                    (Bravo.Bytes []) 32 2 1 false))))).
  discriminate.
Defined.

End LegacyCoverage.
(* ===================================================================== *)
(** * The bit helpers of the pixel codec                                 *)
(* ===================================================================== *)

Section BitHelpers.

Lemma set_low_mod (byte_value bit_value num_bits : Z) :
  0 <= num_bits ->
  set_low byte_value bit_value num_bits mod 2 ^ num_bits
  = bit_value mod 2 ^ num_bits.
Proof.
  intros Hn. apply Z.bits_inj'. intros j Hj.
  destruct (Z.ltb_spec j num_bits) as [Hlt|Hge].
  - rewrite !Z.mod_pow2_bits_low, testbit_set_low by lia. now zbool.
  - now rewrite !Z.mod_pow2_bits_high by lia.
Qed.

Lemma set_low_div (byte_value bit_value num_bits : Z) :
  0 <= num_bits ->
  set_low byte_value bit_value num_bits / 2 ^ num_bits
  = byte_value / 2 ^ num_bits.
Proof.
  intros Hn. apply Z.bits_inj'. intros j Hj.
  rewrite !Z.div_pow2_bits, testbit_set_low by lia. now zbool.
Qed.

Lemma set_low_parts (byte_value bit_value num_bits : Z) :
  0 <= num_bits ->
  set_low byte_value bit_value num_bits
  = 2 ^ num_bits * (byte_value / 2 ^ num_bits) + bit_value mod 2 ^ num_bits.
Proof.
  intros Hn.
  rewrite (Z.div_mod (set_low byte_value bit_value num_bits) (2 ^ num_bits))
    by (apply Z.pow_nonzero; lia).
  now rewrite set_low_div, set_low_mod.
Qed.

Lemma set_low_close (byte_value bit_value num_bits : Z) :
  0 <= num_bits ->
  Z.abs (set_low byte_value bit_value num_bits - byte_value) < 2 ^ num_bits.
Proof.
  intros Hn. rewrite set_low_parts by assumption.
  assert (Hp : 0 < 2 ^ num_bits) by (apply Z.pow_pos_nonneg; lia).
  pose proof (Z.mod_pos_bound bit_value (2 ^ num_bits) Hp).
  pose proof (Z.mod_pos_bound byte_value (2 ^ num_bits) Hp).
  pose proof (Z.div_mod byte_value (2 ^ num_bits) ltac:(lia)). lia.
Qed.

Lemma set_low_sample (byte_value bit_value num_bits : Z) :
  0 <= num_bits <= 8 -> 0 <= byte_value < 256 ->
  0 <= set_low byte_value bit_value num_bits < 256.
Proof.
  intros Hn Hv. rewrite set_low_parts by lia.
  assert (Hp : 0 < 2 ^ num_bits) by (apply Z.pow_pos_nonneg; lia).
  pose proof (Z.mod_pos_bound bit_value (2 ^ num_bits) Hp) as Hb.
  assert (Hq : 0 <= byte_value / 2 ^ num_bits) by (apply Z.div_pos; lia).
  assert (E : 256 = 2 ^ num_bits * 2 ^ (8 - num_bits)).
  { rewrite <- Z.pow_add_r by lia. now replace (num_bits + (8 - num_bits)) with 8 by lia. }
  assert (Hq' : byte_value / 2 ^ num_bits < 2 ^ (8 - num_bits)).
  { apply Z.div_lt_upper_bound; lia. }
  split; [nia|]. rewrite E. nia.
Qed.

(** [set_lsbs] and [extract_lsbs] fit together: what was written is
    read back (modulo [2^num_bits]), the bits above stay, the value
    moves by less than [2^num_bits], a sample of eight bits stays one
    for [num_bits <= 8], and writing back the bits that are there
    changes nothing. *)
Theorem set_extract_lsbs_laws (byte_value bit_value num_bits : Z) :
  0 <= num_bits ->
  exists r,
    Lemma.set_lsbs byte_value bit_value num_bits = Ok r
    /\ Lemma.extract_lsbs r num_bits = Ok (bit_value mod 2 ^ num_bits)
    /\ r / 2 ^ num_bits = byte_value / 2 ^ num_bits
    /\ Z.abs (r - byte_value) < 2 ^ num_bits
    /\ (num_bits <= 8 -> 0 <= byte_value < 256 -> 0 <= r < 256)
    /\ (Lemma.extract_lsbs byte_value num_bits = Ok bit_value -> r = byte_value).
Proof.
  intros Hn. exists (set_low byte_value bit_value num_bits).
  split; [now apply set_lsbs_low|].
  split; [rewrite extract_lsbs_bits by assumption; now rewrite set_low_mod|].
  split; [now apply set_low_div|].
  split; [now apply set_low_close|].
  split; [intros; apply set_low_sample; lia|].
  rewrite extract_lsbs_bits by assumption. intros E. injection E as <-.
  rewrite set_low_parts by assumption.
  rewrite Z.mod_mod by (apply Z.pow_nonzero; lia).
  symmetry. apply Z.div_mod. apply Z.pow_nonzero; lia.
Qed.

Lemma set_extract_lsbs_laws_witness :
  exists r,
    Lemma.set_lsbs 255 2 3 = Ok r
    /\ Lemma.extract_lsbs r 3 = Ok (2 mod 2 ^ 3)
    /\ r / 2 ^ 3 = 255 / 2 ^ 3
    /\ Z.abs (r - 255) < 2 ^ 3
    /\ (3 <= 8 -> 0 <= 255 < 256 -> 0 <= r < 256)
    /\ (Lemma.extract_lsbs 255 3 = Ok 2 -> r = 255).
Proof.
  apply (set_extract_lsbs_laws 255 2 3). lia.
Defined.

Lemma nth_error_combine {A B} (l1 : list A) (l2 : list B) :
  forall (i : nat) (a : A) (b : B),
    nth_error l1 i = Some a -> nth_error l2 i = Some b ->
    nth_error (combine l1 l2) i = Some (a, b).
Proof.
  revert l2. induction l1 as [|x l1 IH]; intros l2 i a b H1 H2.
  - destruct i; discriminate.
  - destruct l2 as [|y l2]; [destruct i; discriminate|].
    destruct i as [|i]; cbn [nth_error combine] in *.
    + congruence.
    + now apply IH.
Qed.

(** [set_lsbs_batch] pairs the two lists up to the end of the shorter
    one and drops the rest without an error; the item at each position
    is [set_lsbs] of the two items there. *)
Theorem set_lsbs_batch_zips (data bit_values : list Z) (num_bits : Z) :
  0 <= num_bits ->
  exists out,
    Lemma.set_lsbs_batch data bit_values num_bits = Ok out
    /\ len out = Z.min (len data) (len bit_values)
    /\ forall (i : nat) (d b : Z),
        nth_error data i = Some d -> nth_error bit_values i = Some b ->
        exists r, nth_error out i = Some r
                  /\ Lemma.set_lsbs d b num_bits = Ok r
                  /\ Lemma.extract_lsbs r num_bits = Ok (b mod 2 ^ num_bits).
Proof.
  intros Hn. unfold Lemma.set_lsbs_batch.
  rewrite (mapM_pure _ (fun p => set_low (fst p) (snd p) num_bits))
    by (intros p _; now apply set_lsbs_low).
  eexists. split; [reflexivity|]. split.
  - unfold len. rewrite length_map, length_combine. lia.
  - intros i d b Hd Hb. eexists. split; [|split].
    + rewrite nth_error_map, (nth_error_combine _ _ i d b Hd Hb). reflexivity.
    + now apply set_lsbs_low.
    + cbn [fst snd]. rewrite extract_lsbs_bits by assumption.
      now rewrite set_low_mod.
Qed.

Lemma set_lsbs_batch_zips_witness :
  exists out,
    Lemma.set_lsbs_batch [255; 255; 255] [0; 1] 2 = Ok out
    /\ len out = Z.min (len [255; 255; 255]) (len [0; 1])
    /\ forall (i : nat) (d b : Z),
        nth_error [255; 255; 255] i = Some d -> nth_error [0; 1] i = Some b ->
        exists r, nth_error out i = Some r
                  /\ Lemma.set_lsbs d b 2 = Ok r
                  /\ Lemma.extract_lsbs r 2 = Ok (b mod 2 ^ 2).
Proof.
  apply (set_lsbs_batch_zips [255; 255; 255] [0; 1] 2). lia.
Defined.

(** [shift_lsbs] shifts right for a positive count and left otherwise,
    zero included.  A left shift is undone by the right shift; a right
    shift followed by the left shift clears the low bits, which is
    [set_lsbs] with the value 0; and [extract_lsbs] is [mask_lsbs] with
    the mask [2^num_bits - 1]. *)
Theorem shift_mask_lsbs_laws (byte_value k : Z) :
  (0 <= k ->
   Lemma.shift_lsbs (Lemma.shift_lsbs byte_value (- k)) k = byte_value)
  /\ (0 < k ->
      Lemma.set_lsbs byte_value 0 k
      = Ok (Lemma.shift_lsbs (Lemma.shift_lsbs byte_value k) (- k)))
  /\ (0 <= k ->
      Lemma.extract_lsbs byte_value k
      = Ok (Lemma.mask_lsbs byte_value (2 ^ k - 1))).
Proof.
  split; [|split].
  - intros Hk. unfold Lemma.shift_lsbs.
    destruct (Z.ltb_spec 0 k) as [Hpos|Hz].
    + destruct (Z.ltb_spec 0 (- k)); [lia|].
      replace (Z.abs (- k)) with k by lia.
      rewrite Z.shiftr_shiftl_l by lia.
      now rewrite Z.sub_diag, Z.shiftl_0_r.
    + assert (k = 0) by lia. subst k. cbn [Z.opp Z.ltb Z.compare Z.abs].
      now rewrite !Z.shiftl_0_r.
  - intros Hk. rewrite set_lsbs_low by lia. f_equal.
    unfold Lemma.shift_lsbs.
    destruct (Z.ltb_spec 0 k); [|lia].
    destruct (Z.ltb_spec 0 (- k)); [lia|].
    replace (Z.abs (- k)) with k by lia.
    apply Z.bits_inj'. intros j Hj.
    rewrite testbit_set_low, Z.shiftl_spec by lia.
    destruct (Z.ltb_spec j k) as [Hlt|Hge].
    + rewrite (Z.testbit_neg_r _ (j - k)) by lia. apply Z.bits_0.
    + rewrite Z.shiftr_spec by lia. f_equal. lia.
  - intros Hk. unfold Lemma.extract_lsbs, lshift1, Lemma.mask_lsbs. zbool.
    cbn [bind]. now rewrite Z.shiftl_1_l.
Qed.

Lemma shift_mask_lsbs_laws_witness :
  Lemma.shift_lsbs (Lemma.shift_lsbs 181 (- 3)) 3 = 181
  /\ Lemma.set_lsbs 181 0 3
     = Ok (Lemma.shift_lsbs (Lemma.shift_lsbs 181 3) (- 3))
  /\ Lemma.extract_lsbs 181 3 = Ok (Lemma.mask_lsbs 181 (2 ^ 3 - 1)).
Proof.
  split; [|split].
  - apply (proj1 (shift_mask_lsbs_laws 181 3)). lia.
  - apply (proj1 (proj2 (shift_mask_lsbs_laws 181 3))). lia.
  - apply (proj2 (proj2 (shift_mask_lsbs_laws 181 3))). lia.
Defined.

End BitHelpers.

(* ===================================================================== *)
(** * The pixel codec: capacity, frame, reading any image                *)
(* ===================================================================== *)

Section PixelCoverage.

(** Lines 59-88 on a multi-band image, with or without the storage
    check. *)
Lemma hide_message_in_image_written
      (img : Lemma.image) (message : list byte) (n : nat) (pxs : list (list Z))
      (skip_storage_check : bool) :
  (1 <= n)%nat ->
  Lemma.getdata img = map Lemma.Tuple pxs ->
  Forall (fun vs => length vs = Z.to_nat (Lemma.bands img)) pxs ->
  0 <= Lemma.bands img ->
  len message < 2 ^ 32 ->
  (skip_storage_check = false ->
   len message * 8 + 32
   <= Lemma.max_bits_to_hide img (Z.of_nat n) (Lemma.bands img)) ->
  Lemma.hide_message_in_image img message (Z.of_nat n) skip_storage_check
  = Ok (Lemma.Image (Lemma.width img) (Lemma.height img) (Lemma.bands img)
          (map Lemma.Tuple (write_pixels (message_bools message) n pxs 0))).
Proof.
  intros Hn Hdata Hshape Hbands Hlen Hcap.
  destruct skip_storage_check;
    [|now apply hide_message_in_image_units; auto].
  unfold Lemma.hide_message_in_image. cbn [negb bind].
  assert (Hbits : format_b 32 (len message)
                  ++ concat (map (fun byte => format_b 8 (byte_val byte)) message)
                  = map bit_char (message_bools message)).
  { unfold message_bools. rewrite map_app.
    rewrite format_b_bits by (pose proof (len_nonneg message); lia).
    f_equal. apply payload_bits_bools. }
  rewrite Hbits, Hdata.
  rewrite <- (Z2Nat.id (Lemma.bands img)) at 1 by assumption.
  destruct (pixel_loop_from (message_bools message) n
              (Z.to_nat (Lemma.bands img)) pxs Hn Hshape [] 0%nat)
    as (k & Hk & Hle & Hrest).
  change (Z.of_nat 0) with 0 in Hk. rewrite Hk. cbn [bind app].
  do 2 f_equal. unfold slice_from, clamp, len. rewrite !length_map.
  assert (Hkl : length (firstn k (write_pixels (message_bools message) n pxs 0))
                = k).
  { rewrite length_firstn.
    destruct (write_pixels_shape (message_bools message) n _ pxs Hshape 0%nat)
      as [_ ->]. lia. }
  rewrite Hkl. zbool. rewrite Z.min_l by lia. rewrite Nat2Z.id.
  rewrite skipn_map, <- Hrest, <- map_app. now rewrite firstn_skipn.
Qed.

(** Writing into samples of eight bits leaves samples of eight bits,
    for up to eight bits per sample. *)
Lemma write_units_samples (M : list bool) (n : nat) (units : list Z) :
  (n <= 8)%nat ->
  Forall (fun v => 0 <= v < 256) units ->
  forall b, Forall (fun v => 0 <= v < 256) (fst (write_units M n units b)).
Proof.
  intros Hn. induction 1 as [|u rest Hu Hrest IH]; intros b.
  - constructor.
  - cbn [write_units]. destruct (b <? length M)%nat.
    + specialize (IH (b + n)%nat).
      destruct (write_units M n rest (b + n)) as [rest' b'].
      cbn [fst] in *. constructor; [|assumption].
      apply set_low_sample; [lia | assumption].
    + cbn [fst]. now constructor.
Qed.

Lemma write_pixels_samples (M : list bool) (n : nat) (pxs : list (list Z)) :
  (n <= 8)%nat ->
  Forall (Forall (fun v => 0 <= v < 256)) pxs ->
  forall b, Forall (Forall (fun v => 0 <= v < 256)) (write_pixels M n pxs b).
Proof.
  intros Hn. induction 1 as [|vs rest Hvs Hrest IH]; intros b.
  - constructor.
  - cbn [write_pixels].
    pose proof (write_units_samples M n vs Hn Hvs b) as Hw.
    destruct (write_units M n vs b) as [vs' b']. cbn [fst] in Hw.
    constructor; [assumption | apply IH].
Qed.

(** On a multi-band image of eight-bit bands, for up to eight bits per
    sample, the loops of [hide_message_in_image] return, whatever the
    size of the message, and what they hand to [putdata] are samples of
    eight bits. *)
Lemma hide_message_in_image_returns
      (img : Lemma.image) (message : list byte) (num_lsb : Z) :
  1 <= num_lsb <= 8 -> multiband img -> eight_bit img ->
  len message < 2 ^ 32 ->
  exists stego,
    Lemma.hide_message_in_image img message num_lsb true = Ok stego
    /\ eight_bit stego
    /\ (len message * 8 + 32
        <= Lemma.width img * Lemma.height img * Lemma.bands img * num_lsb ->
        Lemma.hide_message_in_image img message num_lsb false = Ok stego).
Proof.
  intros Hn Hmb H8 Hlen.
  destruct (tuples_of_multiband img Hmb) as (pxs & Hdata & Hshape).
  destruct Hmb as (Hbands & _ & _).
  assert (En : num_lsb = Z.of_nat (Z.to_nat num_lsb)) by lia.
  assert (Hfit : forall skip,
             (skip = false ->
              len message * 8 + 32
              <= Lemma.width img * Lemma.height img * Lemma.bands img * num_lsb) ->
             Lemma.hide_message_in_image img message num_lsb skip
             = Ok (Lemma.Image (Lemma.width img) (Lemma.height img)
                     (Lemma.bands img)
                     (map Lemma.Tuple
                          (write_pixels (message_bools message)
                                        (Z.to_nat num_lsb) pxs 0)))).
  { intros skip Hcap. rewrite En at 1.
    apply hide_message_in_image_written; try assumption; try lia.
    intros E. unfold Lemma.max_bits_to_hide. rewrite <- En. now apply Hcap. }
  eexists. split; [apply Hfit; discriminate|]. split.
  - unfold eight_bit in *. cbn [Lemma.getdata]. rewrite Hdata in H8.
    rewrite Forall_map in *. apply write_pixels_samples; [lia | assumption].
  - intros Hcap. apply Hfit. now intros _.
Qed.

Lemma hide_message_in_image_too_large
      (img : Lemma.image) (message : list byte) (num_lsb : Z) :
  Lemma.width img * Lemma.height img * Lemma.bands img * num_lsb
  < len message * 8 + 32 ->
  Lemma.hide_message_in_image img message num_lsb false
  = Raise (ValueError "The message is too large to hide in the image.").
Proof.
  intros Hbig. unfold Lemma.hide_message_in_image, Lemma.max_bits_to_hide.
  cbn [negb]. now zbool.
Qed.

(** On a multi-band image of eight-bit bands, for [num_lsb] from 1 to
    8, [hide_message_in_image] raises exactly when the storage check
    fails, that is when [len(message) * 8 + 32] exceeds
    [width * height * bands * num_lsb]; with [skip_storage_check] it
    never raises, the samples it stores are samples of eight bits, and
    when the message fits the flag makes no difference. *)
Theorem hide_message_in_image_raises_iff
        (img : Lemma.image) (message : list byte) (num_lsb : Z) :
  1 <= num_lsb <= 8 -> multiband img -> eight_bit img ->
  len message < 2 ^ 32 ->
  let capacity :=
    Lemma.width img * Lemma.height img * Lemma.bands img * num_lsb in
  ((exists e, Lemma.hide_message_in_image img message num_lsb false = Raise e)
   <-> capacity < len message * 8 + 32)
  /\ (capacity < len message * 8 + 32 ->
      Lemma.hide_message_in_image img message num_lsb false
      = Raise (ValueError "The message is too large to hide in the image."))
  /\ (exists stego,
         Lemma.hide_message_in_image img message num_lsb true = Ok stego
         /\ eight_bit stego
         /\ (len message * 8 + 32 <= capacity ->
             Lemma.hide_message_in_image img message num_lsb false = Ok stego)).
Proof.
  intros Hn Hmb H8 Hlen capacity.
  destruct (hide_message_in_image_returns img message num_lsb Hn Hmb H8 Hlen)
    as (stego & Hskip & Hst & Hfit).
  fold capacity in Hfit.
  split; [split|split].
  - intros [e He]. destruct (Z.lt_ge_cases capacity (len message * 8 + 32));
      [assumption|].
    rewrite Hfit in He by lia. discriminate.
  - intros Hbig. eexists. now apply hide_message_in_image_too_large.
  - apply hide_message_in_image_too_large.
  - exists stego. now repeat split.
Qed.

Lemma hide_message_in_image_raises_iff_witness :
  let capacity :=
    Lemma.width rgb_2x3 * Lemma.height rgb_2x3 * Lemma.bands rgb_2x3 * 1 in
  ((exists e, Lemma.hide_message_in_image rgb_2x3 [x01] 1 false = Raise e)
   <-> capacity < len [x01] * 8 + 32)
  /\ (capacity < len [x01] * 8 + 32 ->
      Lemma.hide_message_in_image rgb_2x3 [x01] 1 false
      = Raise (ValueError "The message is too large to hide in the image."))
  /\ (exists stego,
         Lemma.hide_message_in_image rgb_2x3 [x01] 1 true = Ok stego
         /\ eight_bit stego
         /\ (len [x01] * 8 + 32 <= capacity ->
             Lemma.hide_message_in_image rgb_2x3 [x01] 1 false = Ok stego)).
Proof.
  apply (hide_message_in_image_raises_iff rgb_2x3 [x01] 1).
  - lia.
  - split; [cbn; lia|]. split; [reflexivity|].
    repeat constructor; eexists; split; reflexivity.
  - repeat constructor; lia.
  - vm_compute. reflexivity.
Defined.

Lemma endswith_extension (stem ext suffix : str) :
  length ext = length suffix ->
  endswith (stem ++ ext) suffix = true <-> ext = suffix.
Proof.
  intros Hl. unfold endswith.
  rewrite length_app, Hl.
  replace (length stem + length suffix - length suffix)%nat
    with (length stem) by lia.
  rewrite skipn_app, skipn_all, Nat.sub_diag. cbn [skipn app].
  destruct (list_eq_dec ascii_dec ext suffix) as [E|E].
  - rewrite andb_true_r. split; [intros _; exact E|].
    intros _. apply Nat.leb_le. lia.
  - rewrite andb_false_r. split; [discriminate | contradiction].
Qed.

(** [_validate_image_format] looks at the last four characters of the
    path and at nothing else, without regard to letter case: the path
    passes when they spell [.png] or [.bmp], and a path of fewer than
    four characters does not pass. *)
Theorem validate_image_format_by_extension (stem ext : str) :
  (length ext = 4%nat ->
   Lemma._validate_image_format (stem ++ ext) = Ok tt
   <-> lower ext = list_ascii_of_string ".png"
       \/ lower ext = list_ascii_of_string ".bmp")
  /\ ((length ext < 4)%nat ->
      Lemma._validate_image_format ext
      = Raise (ValueError "Unsupported image format. Please use .png or .bmp files.")).
Proof.
  split.
  - intros Hl. unfold Lemma._validate_image_format, lower.
    rewrite map_app. fold (lower stem). fold (lower ext).
    assert (Hl' : length (lower ext) = 4%nat)
      by (unfold lower; now rewrite length_map).
    pose proof (endswith_extension (lower stem) (lower ext)
                  (list_ascii_of_string ".png") Hl') as Hpng.
    pose proof (endswith_extension (lower stem) (lower ext)
                  (list_ascii_of_string ".bmp") Hl') as Hbmp.
    destruct (endswith (lower stem ++ lower ext) (list_ascii_of_string ".png"));
      destruct (endswith (lower stem ++ lower ext) (list_ascii_of_string ".bmp"));
      cbn [orb negb]; split; intros H;
      try reflexivity; try discriminate.
    + left. now apply Hpng.
    + left. now apply Hpng.
    + right. now apply Hbmp.
    + destruct H as [H|H]; [apply Hpng in H | apply Hbmp in H]; discriminate.
  - intros Hl. unfold Lemma._validate_image_format, endswith, lower.
    rewrite length_map.
    replace (length (list_ascii_of_string ".png") <=? length ext)%nat with false
      by (symmetry; apply Nat.leb_gt; cbn; lia).
    replace (length (list_ascii_of_string ".bmp") <=? length ext)%nat with false
      by (symmetry; apply Nat.leb_gt; cbn; lia).
    reflexivity.
Qed.

Lemma validate_image_format_by_extension_witness :
  (Lemma._validate_image_format
     (list_ascii_of_string "C:\Covers\dog" ++ list_ascii_of_string ".PnG")
   = Ok tt
   <-> lower (list_ascii_of_string ".PnG") = list_ascii_of_string ".png"
       \/ lower (list_ascii_of_string ".PnG") = list_ascii_of_string ".bmp")
  /\ Lemma._validate_image_format (list_ascii_of_string "png")
     = Raise (ValueError "Unsupported image format. Please use .png or .bmp files.").
Proof.
  split.
  - apply (proj1 (validate_image_format_by_extension
                    (list_ascii_of_string "C:\Covers\dog")
                    (list_ascii_of_string ".PnG"))).
    reflexivity.
  - apply (proj2 (validate_image_format_by_extension
                    [] (list_ascii_of_string "png"))).
    cbn. lia.
Defined.

(** [calculate_max_message_size], like [bytes_in_max_file_size], divides
    the capacity in bits by eight and leaves the 32-bit length header
    out: [hide_message_in_image] rejects every message longer than that
    size minus four bytes, the message of the computed size included,
    and, for [num_lsb] from 1 to 8 on a multi-band image of eight-bit
    bands, accepts every shorter one and stores samples of eight
    bits. *)
Theorem calculate_max_message_size_overstates
        (image_path : str) (img : Lemma.image) (num_lsb size : Z)
        (message : list byte) :
  Lemma.calculate_max_message_size image_path img num_lsb = Ok size ->
  size = Lemma.bytes_in_max_file_size img num_lsb (Lemma.bands img)
  /\ (size - 4 < len message ->
      Lemma.hide_message_in_image img message num_lsb false
      = Raise (ValueError "The message is too large to hide in the image."))
  /\ (len message <= size - 4 ->
      1 <= num_lsb <= 8 -> multiband img -> eight_bit img ->
      len message < 2 ^ 32 ->
      exists stego,
        Lemma.hide_message_in_image img message num_lsb false = Ok stego
        /\ eight_bit stego).
Proof.
  unfold Lemma.calculate_max_message_size.
  destruct (Lemma._validate_image_format image_path); cbn [bind]; [|discriminate].
  intros E. injection E as <-.
  set (capacity := Lemma.width img * Lemma.height img * Lemma.bands img * num_lsb).
  pose proof (Z.div_mod capacity 8 ltac:(lia)) as Hdm.
  pose proof (Z.mod_pos_bound capacity 8 ltac:(lia)) as Hr.
  split; [reflexivity|]. split.
  - intros Hbig. apply hide_message_in_image_too_large. fold capacity. lia.
  - intros Hsmall Hn Hmb H8 Hlen.
    destruct (hide_message_in_image_returns img message num_lsb Hn Hmb H8 Hlen)
      as (stego & _ & Hst & Hok).
    exists stego. split; [|assumption]. apply Hok. fold capacity. lia.
Qed.

Lemma calculate_max_message_size_overstates_witness :
  Lemma.hide_message_in_image rgb_4x4 (repeat x00 12) 2 false
  = Raise (ValueError "The message is too large to hide in the image.")
  /\ exists stego,
      Lemma.hide_message_in_image rgb_4x4 (repeat x00 8) 2 false = Ok stego
      /\ eight_bit stego.
Proof.
  split.
  - apply (proj1 (proj2 (calculate_max_message_size_overstates
                           (list_ascii_of_string "cover.PNG") rgb_4x4 2 12
                           (repeat x00 12) eq_refl))).
    vm_compute. reflexivity.
  - apply (proj2 (proj2 (calculate_max_message_size_overstates
                           (list_ascii_of_string "cover.PNG") rgb_4x4 2 12
                           (repeat x00 8) eq_refl))).
    + vm_compute. discriminate.
    + lia.
    + split; [cbn; lia|]. split; [reflexivity|].
      repeat constructor; eexists; split; reflexivity.
    + repeat constructor; lia.
    + vm_compute. reflexivity.
Defined.

Lemma write_units_nth (M : list bool) (n : nat) (units : list Z) :
  forall (b i : nat) (u : Z),
    nth_error units i = Some u ->
    nth_error (fst (write_units M n units b)) i
    = Some (if (b + i * n <? length M)%nat
            then set_low u (lsb_val (rev (firstn n (skipn (b + i * n) M))))
                         (Z.of_nat n)
            else u).
Proof.
  induction units as [|u0 rest IH]; intros b i u Hi.
  - destruct i; discriminate.
  - cbn [write_units].
    destruct (Nat.ltb_spec b (length M)) as [Hlt|Hge].
    + specialize (IH (b + n)%nat).
      destruct (write_units M n rest (b + n)) as [rest' b'].
      cbn [fst] in *. destruct i as [|i]; cbn [nth_error] in *.
      * injection Hi as <-. rewrite Nat.add_0_r.
        destruct (Nat.ltb_spec b (length M)); [reflexivity | lia].
      * rewrite (IH i u Hi).
        now replace (b + n + i * n)%nat with (b + S i * n)%nat by lia.
    + cbn [fst]. rewrite Hi.
      destruct (Nat.ltb_spec (b + i * n) (length M)); [lia | reflexivity].
Qed.

(** What [hide_message_in_image] leaves alone.  The image keeps its
    size, its bands and the shape of its pixel data; every sample keeps
    its bits from [num_lsb] upwards, so it moves by less than
    [2^num_lsb] and stays a sample of eight bits; and the samples behind
    the bitstream are the ones of the input. *)
Theorem hide_message_in_image_frame
        (img : Lemma.image) (message : list byte) (num_lsb : Z)
        (pxs : list (list Z)) :
  1 <= num_lsb <= 8 ->
  multiband img ->
  Lemma.getdata img = map Lemma.Tuple pxs ->
  len message < 2 ^ 32 ->
  len message * 8 + 32
  <= Lemma.width img * Lemma.height img * Lemma.bands img * num_lsb ->
  exists pxs',
    Lemma.hide_message_in_image img message num_lsb false
    = Ok (Lemma.Image (Lemma.width img) (Lemma.height img) (Lemma.bands img)
            (map Lemma.Tuple pxs'))
    /\ length pxs' = length pxs
    /\ Forall (fun vs => len vs = Lemma.bands img) pxs'
    /\ forall (i : nat) (c : Z),
        nth_error (concat pxs) i = Some c ->
        exists s,
          nth_error (concat pxs') i = Some s
          /\ s / 2 ^ num_lsb = c / 2 ^ num_lsb
          /\ Z.abs (s - c) < 2 ^ num_lsb
          /\ (0 <= c < 256 -> 0 <= s < 256)
          /\ (len message * 8 + 32 <= num_lsb * Z.of_nat i -> s = c).
Proof.
  intros Hn Hmb Hdata Hlen Hcap.
  assert (Hshape : Forall (fun vs => length vs = Z.to_nat (Lemma.bands img)) pxs).
  { destruct Hmb as (_ & _ & Hall). rewrite Hdata in Hall.
    rewrite Forall_map in Hall. eapply Forall_impl; [|exact Hall].
    cbn. intros vs (vs' & E & Hl). injection E as <-. unfold len in Hl. lia. }
  destruct Hmb as (Hbands & _ & _).
  set (n := Z.to_nat num_lsb).
  assert (En : num_lsb = Z.of_nat n) by (subst n; lia).
  set (M := message_bools message).
  exists (write_pixels M n pxs 0).
  destruct (write_pixels_shape M n _ pxs Hshape 0%nat) as [Hshape' Hlen'].
  split; [|split; [assumption|split]].
  - rewrite En at 1. apply hide_message_in_image_units; try assumption; try lia.
    unfold Lemma.max_bits_to_hide. rewrite <- En. assumption.
  - eapply Forall_impl; [|exact Hshape']. cbn. intros vs Hvs. unfold len. lia.
  - intros i c Hc. rewrite concat_write_pixels.
    rewrite (write_units_nth M n (concat pxs) 0 i c Hc). cbn [Nat.add].
    assert (HM : length M = (32 + 8 * length message)%nat).
    { subst M. unfold message_bools.
      now rewrite length_app, length_rev, lsb_bits_length, payload_bools_length. }
    destruct (Nat.ltb_spec (i * n) (length M)) as [Hin|Hout].
    + eexists. split; [reflexivity|]. rewrite <- En.
      split; [apply set_low_div; lia|].
      split; [apply set_low_close; lia|].
      split; [intros; apply set_low_sample; lia|].
      intros Hpast. unfold len in Hpast. nia.
    + exists c. split; [reflexivity|]. split; [reflexivity|].
      split; [|split; [tauto | reflexivity]].
      rewrite Z.sub_diag. cbn [Z.abs]. apply Z.pow_pos_nonneg; lia.
Qed.

Lemma hide_message_in_image_frame_witness :
  exists pxs',
    Lemma.hide_message_in_image rgb_4x4 ["H"%byte; "i"%byte] 2 false
    = Ok (Lemma.Image (Lemma.width rgb_4x4) (Lemma.height rgb_4x4)
            (Lemma.bands rgb_4x4) (map Lemma.Tuple pxs'))
    /\ length pxs' = length (repeat [255; 255; 255] 16)
    /\ Forall (fun vs => len vs = Lemma.bands rgb_4x4) pxs'
    /\ forall (i : nat) (c : Z),
        nth_error (concat (repeat [255; 255; 255] 16)) i = Some c ->
        exists s,
          nth_error (concat pxs') i = Some s
          /\ s / 2 ^ 2 = c / 2 ^ 2
          /\ Z.abs (s - c) < 2 ^ 2
          /\ (0 <= c < 256 -> 0 <= s < 256)
          /\ (len ["H"%byte; "i"%byte] * 8 + 32 <= 2 * Z.of_nat i -> s = c).
Proof.
  apply (hide_message_in_image_frame rgb_4x4 ["H"%byte; "i"%byte] 2
                                     (repeat [255; 255; 255] 16)).
  - lia.
  - split; [cbn; lia|]. split; [reflexivity|].
    repeat constructor; eexists; split; reflexivity.
  - reflexivity.
  - vm_compute. reflexivity.
  - vm_compute. discriminate.
Defined.

Lemma filter_agree {A} (p q : A -> bool) (l : list A) :
  (forall a, In a l -> p a = q a) -> filter p l = filter q l.
Proof.
  induction l as [|a l IH]; intros H; [reflexivity|].
  cbn [filter]. rewrite (H a (or_introl eq_refl)), IH; [reflexivity|].
  intros b Hb. apply H. now right.
Qed.

(** The groups of eight that are complete are the first [length B / 8]. *)
Lemma filter_full_groups (L : nat) :
  filter (fun k => (8 * k + 8 <=? L)%nat) (seq 0 ((L + 7) / 8))
  = seq 0 (L / 8).
Proof.
  pose proof (Nat.div_mod_eq L 8) as HL.
  pose proof (Nat.mod_upper_bound L 8 ltac:(lia)) as Hr.
  pose proof (Nat.div_mod_eq (L + 7) 8) as HL7.
  pose proof (Nat.mod_upper_bound (L + 7) 8 ltac:(lia)) as Hr7.
  replace ((L + 7) / 8)%nat with (L / 8 + ((L + 7) / 8 - L / 8))%nat by lia.
  rewrite seq_app, filter_app.
  rewrite (filter_agree _ (fun _ => true)), filter_all by
    (try reflexivity; intros k Hk; apply in_seq in Hk;
     apply Nat.leb_le; lia).
  rewrite (filter_agree _ (fun _ => false)), filter_none by
    (try reflexivity; intros k Hk; apply in_seq in Hk;
     apply Nat.leb_gt; lia).
  apply app_nil_r.
Qed.

(** Lines 133-137 on any bit string *)
Lemma bytes_loop_groups (B : list bool) (ks : list nat) :
  forall acc,
    Lemma.bytes_loop (map bit_char B) (map (fun k => 8 * Z.of_nat k) ks) acc
    = Ok (acc ++ map (fun k => lsb_val (rev (firstn 8 (skipn (8 * k) B))))
                     (filter (fun k => (8 * k + 8 <=? length B)%nat) ks)).
Proof.
  induction ks as [|k ks IH]; intros acc.
  - cbn. now rewrite app_nil_r.
  - cbn [map Lemma.bytes_loop filter].
    rewrite slice_chunk, skipn_map, firstn_map.
    set (g := firstn 8 (skipn (8 * k) B)).
    assert (Hg : length g = Nat.min 8 (length B - 8 * k))
      by (subst g; now rewrite length_firstn, length_skipn).
    unfold len. rewrite length_map.
    destruct (Nat.leb_spec (8 * k + 8) (length B)) as [Hfull|Hpart].
    + replace (Z.of_nat (length g) =? 8) with true
        by (symmetry; apply Z.eqb_eq; lia).
      rewrite int2_segment
        by (intros E; rewrite E in Hg; cbn [length] in Hg; lia).
      cbn [bind map]. rewrite IH. now rewrite <- app_assoc.
    + replace (Z.of_nat (length g) =? 8) with false
        by (symmetry; apply Z.eqb_neq; lia).
      apply IH.
Qed.

Lemma length_read_units (n : nat) (units : list Z) :
  length (flat_map (read_unit n) units) = (n * length units)%nat.
Proof.
  induction units as [|u rest IH]; [cbn; lia|].
  cbn [flat_map length]. rewrite length_app, IH.
  unfold read_unit. rewrite length_rev, lsb_bits_length. lia.
Qed.

(** Lines 124-140 on any non-empty run of collected bits. *)
Lemma decode_any_bits (B : list bool) :
  B <> [] ->
  exists out,
    (let message_bits := map bit_char B in
     message_length <- int2 (slice_to message_bits 32) ;;
     let message_bits :=
       slice message_bits 32 (32 + message_length * 8) in
     message_bytes <-
       Lemma.bytes_loop message_bits (range3 0 (len message_bits) 8) [] ;;
     mapM byte_of_int message_bytes)
    = Ok out
    /\ len out <= lsb_val (rev (firstn 32 B))
    /\ (8 * length out <= length B - 32)%nat.
Proof.
  intros HB. cbv zeta.
  rewrite slice_to_nonneg, firstn_map by lia.
  change (Z.to_nat 32) with 32%nat.
  set (H32 := firstn 32 B).
  assert (Hne : H32 <> []).
  { subst H32. destruct B; [contradiction | discriminate]. }
  rewrite int2_segment by assumption. cbn [bind].
  set (L := lsb_val (rev H32)).
  assert (HL : 0 <= L) by (subst L; apply lsb_val_range).
  rewrite slice_nonneg by lia. rewrite skipn_map, firstn_map.
  change (Z.to_nat 32) with 32%nat.
  replace (Z.to_nat (32 + L * 8 - 32)) with (8 * Z.to_nat L)%nat by lia.
  set (B' := firstn (8 * Z.to_nat L) (skipn 32 B)).
  unfold len at 1. rewrite length_map, range3_step8.
  rewrite bytes_loop_groups. cbn [bind app].
  rewrite filter_full_groups, mapM_map.
  rewrite (mapM_pure _ (fun k => unit_byte (rev (firstn 8 (skipn (8 * k) B'))))).
  2:{ intros k _. apply byte_of_int_unit.
      rewrite length_rev, length_firstn. lia. }
  eexists. split; [reflexivity|].
  unfold len. rewrite length_map, length_seq.
  assert (HB' : (length B' <= 8 * Z.to_nat L)%nat
                /\ (length B' <= length B - 32)%nat).
  { subst B'. rewrite length_firstn, length_skipn. lia. }
  pose proof (Nat.div_mod_eq (length B') 8) as Hdm.
  split; lia.
Qed.

(** [recover_message_from_image] returns on every multi-band image that
    has a pixel, whether or not a message was hidden in it: the first 32
    bits it collects count as the length, and the result has at most
    that many bytes and at most as many as the image has room for behind
    the header.  On an image without pixels it raises [ValueError]. *)
Theorem recover_message_from_image_total
        (img : Lemma.image) (num_lsb : Z) :
  1 <= num_lsb -> multiband img ->
  (Lemma.getdata img <> [] ->
   exists out,
     Lemma.recover_message_from_image img num_lsb = Ok out
     /\ len out * 8 + 32
        <= Z.max 32 (Lemma.width img * Lemma.height img
                     * Lemma.bands img * num_lsb))
  /\ (Lemma.getdata img = [] ->
      Lemma.recover_message_from_image img num_lsb
      = Raise (ValueError "invalid literal for int() with base 2")).
Proof.
  intros Hn Hmb.
  destruct (tuples_of_multiband img Hmb) as (pxs & Hdata & Hshape).
  destruct Hmb as (Hbands & Hsize & _).
  split.
  - intros Hne. unfold Lemma.recover_message_from_image. cbv zeta.
    set (n := Z.to_nat num_lsb). set (c := Z.to_nat (Lemma.bands img)).
    replace (Lemma.recover_pixels num_lsb (Lemma.bands img))
      with (Lemma.recover_pixels (Z.of_nat n) (Z.of_nat c))
      by (subst n c; now rewrite !Z2Nat.id by lia).
    rewrite Hdata, recover_pixels_units by (try assumption; subst c n; lia).
    cbn [bind app].
    set (B := flat_map (read_unit n) (concat pxs)).
    assert (HlenB : length B = (n * (c * length pxs))%nat).
    { subst B. rewrite length_read_units.
      now rewrite (length_concat_uniform c) by assumption. }
    assert (Hpx : (1 <= length pxs)%nat).
    { rewrite Hdata in Hne. destruct pxs; [contradiction | cbn [length]; lia]. }
    destruct (decode_any_bits B) as (out & Hout & _ & Hroom).
    { intros E. rewrite E in HlenB. cbn [length] in HlenB. subst n c. nia. }
    exists out. split; [exact Hout|].
    rewrite Hdata in Hsize. unfold len in Hsize. rewrite length_map in Hsize.
    unfold len.
    assert (E : Lemma.width img * Lemma.height img * Lemma.bands img * num_lsb
                = Z.of_nat (length B)).
    { rewrite HlenB, <- Hsize. subst n c. nia. }
    rewrite E. lia.
  - intros Hnil. unfold Lemma.recover_message_from_image.
    rewrite Hnil. reflexivity.
Qed.

Lemma recover_message_from_image_total_witness :
  (exists out,
      Lemma.recover_message_from_image rgb_2x3 3 = Ok out
      /\ len out * 8 + 32
         <= Z.max 32 (Lemma.width rgb_2x3 * Lemma.height rgb_2x3
                      * Lemma.bands rgb_2x3 * 3))
  /\ Lemma.recover_message_from_image (Lemma.Image 0 0 3 []) 3
     = Raise (ValueError "invalid literal for int() with base 2").
Proof.
  split.
  - apply (proj1 (recover_message_from_image_total rgb_2x3 3 ltac:(lia)
                    ltac:(split; [cbn; lia|]; split; [reflexivity|];
                          repeat constructor; eexists; split; reflexivity))).
    discriminate.
  - apply (proj2 (recover_message_from_image_total (Lemma.Image 0 0 3 []) 3
                    ltac:(lia)
                    ltac:(split; [cbn; lia|]; split; [reflexivity|];
                          constructor))).
    reflexivity.
Defined.

(** Lines 114-116 on the integers of a single-band image *)
Lemma recover_pixels_scalars (n : nat) (vs : list Z) :
  (1 <= n)%nat ->
  forall acc,
    Lemma.recover_pixels (Z.of_nat n) 1 (map Lemma.Scalar vs) acc
    = Ok (acc ++ map bit_char (flat_map (read_unit n) vs)).
Proof.
  intros Hn. induction vs as [|v vs IH]; intros acc.
  - cbn. now rewrite app_nil_r.
  - cbn [map Lemma.recover_pixels]. change (1 =? 1) with true. cbv iota.
    destruct (Lemma.extract_lsbs v (Z.of_nat n)) as [e|] eqn:Ee;
      [|rewrite extract_lsbs_bits in Ee by lia; discriminate].
    cbn [bind]. rewrite (format_lsbs_read n v e Hn Ee), IH.
    cbn [flat_map]. now rewrite map_app, <- app_assoc.
Qed.

(** A single-band image, whose pixels are integers: the reader has a
    branch for it and returns, the writer fails on [list(pixel)] at the
    first pixel, whatever the message. *)
Theorem single_band_is_read_but_not_written
        (img : Lemma.image) (message : list byte) (num_lsb : Z) (vs : list Z) :
  1 <= num_lsb ->
  Lemma.bands img = 1 ->
  Lemma.getdata img = map Lemma.Scalar vs -> vs <> [] ->
  (exists out, Lemma.recover_message_from_image img num_lsb = Ok out)
  /\ Lemma.hide_message_in_image img message num_lsb true
     = Raise (TypeError "'int' object is not iterable")
  /\ (len message * 8 + 32 <= Lemma.width img * Lemma.height img * num_lsb ->
      Lemma.hide_message_in_image img message num_lsb false
      = Raise (TypeError "'int' object is not iterable")).
Proof.
  intros Hn Hbands Hdata Hne. split; [|split].
  - unfold Lemma.recover_message_from_image. cbv zeta.
    rewrite Hbands, Hdata.
    replace (Lemma.recover_pixels num_lsb)
      with (Lemma.recover_pixels (Z.of_nat (Z.to_nat num_lsb)))
      by (now rewrite Z2Nat.id by lia).
    rewrite recover_pixels_scalars by lia. cbn [bind app].
    destruct (decode_any_bits (flat_map (read_unit (Z.to_nat num_lsb)) vs))
      as (out & Hout & _).
    { intros E. apply (f_equal (@length bool)) in E.
      rewrite length_read_units in E. cbn [length] in E.
      destruct vs; [contradiction | cbn [length] in E; nia]. }
    exists out. exact Hout.
  - unfold Lemma.hide_message_in_image. cbn [negb bind]. rewrite Hdata.
    destruct vs as [|v vs]; [contradiction | reflexivity].
  - intros Hcap. unfold Lemma.hide_message_in_image, Lemma.max_bits_to_hide.
    cbn [negb]. rewrite Hbands, Z.mul_1_r. zbool. cbn [bind]. rewrite Hdata.
    destruct vs as [|v vs]; [contradiction | reflexivity].
Qed.

Lemma single_band_is_read_but_not_written_witness :
  (exists out, Lemma.recover_message_from_image gray_10x10 3 = Ok out)
  /\ Lemma.hide_message_in_image gray_10x10 [x01] 3 true
     = Raise (TypeError "'int' object is not iterable")
  /\ (len [x01] * 8 + 32
      <= Lemma.width gray_10x10 * Lemma.height gray_10x10 * 3 ->
      Lemma.hide_message_in_image gray_10x10 [x01] 3 false
      = Raise (TypeError "'int' object is not iterable")).
Proof.
  apply (single_band_is_read_but_not_written gray_10x10 [x01] 3
                                             (repeat 255 100));
    [lia | reflexivity | reflexivity | discriminate].
Defined.

End PixelCoverage.
(* ===================================================================== *)
(** * The detectors: tables, gaps, the visualisation                     *)
(* ===================================================================== *)

Section SierraCoverage.

Lemma sum_counts_insert (v : Z) (d : list (Z * Z)) :
  sum_counts (Sierra.count_insert v d) = sum_counts d + 1.
Proof.
  unfold sum_counts. induction d as [|[k c] t IH].
  - reflexivity.
  - cbn [Sierra.count_insert].
    destruct (v <? k); [cbn [map snd fold_right]; lia|].
    destruct (v =? k); cbn [map snd fold_right] in *; lia.
Qed.

Lemma sum_unique_counts (vals : list Z) :
  sum_counts (Sierra.unique_counts vals) = len vals.
Proof.
  unfold Sierra.unique_counts, len. induction vals as [|v vals IH].
  - reflexivity.
  - cbn [fold_right length]. rewrite sum_counts_insert, IH. lia.
Qed.

(** Lines 47-55: the table that is returned is the one of the last
    layer. *)
Lemma layers_loop_last (pixels : Sierra.ndarray) (layers : list Z) (i : Z) :
  forall distribution,
    Sierra.layers_loop pixels (layers ++ [i]) distribution
    = Some (Sierra.unique_counts
              (map (fun v => Z.land v (Z.shiftl 1 i - 1))
                   (Sierra.flatten pixels))).
Proof.
  induction layers as [|j layers IH]; intros distribution; [reflexivity|].
  cbn [app Sierra.layers_loop]. apply IH.
Qed.

(** [analyze_lsb_distribution] returns the table of the low [num_lsb]
    bits, whatever it printed for the layers below: the values in
    increasing order, each within [0, 2^num_lsb) and with the number of
    samples that carry it, the counts adding up to the number of
    samples.  For [num_lsb < 1] the loop body never runs and the
    [return] reads a name that was never bound. *)
Theorem analyze_lsb_distribution_table
        (pixels : Sierra.ndarray) (num_lsb : Z) :
  (1 <= num_lsb <= 8 ->
   let table := Sierra.unique_counts (lsb_values pixels num_lsb) in
   Sierra.analyze_lsb_distribution pixels num_lsb = Sierra.Return table
   /\ StronglySorted Z.lt (keys table)
   /\ (forall k c, In (k, c) table ->
                   0 <= k < 2 ^ num_lsb /\ 1 <= c
                   /\ c = occurrences (lsb_values pixels num_lsb) k)
   /\ sum_counts table = Sierra.size pixels)
  /\ (num_lsb < 1 ->
      exists msg,
        Sierra.analyze_lsb_distribution pixels num_lsb
        = Sierra.UnboundLocalError msg).
Proof.
  split.
  - intros Hn table. unfold Sierra.analyze_lsb_distribution.
    assert (E : range2 1 (num_lsb + 1)
                = map (fun k => 1 + Z.of_nat k) (seq 0 (Z.to_nat num_lsb - 1))
                  ++ [num_lsb]).
    { unfold range2.
      replace (Z.to_nat (num_lsb + 1 - 1)) with (S (Z.to_nat num_lsb - 1)) by lia.
      rewrite seq_S, map_app. cbn [map Nat.add]. do 2 f_equal. lia. }
    rewrite E, layers_loop_last, mask_values by lia. fold table.
    destruct (unique_counts_spec (lsb_values pixels num_lsb))
      as (Hsorted & Hkeys & Hcounts). fold table in Hsorted, Hkeys, Hcounts.
    split; [reflexivity|]. split; [assumption|]. split.
    + intros k c Hin.
      assert (Hk : In k (lsb_values pixels num_lsb)).
      { apply Hkeys. apply in_map_iff. now exists (k, c). }
      split; [apply (lsb_values_range pixels num_lsb); [lia | assumption]|].
      split; [|now apply Hcounts].
      rewrite (Hcounts k c Hin). unfold occurrences.
      apply (count_occ_In Z.eq_dec) in Hk. lia.
    + subst table. rewrite sum_unique_counts. unfold lsb_values, Sierra.size.
      now rewrite len_map.
  - intros Hn. unfold Sierra.analyze_lsb_distribution, range2.
    replace (Z.to_nat (num_lsb + 1 - 1)) with 0%nat by lia.
    cbn [seq map Sierra.layers_loop]. eexists. reflexivity.
Qed.

Lemma analyze_lsb_distribution_table_witness :
  (let table := Sierra.unique_counts (lsb_values gray_uniform 2) in
   Sierra.analyze_lsb_distribution gray_uniform 2 = Sierra.Return table
   /\ StronglySorted Z.lt (keys table)
   /\ (forall k c, In (k, c) table ->
                   0 <= k < 2 ^ 2 /\ 1 <= c
                   /\ c = occurrences (lsb_values gray_uniform 2) k)
   /\ sum_counts table = Sierra.size gray_uniform)
  /\ (exists msg,
         Sierra.analyze_lsb_distribution gray_uniform 0
         = Sierra.UnboundLocalError msg).
Proof.
  split.
  - apply (proj1 (analyze_lsb_distribution_table gray_uniform 2)). lia.
  - apply (proj2 (analyze_lsb_distribution_table gray_uniform 0)). lia.
Defined.

Lemma distinct_count_le_len (vals : list Z) : distinct_count vals <= len vals.
Proof.
  unfold distinct_count, len.
  assert (length (nodup Z.eq_dec vals) <= length vals)%nat; [|lia].
  apply NoDup_incl_length; [apply NoDup_nodup|].
  intros v Hin. now apply nodup_In in Hin.
Qed.

(** [is_lsb_steganography] answers [True] whenever one of the
    [2^num_lsb] values does not occur among the low bits of the samples;
    the counts are not looked at then.  An image with fewer than
    [2^num_lsb] samples, the empty one included, is therefore always
    reported. *)
Theorem is_lsb_steganography_flags_gaps
        (pixels : Sierra.ndarray) (num_lsb : Z) :
  0 <= num_lsb <= 8 ->
  ((exists v, 0 <= v < 2 ^ num_lsb /\ ~ In v (lsb_values pixels num_lsb)) ->
   Sierra.is_lsb_steganography pixels num_lsb = Ok true)
  /\ (Sierra.size pixels < 2 ^ num_lsb ->
      Sierra.is_lsb_steganography pixels num_lsb = Ok true).
Proof.
  intros Hn.
  assert (H : distinct_count (lsb_values pixels num_lsb) <> 2 ^ num_lsb ->
              Sierra.is_lsb_steganography pixels num_lsb = Ok true).
  { intros Hne. unfold Sierra.is_lsb_steganography, lshift1. zbool. cbn [bind].
    rewrite mask_values by lia. rewrite Z.shiftl_1_l, len_unique_counts.
    destruct (Z.eqb_spec (distinct_count (lsb_values pixels num_lsb))
                         (2 ^ num_lsb)); [contradiction | reflexivity]. }
  assert (Hp : 0 < 2 ^ num_lsb) by (apply Z.pow_pos_nonneg; lia).
  split.
  - intros (v & Hv & Hgap). apply H. intros Hfull. apply Hgap.
    apply (distinct_count_full _ (2 ^ num_lsb)); try assumption; try lia.
    intros w. apply lsb_values_range. lia.
  - intros Hsmall. apply H.
    pose proof (distinct_count_le_len (lsb_values pixels num_lsb)) as Hle.
    unfold lsb_values in Hle at 2. rewrite len_map in Hle.
    unfold Sierra.size in Hsmall. lia.
Qed.

Lemma is_lsb_steganography_flags_gaps_witness :
  Sierra.is_lsb_steganography [[[2]; [4]; [6]; [8]]] 1 = Ok true
  /\ Sierra.is_lsb_steganography gray_3x3 4 = Ok true.
Proof.
  split.
  - apply (proj1 (is_lsb_steganography_flags_gaps [[[2]; [4]; [6]; [8]]] 1
                    ltac:(lia))).
    exists 1. split; [lia|]. vm_compute. intuition discriminate.
  - apply (proj2 (is_lsb_steganography_flags_gaps gray_3x3 4 ltac:(lia))).
    vm_compute. reflexivity.
Defined.

(** [show_lsb] scales the low [n] bits by [255 // (2^n - 1)]: for [n]
    from 1 to 8 the product stays within a byte, so the [uint8]
    arithmetic does not wrap; for [n = 0] the divisor is zero and the
    call ends in [ZeroDivisionError]. *)
Theorem show_lsb_scaling (pixels : Sierra.ndarray) (n : Z) :
  (1 <= n <= 8 ->
   Sierra.show_lsb pixels n
   = Sierra.Return
       (map (map (map (fun v => v mod 2 ^ n * (255 / (2 ^ n - 1))))) pixels)
   /\ forall v, 0 <= v mod 2 ^ n * (255 / (2 ^ n - 1)) <= 255)
  /\ (exists msg, Sierra.show_lsb pixels 0 = Sierra.ZeroDivisionError msg).
Proof.
  split.
  - intros Hn.
    assert (Hp : 2 <= 2 ^ n).
    { change 2 with (2 ^ 1) at 1. apply Z.pow_le_mono_r; lia. }
    assert (Hb : forall v, 0 <= v mod 2 ^ n * (255 / (2 ^ n - 1)) <= 255).
    { intros v.
      pose proof (Z.mod_pos_bound v (2 ^ n) ltac:(lia)) as Hm.
      pose proof (Z.mul_div_le 255 (2 ^ n - 1) ltac:(lia)) as Hs.
      assert (0 <= 255 / (2 ^ n - 1)) by (apply Z.div_pos; lia).
      nia. }
    split; [|exact Hb].
    unfold Sierra.show_lsb. zbool. rewrite Z.shiftl_1_l.
    destruct (Z.eqb_spec (2 ^ n - 1) 0) as [E|_]; [lia|].
    f_equal. rewrite map_map. apply map_ext. intros row.
    rewrite map_map. apply map_ext. intros cell.
    rewrite map_map. apply map_ext. intros v.
    rewrite Z.sub_1_r.
    rewrite <- Z.ones_equiv, Z.land_ones by lia.
    rewrite Z.ones_equiv, <- Z.sub_1_r.
    apply Z.mod_small. specialize (Hb v). lia.
  - eexists. reflexivity.
Qed.

Lemma show_lsb_scaling_witness :
  Sierra.show_lsb gray_3x3 2
  = Sierra.Return
      (map (map (map (fun v => v mod 2 ^ 2 * (255 / (2 ^ 2 - 1))))) gray_3x3)
  /\ forall v, 0 <= v mod 2 ^ 2 * (255 / (2 ^ 2 - 1)) <= 255.
Proof.
  apply (proj1 (show_lsb_scaling gray_3x3 2)). lia.
Defined.

End SierraCoverage.
